(** * TechPioneers interaction layer: carousel, theme switcher, modal,
      scroll spy and scroll animations

    A shallow embedding of the widgets in [src/js/modules] and the
    properties the specification states about them.

    Conventions.
    - A JavaScript method that mutates [this] and may raise is a
      computation in the state-and-exception monad [js]: the mutations
      made before a [throw] stay in the state, as they do in JavaScript.
    - Integers that index slides are [Z]; pixel lengths are exact
      rationals ([Qc]); IEEE-754 rounding is not modelled.
    - An absent DOM node ([querySelector] returning [null]) is [None]. *)

From Stdlib Require Import ZArith QArith Qcanon Lia.
From stdpp Require Import base option list strings pretty gmap.

Open Scope Z_scope.

(* set_solver clears hypotheses it has already used *)
#[local] Set Warnings "-clear-no-such-hyp".

(** * Part I: the model *)

(** ** The state-and-exception monad of method bodies *)

Inductive completion (A : Type) : Type :=
  | Normal (a : A)
  | Thrown (e : string).
Arguments Normal {A} a.
Arguments Thrown {A} e.

Definition js (S A : Type) : Type := S → S * completion A.

Global Instance js_ret {S} : MRet (js S) := λ A a s, (s, Normal a).

Global Instance js_bind {S} : MBind (js S) := λ A B f m s,
  match m s with
  | (s', Normal a) => f a s'
  | (s', Thrown e) => (s', Thrown e)
  end.

Definition get {S} : js S S := λ s, (s, Normal s).
Definition modify {S} (f : S → S) : js S () := λ s, (f s, Normal ()).
Definition throw {S A} (e : string) : js S A := λ s, (s, Thrown e).
Definition when {S} (b : bool) (m : js S ()) : js S () :=
  if b then m else mret ().

(** [try { m } catch (error) { h }] *)
Definition try_catch {S A} (m : js S A) (h : string → js S A) : js S A := λ s,
  match m s with
  | (s', Normal a) => (s', Normal a)
  | (s', Thrown e) => h e s'
  end.

(** A handler registered [n] times runs [n] times. The browser reports
    an exception raised by one run and still makes the next; the
    completion is the first exception, if there was one. *)
Fixpoint times {S} (n : nat) (m : js S ()) : js S () :=
  match n with
  | O => mret ()
  | S n => λ s,
      let r := m s in
      let r' := times n m r.1 in
      (r'.1, match r.2 with
             | Thrown e => Thrown e
             | Normal _ => r'.2
             end)
  end.

Definition TypeError : string := "TypeError".

(** ** Property lookup in an object literal

    [table[key]] for a key the literal does not own is looked up in
    [Object.prototype], whose properties are these. *)

Definition object_prototype_keys : list string :=
  [ "constructor"; "__defineGetter__"; "__defineSetter__"; "hasOwnProperty";
    "__lookupGetter__"; "__lookupSetter__"; "isPrototypeOf";
    "propertyIsEnumerable"; "toString"; "valueOf"; "__proto__";
    "toLocaleString" ].

(** ** Numbers that reach the style layer

    [None] stands for a non-finite value ([NaN], [Infinity]); the only
    source of one in the carousel is the division by [slidesToShow], and
    every arithmetic operation keeps it non-finite or turns it into [NaN],
    for which every comparison is false.

    A finite value is an exact rational. The code computes in IEEE
    doubles, whose sums and differences are exact on the values of one
    binary grid ([Carousel.on_grid]) and rounded elsewhere; the theorem
    that decides the drag threshold to the pixel is stated on such
    values. *)

Definition num : Type := option Qc.

Definition num_div_Z (a : Qc) (d : Z) : num :=
  if decide (d = 0) then None else Some (a / Qc_of_Z d)%Qc.
Definition num_add (x y : num) : num := a ← x; b ← y; Some (a + b)%Qc.
Definition num_sub (x y : num) : num := a ← x; b ← y; Some (a - b)%Qc.
Definition num_mul (x y : num) : num := a ← x; b ← y; Some (a * b)%Qc.
Definition num_lt (x y : num) : bool :=
  match x, y with
  | Some a, Some b => bool_decide (a < b)%Qc
  | _, _ => false
  end.


(** ** Invariants of computations

    [preserves I m]: whatever [m] does, and whether it returns or throws,
    a state satisfying [I] is left satisfying [I]. *)

Definition preserves {S A} (I : S → Prop) (m : js S A) : Prop :=
  ∀ s, I s → I (m s).1.

(** * Carousel ([src/js/modules/carousel.js]) *)

Module Carousel.

(** The track element: the two classes the carousel toggles, the inline
    style it writes, and the computed padding it reads
    ([parseFloat(trackStyle.paddingLeft) || 0]). *)
Record Track : Type := {
  dragging : bool;
  animating : bool;
  transform : option num;
  transitionNone : bool;
  paddingLeft : Qc;
  paddingRight : Qc;
}.

Record Button : Type := {
  disabled : bool;
  ariaDisabled : option string;
}.

(** The container element and what [querySelector] finds below it. *)
Record Element : Type := {
  featured : bool;               (* class [carousel--featured] *)
  cursor : string;               (* [style.cursor] *)
  liveRegion : option string;    (* text of [.carousel__live-region] *)
  viewport : option Z;           (* [offsetWidth] of [.carousel__viewport] *)
  track : option Track;          (* [.carousel__track] *)
  slides : list ();              (* [.carousel__slide] elements *)
  prevButton : option Button;
  nextButton : option Button;
}.

(** The [options] argument: a property is absent ([None]) or present. *)
Record UserOptions : Type := {
  u_slidesToShow : option Z;
  u_slidesToScroll : option Z;
  u_infinite : option bool;
  u_autoplay : option bool;
  u_autoplaySpeed : option Z;
  u_speed : option Z;
}.

Record Options : Type := {
  slidesToShow : Z;
  slidesToScroll : Z;
  infinite : bool;
  autoplay : bool;
  autoplaySpeed : Z;
  speed : Z;
}.

(** Callbacks handed to [setTimeout] and [requestAnimationFrame]. *)
Inductive Task : Type :=
  | RemoveAnimating     (* goToSlide: after 500ms *)
  | ClearTransition     (* updateCarousel: next animation frame *)
  | ResizeSettled.      (* init: 150ms after the last resize *)

Global Instance Task_eq_dec : EqDecision Task.
Proof. solve_decision. Defined.

(** The browser side: window width, installed listeners, pending
    callbacks. *)
Record Env : Type := {
  innerWidth : Z;
  listening : bool;        (* button clicks and keydown *)
  dragListening : bool;    (* touch and mouse listeners of the track *)
  hoverListening : bool;   (* mouseenter/mouseleave, installed if autoplay *)
  resizeListening : bool;  (* window resize, installed by init *)
  pending : list Task;
}.

Record Carousel : Type := {
  carousel : Element;
  env : Env;
  options : Options;
  currentIndex : Z;
  totalSlides : Z;
  isDragging : bool;
  startPos : Qc;
  currentTranslate : num;
  prevTranslate : num;
  autoplayInterval : bool;   (* an interval is running *)
}.

(** *** Field updates *)

Definition set_cursor (v : string) (e : Element) : Element :=
  {| featured := featured e; cursor := v; liveRegion := liveRegion e;
     viewport := viewport e; track := track e; slides := slides e;
     prevButton := prevButton e; nextButton := nextButton e |}.
Definition set_liveRegion (v : option string) (e : Element) : Element :=
  {| featured := featured e; cursor := cursor e; liveRegion := v;
     viewport := viewport e; track := track e; slides := slides e;
     prevButton := prevButton e; nextButton := nextButton e |}.
Definition set_track (v : option Track) (e : Element) : Element :=
  {| featured := featured e; cursor := cursor e; liveRegion := liveRegion e;
     viewport := viewport e; track := v; slides := slides e;
     prevButton := prevButton e; nextButton := nextButton e |}.
Definition set_prevButton (v : option Button) (e : Element) : Element :=
  {| featured := featured e; cursor := cursor e; liveRegion := liveRegion e;
     viewport := viewport e; track := track e; slides := slides e;
     prevButton := v; nextButton := nextButton e |}.
Definition set_nextButton (v : option Button) (e : Element) : Element :=
  {| featured := featured e; cursor := cursor e; liveRegion := liveRegion e;
     viewport := viewport e; track := track e; slides := slides e;
     prevButton := prevButton e; nextButton := v |}.

Definition set_innerWidth (v : Z) (w : Env) : Env :=
  {| innerWidth := v;
     listening := listening w;
     dragListening := dragListening w;
     hoverListening := hoverListening w;
     resizeListening := resizeListening w;
     pending := pending w |}.
Definition set_listening (v : bool) (w : Env) : Env :=
  {| innerWidth := innerWidth w;
     listening := v;
     dragListening := dragListening w;
     hoverListening := hoverListening w;
     resizeListening := resizeListening w;
     pending := pending w |}.
Definition set_dragListening (v : bool) (w : Env) : Env :=
  {| innerWidth := innerWidth w;
     listening := listening w;
     dragListening := v;
     hoverListening := hoverListening w;
     resizeListening := resizeListening w;
     pending := pending w |}.
Definition set_hoverListening (v : bool) (w : Env) : Env :=
  {| innerWidth := innerWidth w;
     listening := listening w;
     dragListening := dragListening w;
     hoverListening := v;
     resizeListening := resizeListening w;
     pending := pending w |}.
Definition set_resizeListening (v : bool) (w : Env) : Env :=
  {| innerWidth := innerWidth w;
     listening := listening w;
     dragListening := dragListening w;
     hoverListening := hoverListening w;
     resizeListening := v;
     pending := pending w |}.
Definition set_pending (v : list Task) (w : Env) : Env :=
  {| innerWidth := innerWidth w;
     listening := listening w;
     dragListening := dragListening w;
     hoverListening := hoverListening w;
     resizeListening := resizeListening w;
     pending := v |}.

Definition upd_carousel (f : Element → Element) (c : Carousel) : Carousel :=
  {| carousel := f (carousel c); env := env c; options := options c;
     currentIndex := currentIndex c; totalSlides := totalSlides c;
     isDragging := isDragging c; startPos := startPos c;
     currentTranslate := currentTranslate c;
     prevTranslate := prevTranslate c;
     autoplayInterval := autoplayInterval c |}.
Definition upd_env (f : Env → Env) (c : Carousel) : Carousel :=
  {| carousel := carousel c; env := f (env c); options := options c;
     currentIndex := currentIndex c; totalSlides := totalSlides c;
     isDragging := isDragging c; startPos := startPos c;
     currentTranslate := currentTranslate c;
     prevTranslate := prevTranslate c;
     autoplayInterval := autoplayInterval c |}.
Definition set_options (v : Options) (c : Carousel) : Carousel :=
  {| carousel := carousel c; env := env c; options := v;
     currentIndex := currentIndex c; totalSlides := totalSlides c;
     isDragging := isDragging c; startPos := startPos c;
     currentTranslate := currentTranslate c;
     prevTranslate := prevTranslate c;
     autoplayInterval := autoplayInterval c |}.
Definition set_currentIndex (v : Z) (c : Carousel) : Carousel :=
  {| carousel := carousel c; env := env c; options := options c;
     currentIndex := v; totalSlides := totalSlides c;
     isDragging := isDragging c; startPos := startPos c;
     currentTranslate := currentTranslate c;
     prevTranslate := prevTranslate c;
     autoplayInterval := autoplayInterval c |}.
Definition set_isDragging (v : bool) (c : Carousel) : Carousel :=
  {| carousel := carousel c; env := env c; options := options c;
     currentIndex := currentIndex c; totalSlides := totalSlides c;
     isDragging := v; startPos := startPos c;
     currentTranslate := currentTranslate c;
     prevTranslate := prevTranslate c;
     autoplayInterval := autoplayInterval c |}.
Definition set_startPos (v : Qc) (c : Carousel) : Carousel :=
  {| carousel := carousel c; env := env c; options := options c;
     currentIndex := currentIndex c; totalSlides := totalSlides c;
     isDragging := isDragging c; startPos := v;
     currentTranslate := currentTranslate c;
     prevTranslate := prevTranslate c;
     autoplayInterval := autoplayInterval c |}.
Definition set_currentTranslate (v : num) (c : Carousel) : Carousel :=
  {| carousel := carousel c; env := env c; options := options c;
     currentIndex := currentIndex c; totalSlides := totalSlides c;
     isDragging := isDragging c; startPos := startPos c;
     currentTranslate := v; prevTranslate := prevTranslate c;
     autoplayInterval := autoplayInterval c |}.
Definition set_prevTranslate (v : num) (c : Carousel) : Carousel :=
  {| carousel := carousel c; env := env c; options := options c;
     currentIndex := currentIndex c; totalSlides := totalSlides c;
     isDragging := isDragging c; startPos := startPos c;
     currentTranslate := currentTranslate c; prevTranslate := v;
     autoplayInterval := autoplayInterval c |}.
Definition set_autoplayInterval (v : bool) (c : Carousel) : Carousel :=
  {| carousel := carousel c; env := env c; options := options c;
     currentIndex := currentIndex c; totalSlides := totalSlides c;
     isDragging := isDragging c; startPos := startPos c;
     currentTranslate := currentTranslate c;
     prevTranslate := prevTranslate c;
     autoplayInterval := v |}.

Definition set_dragging (v : bool) (t : Track) : Track :=
  {| dragging := v; animating := animating t; transform := transform t;
     transitionNone := transitionNone t;
     paddingLeft := paddingLeft t; paddingRight := paddingRight t |}.
Definition set_animating (v : bool) (t : Track) : Track :=
  {| dragging := dragging t; animating := v; transform := transform t;
     transitionNone := transitionNone t;
     paddingLeft := paddingLeft t; paddingRight := paddingRight t |}.
Definition set_transform (v : option num) (t : Track) : Track :=
  {| dragging := dragging t; animating := animating t; transform := v;
     transitionNone := transitionNone t;
     paddingLeft := paddingLeft t; paddingRight := paddingRight t |}.
Definition set_transitionNone (v : bool) (t : Track) : Track :=
  {| dragging := dragging t; animating := animating t;
     transform := transform t; transitionNone := v;
     paddingLeft := paddingLeft t; paddingRight := paddingRight t |}.

(** [this.track.<write>]: a [TypeError] when the track is [null]. *)
Definition on_track (f : Track → Track) : js Carousel () := λ c,
  match track (carousel c) with
  | Some t => (upd_carousel (set_track (Some (f t))) c, Normal ())
  | None => (c, Thrown TypeError)
  end.

Definition setTimeout (t : Task) : js Carousel () :=
  modify (upd_env (λ w, set_pending (pending w ++ [t]) w)).


(** *** Methods, in the order of the source *)

Definition breakpoint_mobile : Z := 768.
Definition breakpoint_tablet : Z := 1024.
Definition breakpoint_desktop : Z := 1440.

Definition updateSlidesToShow : js Carousel () :=
  modify (λ c,
    let width := innerWidth (env c) in
    let isFeatured := featured (carousel c) in
    let n :=
      if bool_decide (breakpoint_desktop ≤ width) then
        (if isFeatured then 4 else 3)
      else if bool_decide (breakpoint_tablet ≤ width) then
        (if isFeatured then 4 else 2)
      else if bool_decide (breakpoint_mobile ≤ width) then 2
      else 1 in
    set_options
      {| slidesToShow := n; slidesToScroll := 1;
         infinite := infinite (options c); autoplay := autoplay (options c);
         autoplaySpeed := autoplaySpeed (options c);
         speed := speed (options c) |} c).

Definition getMaxIndex (c : Carousel) : Z :=
  Z.max 0 (totalSlides c - slidesToShow (options c)).

Definition stopAutoplay : js Carousel () :=
  c ← get;
  when (autoplayInterval c) (modify (set_autoplayInterval false)).

Definition startAutoplay : js Carousel () :=
  c ← get;
  if negb (autoplay (options c)) then mret ()
  else stopAutoplay;; modify (set_autoplayInterval true).

(** [Slide ${this.currentIndex + 1} of ${this.totalSlides}], written to the
    live region, which is created when the container has none. *)
Definition announceSlide : js Carousel () :=
  modify (λ c,
    let announcement :=
      "Slide " +:+ pretty (currentIndex c + 1) +:+ " of "
               +:+ pretty (totalSlides c) in
    upd_carousel (set_liveRegion (Some announcement)) c).

Definition mark_disabled (b : bool) : Button :=
  {| disabled := b;
     ariaDisabled := Some (if b then "true" else "false") |}.

Definition updateButtons : js Carousel () :=
  modify (λ c,
    let maxIndex := getMaxIndex c in
    let atStart :=
      bool_decide (currentIndex c = 0) && negb (infinite (options c)) in
    let atEnd :=
      bool_decide (maxIndex ≤ currentIndex c)
      && negb (infinite (options c)) in
    upd_carousel (λ e,
      set_nextButton ((λ _, mark_disabled atEnd) <$> nextButton e)
        (set_prevButton ((λ _, mark_disabled atStart) <$> prevButton e) e))
      c).

Definition gap : Qc := Qc_of_Z 8.

(** [window.getComputedStyle(this.track)] and [this.viewport.offsetWidth]
    raise a [TypeError] on [null]. *)
Definition updateCarousel (animate : bool) : js Carousel () :=
  c ← get;
  match track (carousel c) with
  | None => throw TypeError
  | Some trackStyle =>
    let totalPadding := (paddingLeft trackStyle + paddingRight trackStyle)%Qc in
    match viewport (carousel c) with
    | None => throw TypeError
    | Some viewportWidth =>
      let availableWidth := (Qc_of_Z viewportWidth - totalPadding)%Qc in
      let slideWidth :=
        num_div_Z availableWidth (slidesToShow (options c)) in
      let offset :=
        num_mul (Some (- Qc_of_Z (currentIndex c))%Qc)
                (num_add slideWidth (Some gap)) in
      when (negb animate) (on_track (set_transitionNone true));;
      on_track (set_transform (Some offset));;
      modify (set_prevTranslate offset);;
      modify (set_currentTranslate offset);;
      when (negb animate) (setTimeout ClearTransition)
    end
  end.

Definition goToSlide (index : Z) (animate : bool) : js Carousel () :=
  modify (λ c,
    let maxIndex := getMaxIndex c in
    set_currentIndex (Z.max 0 (Z.min index maxIndex)) c);;
  when animate (on_track (set_animating true));;
  updateCarousel animate;;
  updateButtons;;
  when animate (setTimeout RemoveAnimating);;
  announceSlide.

Definition next : js Carousel () :=
  c ← get;
  let maxIndex := getMaxIndex c in
  if bool_decide (currentIndex c < maxIndex) then
    goToSlide (currentIndex c + slidesToScroll (options c)) true
  else if infinite (options c) then goToSlide 0 true
  else mret ().

Definition prev : js Carousel () :=
  c ← get;
  if bool_decide (0 < currentIndex c) then
    goToSlide (currentIndex c - slidesToScroll (options c)) true
  else if infinite (options c) then goToSlide (getMaxIndex c) true
  else mret ().

(** [positionX] is what [getPositionX(e)] reads from the event. *)
Definition dragStart (positionX : Qc) : js Carousel () :=
  modify (set_isDragging true);;
  modify (set_startPos positionX);;
  on_track (set_dragging true);;
  modify (upd_carousel (set_cursor "grabbing"));;
  stopAutoplay.

Definition dragMove (positionX : Qc) : js Carousel () :=
  c ← get;
  if negb (isDragging c) then mret ()
  else
    let diff := (positionX - startPos c)%Qc in
    let translate := num_add (prevTranslate c) (Some diff) in
    modify (set_currentTranslate translate);;
    on_track (set_transform (Some translate)).

Definition threshold : Qc := Qc_of_Z 50.

Definition movedBy (c : Carousel) : num :=
  num_sub (currentTranslate c) (prevTranslate c).

Definition dragEnd : js Carousel () :=
  c ← get;
  if negb (isDragging c) then mret ()
  else
    modify (set_isDragging false);;
    on_track (set_dragging false);;
    modify (upd_carousel (set_cursor "grab"));;
    c ← get;
    (if num_lt (movedBy c) (Some (- threshold)%Qc)
        && bool_decide (currentIndex c < getMaxIndex c)
     then next
     else if num_lt (Some threshold) (movedBy c)
             && bool_decide (0 < currentIndex c)
     then prev
     else goToSlide (currentIndex c) true);;
    c ← get;
    when (autoplay (options c)) startAutoplay.

(** The callback of [setInterval] in [startAutoplay]. *)
Definition autoplayTick : js Carousel () :=
  c ← get;
  if bool_decide (getMaxIndex c ≤ currentIndex c) then
    (if infinite (options c) then goToSlide 0 true else stopAutoplay)
  else next.

Definition destroy : js Carousel () :=
  stopAutoplay;;
  on_track (set_transform None);;
  modify (upd_carousel (set_cursor "")).

Definition setupTouchEvents : js Carousel () :=
  on_track id;;
  modify (upd_env (set_dragListening true)).

Definition setupEventListeners : js Carousel () :=
  modify (upd_env (set_listening true));;
  setupTouchEvents;;
  c ← get;
  when (autoplay (options c)) (modify (upd_env (set_hoverListening true))).

Definition init : js Carousel () :=
  updateSlidesToShow;;
  setupEventListeners;;
  updateCarousel true;;
  updateButtons;;
  modify (upd_env (set_resizeListening true));;
  c ← get;
  when (autoplay (options c)) startAutoplay.

(** [options.p || d] for a number, and the trailing [...options]. *)
Definition or_default (o : option Z) (d : Z) : Z :=
  match o with
  | Some v => if bool_decide (v = 0) then d else v
  | None => d
  end.
Definition spread {A} (o : option A) (d : A) : A := from_option id d o.

Definition merge_options (o : UserOptions) : Options :=
  {| slidesToShow := spread (u_slidesToShow o) (or_default (u_slidesToShow o) 1);
     slidesToScroll :=
       spread (u_slidesToScroll o) (or_default (u_slidesToScroll o) 1);
     infinite := spread (u_infinite o) (from_option id false (u_infinite o));
     autoplay := spread (u_autoplay o) (from_option id false (u_autoplay o));
     autoplaySpeed :=
       spread (u_autoplaySpeed o) (or_default (u_autoplaySpeed o) 3000);
     speed := spread (u_speed o) (or_default (u_speed o) 300) |}.

(** [new Carousel(element, options)] in a window [width] pixels wide. *)
Definition new (element : Element) (o : UserOptions) (width : Z)
    : Carousel * completion () :=
  let this :=
    {| carousel := element;
       env := {| innerWidth := width; listening := false;
                 dragListening := false; hoverListening := false;
                 resizeListening := false; pending := [] |};
       options := merge_options o;
       currentIndex := 0;
       totalSlides := Z.of_nat (length (slides element));
       isDragging := false;
       startPos := 0%Qc;
       currentTranslate := Some 0%Qc;
       prevTranslate := Some 0%Qc;
       autoplayInterval := false |} in
  if bool_decide (is_Some (track element))
     && bool_decide (0 < length (slides element))%nat
  then init this
  else (this, Normal ()).

(** *** Events

    What the browser can deliver to an instance after construction. A
    handler runs only if its listener was installed. Touch and mouse
    events reach the same three handlers; a click on a disabled button is
    delivered too, which only enlarges the set of runs. *)

Inductive Event : Type :=
  | ClickPrev
  | ClickNext
  | KeyDown (key : string)
  | PointerDown (positionX : Qc)   (* touchstart, mousedown *)
  | PointerMove (positionX : Qc)   (* touchmove, mousemove *)
  | PointerUp                      (* touchend, mouseup, mouseleave *)
  | MouseEnter
  | MouseLeave
  | Resize (width : Z)
  | Elapse (k : nat)               (* the k-th pending callback runs *)
  | IntervalTick.

Definition runTask (t : Task) : js Carousel () :=
  match t with
  | RemoveAnimating => on_track (set_animating false)
  | ClearTransition => on_track (set_transitionNone false)
  | ResizeSettled =>
      updateSlidesToShow;;
      c ← get;
      goToSlide (currentIndex c) false;;
      updateButtons
  end.

Definition debounce (t : Task) (l : list Task) : list Task :=
  filter (λ t', t' ≠ t) l ++ [t].

Definition dispatch (e : Event) : js Carousel () :=
  c ← get;
  match e with
  | ClickPrev =>
      when (listening (env c)
            && bool_decide (is_Some (prevButton (carousel c)))) prev
  | ClickNext =>
      when (listening (env c)
            && bool_decide (is_Some (nextButton (carousel c)))) next
  | KeyDown key =>
      when (listening (env c))
        (if bool_decide (key = "ArrowLeft") then prev
         else if bool_decide (key = "ArrowRight") then next
         else mret ())
  | PointerDown x => when (dragListening (env c)) (dragStart x)
  | PointerMove x => when (dragListening (env c)) (dragMove x)
  | PointerUp => when (dragListening (env c)) dragEnd
  | MouseEnter => when (hoverListening (env c)) stopAutoplay
  | MouseLeave => when (hoverListening (env c)) startAutoplay
  | Resize width =>
      modify (upd_env (set_innerWidth width));;
      when (resizeListening (env c))
        (modify (upd_env (λ w,
           set_pending (debounce ResizeSettled (pending w)) w)))
  | Elapse k =>
      match pending (env c) !! k with
      | Some t =>
          modify (upd_env (λ w, set_pending (delete k (pending w)) w));;
          runTask t
      | None => mret ()
      end
  | IntervalTick => when (autoplayInterval c) autoplayTick
  end.

(** An exception raised by a handler is reported by the browser and the
    page goes on with the state the handler left. *)
Definition run (es : list Event) (c : Carousel) : Carousel :=
  foldl (λ c e, (dispatch e c).1) c es.

(** Direct calls of the three navigation methods. *)
Inductive Call : Type :=
  | CallNext
  | CallPrev
  | CallGoToSlide (index : Z) (animate : bool).

Definition call (k : Call) : js Carousel () :=
  match k with
  | CallNext => next
  | CallPrev => prev
  | CallGoToSlide index animate => goToSlide index animate
  end.

Definition calls (ks : list Call) (c : Carousel) : Carousel :=
  foldl (λ c k, (call k c).1) c ks.

(** A complete drag: press at [x0], move through [path], release. *)
Definition dragGesture (x0 : Qc) (path : list Qc) : js Carousel () :=
  dragStart x0;;
  foldr (λ x rest, dragMove x;; rest) dragEnd path.

(** Where the pointer is released relative to where it was pressed. *)
Definition displacement (x0 : Qc) (path : list Qc) : Qc :=
  (default x0 (last path) - x0)%Qc.

(** *** Sample containers *)

Definition plain_track : Track :=
  {| dragging := false; animating := false; transform := None;
     transitionNone := false; paddingLeft := 0%Qc; paddingRight := 0%Qc |}.
Definition plain_button : Button :=
  {| disabled := false; ariaDisabled := None |}.
(** The options [main.js] passes. *)
Definition main_options : UserOptions :=
  {| u_slidesToShow := None; u_slidesToScroll := None;
     u_infinite := Some false; u_autoplay := Some false;
     u_autoplaySpeed := None; u_speed := None |}.
Definition looping : UserOptions :=
  {| u_slidesToShow := None; u_slidesToScroll := None;
     u_infinite := Some true; u_autoplay := None;
     u_autoplaySpeed := None; u_speed := None |}.

(** The [more-pioneers] carousel with [n] slides. *)
Definition more_pioneers (n : nat) : Element :=
  {| featured := false; cursor := ""; liveRegion := None;
     viewport := Some 1200; track := Some plain_track;
     slides := replicate n (); prevButton := Some plain_button;
     nextButton := Some plain_button |}.

(** *** Predicates and sample states used in the statements *)

(** What decides the position of the carousel. *)
Definition core (c : Carousel) : Z * Z * Options :=
  (currentIndex c, totalSlides c, options c).

Definition in_range (c : Carousel) : Prop :=
  0 ≤ currentIndex c ≤ getMaxIndex c.

(** The track is where [updateCarousel] last put it. *)
Definition settled (c : Carousel) : Prop :=
  ∃ p, prevTranslate c = Some p ∧ currentTranslate c = Some p.

Definition clamp (c : Carousel) (index : Z) : Z :=
  Z.max 0 (Z.min index (getMaxIndex c)).

(** The state in the middle of a gesture pressed at [x0] whose pointer
    is now at [y]. *)
Definition dragging_at (c0 c : Carousel) (x0 y : Qc) : Prop :=
  isDragging c = true ∧ startPos c = x0 ∧ core c = core c0
  ∧ is_Some (track (carousel c))
  ∧ viewport (carousel c) = viewport (carousel c0)
  ∧ ∃ p, prevTranslate c = Some p
         ∧ currentTranslate c = Some (p + (y - x0))%Qc.

(** The track and the viewport were found. *)
Definition anchored (c : Carousel) : Prop :=
  is_Some (track (carousel c)) ∧ is_Some (viewport (carousel c)).

(** The state of a carousel whose anchors were all found: the track rests
    where [updateCarousel] put it, at least one slide is shown, the step
    is one slide and the index is in range. *)
Definition ready (c : Carousel) : Prop :=
  anchored c ∧ settled c
  ∧ slidesToShow (options c) ≠ 0 ∧ slidesToScroll (options c) = 1
  ∧ in_range c.

(** What [ready] reads of a state. *)
Definition shape (c : Carousel)
    : bool * option Z * num * num * (Z * Z * Options) :=
  (bool_decide (is_Some (track (carousel c))), viewport (carousel c),
   prevTranslate c, currentTranslate c, core c).

(** What [goToSlide] needs in order to return. *)
Definition usable (c : Carousel) : Prop :=
  anchored c ∧ slidesToShow (options c) ≠ 0
  ∧ slidesToScroll (options c) = 1.

(** The more-pioneers carousel whose markup lost its viewport. *)
Definition no_viewport : Element :=
  {| featured := false; cursor := ""; liveRegion := None;
     viewport := None; track := Some plain_track;
     slides := replicate 6 (); prevButton := Some plain_button;
     nextButton := Some plain_button |}.

(** A carousel whose constructor skipped [init]. *)
Definition inert (c : Carousel) : Prop :=
  listening (env c) = false ∧ dragListening (env c) = false
  ∧ hoverListening (env c) = false ∧ resizeListening (env c) = false
  ∧ pending (env c) = [] ∧ autoplayInterval c = false.

(** *** Further predicates used in the statements *)

(** A button, when the page has it, is disabled exactly when [off]. *)
Definition button_shows (b : option Button) (off : bool) : Prop :=
  ∀ x, b = Some x → x = mark_disabled off.

Definition atStart (c : Carousel) : bool :=
  bool_decide (currentIndex c = 0) && negb (infinite (options c)).
Definition atEnd (c : Carousel) : bool :=
  bool_decide (getMaxIndex c ≤ currentIndex c) && negb (infinite (options c)).

(** The buttons tell where the carousel stands. *)
Definition buttons_synced (c : Carousel) : Prop :=
  button_shows (prevButton (carousel c)) (atStart c)
  ∧ button_shows (nextButton (carousel c)) (atEnd c).

(** The text [announceSlide] writes for the state [c]. *)
Definition announcement (c : Carousel) : string :=
  "Slide " +:+ pretty (currentIndex c + 1) +:+ " of "
           +:+ pretty (totalSlides c).

(** The live region names the slide the carousel stands at, or nothing
    was announced yet and the carousel has not left its first slide. *)
Definition live_current (element : Element) (c : Carousel) : Prop :=
  liveRegion (carousel c) = Some (announcement c)
  ∨ (liveRegion (carousel c) = liveRegion element ∧ currentIndex c = 0).

(** What the controls of the page show, and what they depend on. *)
Definition controls (c : Carousel)
    : option Button * option Button * option string * (Z * Z * Options) :=
  (prevButton (carousel c), nextButton (carousel c),
   liveRegion (carousel c), core c).

(** How many resize callbacks wait for their delay to pass. *)
Definition resize_pending (c : Carousel) : nat :=
  length (filter (λ t, t = ResizeSettled) (pending (env c))).

(** The listeners a carousel has installed. *)
Definition listeners (c : Carousel) : bool * bool * bool * bool :=
  (listening (env c), dragListening (env c), hoverListening (env c),
   resizeListening (env c)).



End Carousel.


(** * Theme switcher ([src/js/modules/theme-switcher.js]) *)

Module ThemeSwitcher.

(** [localStorage]: reading or writing may raise (storage disabled, quota
    exceeded); both are caught by the module. *)
Record Storage : Type := {
  readable : bool;
  writable : bool;
  items : gmap string string;
}.

Record Button : Type := {
  ariaLabel : option string;
  icons : list bool;         (* per icon: class [..__icon--animating] *)
}.

(** [window.matchMedia] and what its queries answer. *)
Record Media : Type := {
  prefersDark : bool;           (* (prefers-color-scheme: dark) *)
  prefersReducedMotion : bool;  (* (prefers-reduced-motion: reduce) *)
  canListen : bool;             (* addEventListener or addListener exists *)
}.

Record ThemeSwitcher : Type := {
  themeButton : option Button;
  dataTheme : option string;    (* [data-theme] of the document element *)
  localStorage : Storage;
  matchMedia : option Media;
  clickListeners : nat;         (* handlers on the button *)
  changeListeners : nat;        (* handlers on the color-scheme query *)
  iconTimers : nat;             (* pending 250ms callbacks of animateIcon *)
  console : list string;
}.

Definition storageKey : string := "techpioneers-theme".
Definition LIGHT : string := "light".
Definition DARK : string := "dark".
Definition themes : list string := [LIGHT; DARK].

Definition set_themeButton (v : option Button) (t : ThemeSwitcher)
    : ThemeSwitcher :=
  {| themeButton := v; dataTheme := dataTheme t;
     localStorage := localStorage t; matchMedia := matchMedia t;
     clickListeners := clickListeners t;
     changeListeners := changeListeners t;
     iconTimers := iconTimers t; console := console t |}.
Definition set_dataTheme (v : option string) (t : ThemeSwitcher)
    : ThemeSwitcher :=
  {| themeButton := themeButton t; dataTheme := v;
     localStorage := localStorage t; matchMedia := matchMedia t;
     clickListeners := clickListeners t;
     changeListeners := changeListeners t;
     iconTimers := iconTimers t; console := console t |}.
Definition set_localStorage (v : Storage) (t : ThemeSwitcher)
    : ThemeSwitcher :=
  {| themeButton := themeButton t; dataTheme := dataTheme t;
     localStorage := v; matchMedia := matchMedia t;
     clickListeners := clickListeners t;
     changeListeners := changeListeners t;
     iconTimers := iconTimers t; console := console t |}.
Definition set_matchMedia (v : option Media) (t : ThemeSwitcher)
    : ThemeSwitcher :=
  {| themeButton := themeButton t; dataTheme := dataTheme t;
     localStorage := localStorage t; matchMedia := v;
     clickListeners := clickListeners t;
     changeListeners := changeListeners t;
     iconTimers := iconTimers t; console := console t |}.
Definition set_clickListeners (v : nat) (t : ThemeSwitcher)
    : ThemeSwitcher :=
  {| themeButton := themeButton t; dataTheme := dataTheme t;
     localStorage := localStorage t; matchMedia := matchMedia t;
     clickListeners := v; changeListeners := changeListeners t;
     iconTimers := iconTimers t; console := console t |}.
Definition set_changeListeners (v : nat) (t : ThemeSwitcher)
    : ThemeSwitcher :=
  {| themeButton := themeButton t; dataTheme := dataTheme t;
     localStorage := localStorage t; matchMedia := matchMedia t;
     clickListeners := clickListeners t; changeListeners := v;
     iconTimers := iconTimers t; console := console t |}.
Definition set_iconTimers (v : nat) (t : ThemeSwitcher) : ThemeSwitcher :=
  {| themeButton := themeButton t; dataTheme := dataTheme t;
     localStorage := localStorage t; matchMedia := matchMedia t;
     clickListeners := clickListeners t;
     changeListeners := changeListeners t;
     iconTimers := v; console := console t |}.
Definition set_console (v : list string) (t : ThemeSwitcher)
    : ThemeSwitcher :=
  {| themeButton := themeButton t; dataTheme := dataTheme t;
     localStorage := localStorage t; matchMedia := matchMedia t;
     clickListeners := clickListeners t;
     changeListeners := changeListeners t;
     iconTimers := iconTimers t; console := v |}.

(** [this.themeButton.<write>]: a [TypeError] when the button is [null]. *)
Definition on_button (f : Button → Button) : js ThemeSwitcher () := λ t,
  match themeButton t with
  | Some b => (set_themeButton (Some (f b)) t, Normal ())
  | None => (t, Thrown TypeError)
  end.

Definition console_warn (msg : string) : js ThemeSwitcher () :=
  modify (λ t, set_console (console t ++ [msg]) t).

Definition setItem (key value : string) : js ThemeSwitcher () := λ t,
  let st := localStorage t in
  if writable st then
    (set_localStorage
       {| readable := readable st; writable := writable st;
          items := <[key := value]> (items st) |} t, Normal ())
  else (t, Thrown "QuotaExceededError").

Definition getItem (key : string) : js ThemeSwitcher (option string) := λ t,
  let st := localStorage t in
  if readable st then (t, Normal (items st !! key))
  else (t, Thrown "SecurityError").

(** The value stored under the theme key, whatever the access rights. *)
Definition persisted (t : ThemeSwitcher) : option string :=
  items (localStorage t) !! storageKey.

(** *** Methods *)

Definition savePreference (theme : string) : js ThemeSwitcher () :=
  try_catch (setItem storageKey theme)
    (λ _, console_warn "Failed to save theme preference:").

Definition loadPreference : js ThemeSwitcher (option string) :=
  try_catch (getItem storageKey)
    (λ _, console_warn "Failed to load theme preference:";; mret None).

Definition setTheme (theme : string) : js ThemeSwitcher () :=
  let theme := if bool_decide (theme ∈ themes) then theme else LIGHT in
  modify (set_dataTheme (Some theme));;
  let label :=
    if bool_decide (theme = DARK) then "Switch to light theme"
    else "Switch to dark theme" in
  on_button (λ b, {| ariaLabel := Some label; icons := icons b |});;
  savePreference theme.

(** JavaScript truthiness of a string or [null]. *)
Definition truthy (o : option string) : bool :=
  match o with
  | Some s => negb (bool_decide (s = ""))
  | None => false
  end.

(** [a || b] *)
Definition or_else (o : option string) (d : string) : string :=
  if truthy o then default d o else d.

Definition getCurrentTheme (t : ThemeSwitcher) : string :=
  or_else (dataTheme t) LIGHT.

Definition getSystemPreference (t : ThemeSwitcher) : string :=
  match matchMedia t with
  | Some m => if prefersDark m then DARK else LIGHT
  | None => LIGHT
  end.

Definition watchSystemPreference : js ThemeSwitcher () :=
  t ← get;
  match matchMedia t with
  | None => mret ()
  | Some m =>
      when (canListen m)
        (modify (λ t, set_changeListeners (S (changeListeners t)) t))
  end.

(** [window.matchMedia(..)] is called without a guard here. *)
Definition animateIcon : js ThemeSwitcher () :=
  t ← get;
  match themeButton t, matchMedia t with
  | None, _ => throw TypeError
  | Some _, None => throw TypeError
  | Some _, Some m =>
      if prefersReducedMotion m then mret ()
      else
        on_button (λ b, {| ariaLabel := ariaLabel b;
                           icons := (λ _, true) <$> icons b |});;
        modify (λ t, set_iconTimers (S (iconTimers t)) t)
  end.

Definition toggle : js ThemeSwitcher () :=
  t ← get;
  let currentTheme := getCurrentTheme t in
  let newTheme := if bool_decide (currentTheme = LIGHT) then DARK else LIGHT in
  setTheme newTheme;;
  animateIcon.

Definition init : js ThemeSwitcher () :=
  savedTheme ← loadPreference;
  t ← get;
  let systemTheme := getSystemPreference t in
  let initialTheme := or_else savedTheme systemTheme in
  setTheme initialTheme;;
  on_button id;;
  modify (λ t, set_clickListeners (S (clickListeners t)) t);;
  watchSystemPreference.

(** The listener installed by [watchSystemPreference]. *)
Definition onSystemChange (matches : bool) : js ThemeSwitcher () :=
  saved ← loadPreference;
  if negb (truthy saved) then
    setTheme (if matches then DARK else LIGHT)
  else mret ().

(** [new ThemeSwitcher()] on a page: its button, the [data-theme] written
    in the markup, the storage and the media queries of the browser. *)
Definition new (button : option Button) (markup : option string)
    (st : Storage) (mm : option Media) : ThemeSwitcher * completion () :=
  let this :=
    {| themeButton := button; dataTheme := markup; localStorage := st;
       matchMedia := mm; clickListeners := 0; changeListeners := 0;
       iconTimers := 0; console := [] |} in
  if bool_decide (is_Some button) then init this else (this, Normal ()).

(** *** Events *)

Inductive Event : Type :=
  | Click                              (* on the theme button *)
  | SystemChange (matches : bool)      (* the OS color scheme changes *)
  | IconTimer.                         (* a 250ms callback runs *)

Definition dispatch (e : Event) : js ThemeSwitcher () :=
  t ← get;
  match e with
  | Click => times (clickListeners t) toggle
  | SystemChange matches =>
      modify (λ t,
        set_matchMedia
          ((λ m, {| prefersDark := matches;
                    prefersReducedMotion := prefersReducedMotion m;
                    canListen := canListen m |}) <$> matchMedia t) t);;
      times (changeListeners t) (onSystemChange matches)
  | IconTimer =>
      match iconTimers t with
      | O => mret ()
      | S n =>
          modify (set_iconTimers n);;
          on_button (λ b, {| ariaLabel := ariaLabel b;
                             icons := (λ _, false) <$> icons b |})
      end
  end.

Definition run (es : list Event) (t : ThemeSwitcher) : ThemeSwitcher :=
  foldl (λ t e, (dispatch e t).1) t es.

(** *** Sample pages *)

Definition plain_button : Button := {| ariaLabel := None; icons := [false; false] |}.
Definition empty_storage : Storage :=
  {| readable := true; writable := true; items := ∅ |}.
Definition light_system : Media :=
  {| prefersDark := false; prefersReducedMotion := false; canListen := true |}.

(** A first visit: nothing stored, the OS prefers light. *)
Definition first_visit : ThemeSwitcher :=
  (new (Some plain_button) None empty_storage (Some light_system)).1.

(** *** Predicates and sample states used in the statements *)

(** The applied theme is one of the two values. *)
Definition valid (t : ThemeSwitcher) : Prop :=
  dataTheme t = Some LIGHT ∨ dataTheme t = Some DARK.

(** [setTheme]'s first statement. *)
Definition checked (theme : string) : string :=
  if bool_decide (theme ∈ themes) then theme else LIGHT.

(** The storage, and whether the button exists. *)
Definition fixture (t : ThemeSwitcher) : Storage * bool :=
  (localStorage t, bool_decide (is_Some (themeButton t))).

Definition stored (theme : string) (st : Storage) : Storage :=
  if writable st then
    {| readable := readable st; writable := true;
       items := <[storageKey := theme]> (items st) |}
  else st.

Definition flip (t : ThemeSwitcher) : string :=
  if bool_decide (getCurrentTheme t = LIGHT) then DARK else LIGHT.

(** The applied theme together with the storage. *)
Definition view (t : ThemeSwitcher) : option string * (Storage * bool) :=
  (dataTheme t, fixture t).

(** A page whose stored theme was corrupted. *)
Definition corrupted_storage : Storage :=
  {| readable := true; writable := true;
     items := {[ storageKey := "blue" ]} |}.

(** The state an initialised switcher keeps when its storage works: the
    stored theme is the applied one. *)
Definition kept (t : ThemeSwitcher) : Prop :=
  is_Some (themeButton t)
  ∧ readable (localStorage t) = true ∧ writable (localStorage t) = true
  ∧ valid t ∧ persisted t = dataTheme t.

(** The first visit after the stored data of the site was cleared. *)
Definition cleared : ThemeSwitcher :=
  set_localStorage empty_storage first_visit.

(** *** The page script

    [main.js] builds the switcher and calls [init] once more:
    [const themeSwitcher = new ThemeSwitcher(); themeSwitcher.init();] *)

Definition main_new (button : option Button) (markup : option string)
    (st : Storage) (mm : option Media) : ThemeSwitcher * completion () :=
  match new button markup st mm with
  | (t, Normal _) => init t
  | (t, Thrown e) => (t, Thrown e)
  end.

(** *** Further predicates used in the statements *)

(** The label [setTheme] gives the button under the applied theme. *)
Definition label_for (theme : option string) : string :=
  if bool_decide (theme = Some DARK) then "Switch to light theme"
  else "Switch to dark theme".

(** The button exists and its label offers the other theme. *)
Definition labelled (t : ThemeSwitcher) : Prop :=
  ∃ b, themeButton t = Some b
       ∧ ariaLabel b = Some (label_for (dataTheme t)).

(** What the label is computed from. *)
Definition look (t : ThemeSwitcher) : option (option string) * option string :=
  (ariaLabel <$> themeButton t, dataTheme t).

(** The theme of the operating system as [getSystemPreference] reads it
    from the media queries [mm]. *)
Definition system_theme (mm : option Media) : string :=
  match mm with
  | Some m => if prefersDark m then DARK else LIGHT
  | None => LIGHT
  end.

(** A storage that refuses every access. *)
Definition blocked_storage : Storage :=
  {| readable := false; writable := false; items := ∅ |}.
Definition dark_system : Media :=
  {| prefersDark := true; prefersReducedMotion := false; canListen := true |}.

(** What [loadPreference] answers for a storage. *)
Definition saved_in (st : Storage) : option string :=
  if readable st then items st !! storageKey else None.

(** The theme [init] applies for a storage and the media queries. *)
Definition initial_theme (st : Storage) (mm : option Media) : string :=
  checked (or_else (saved_in st) (system_theme mm)).

(** The warnings [init] logs for a storage. *)
Definition storage_warnings (st : Storage) : list string :=
  (if readable st then [] else ["Failed to load theme preference:"])
  ++ (if writable st then [] else ["Failed to save theme preference:"]).

(** Whether [watchSystemPreference] installs its listener. *)
Definition watches (mm : option Media) : bool :=
  match mm with Some m => canListen m | None => false end.

(** No icon of the button carries the animation class. *)
Definition icons_at_rest (t : ThemeSwitcher) : Prop :=
  ∀ b, themeButton t = Some b → Forall (λ i, i = false) (icons b).

(** The animation class is on the icons only while a timer is waiting
    to remove it. *)
Definition animation_ends (t : ThemeSwitcher) : Prop :=
  iconTimers t = 0%nat → icons_at_rest t.

(** The icons and the timers. *)
Definition motion (t : ThemeSwitcher) : option (list bool) * nat :=
  (icons <$> themeButton t, iconTimers t).

End ThemeSwitcher.

(** * Modal (the [Modal] class, imported as [./modules/modal.js]) *)

Module Modal.

Record Pioneer : Type := {
  name : string;
  role : string;
  image : string;
  bio : string;
  achievements : list string;
  years : string;
}.

Definition katherine_johnson : Pioneer :=
  {| name := "Katherine Johnson";
     role := "NASA Mathematician";
     image := "/assets/images/katherine_johnson.svg";
     bio := "Katherine Johnson was an American mathematician whose calculations of orbital mechanics as a NASA employee were critical to the success of the first and subsequent U.S. crewed spaceflights. Her precise calculations were essential to the success of the Mercury and Apollo missions, including the historic Apollo 11 moon landing.";
     achievements :=
       [ "Calculated trajectories for Project Mercury and Apollo 11 moon landing";
         "Received Presidential Medal of Freedom in 2015";
         "Subject of the Academy Award-nominated film Hidden Figures (2016)";
         "Pioneer in breaking barriers for African American women in STEM fields";
         "Her work ensured the safe return of astronauts from space" ];
     years := "1918 - 2020" |}.

Definition claude_shannon : Pioneer :=
  {| name := "Claude Shannon";
     role := "Mathematician & Electrical Engineer";
     image := "/assets/images/claude_shannon.svg";
     bio := "Claude Shannon was an American mathematician, electrical engineer, and cryptographer known as 'the father of information theory'. His master's thesis demonstrated that electrical applications of Boolean algebra could construct any logical numerical relationship, laying the foundation for digital circuit design.";
     achievements :=
       [ "Founded information theory and digital circuit design theory";
         "Published landmark paper 'A Mathematical Theory of Communication' (1948)";
         "Developed sampling theorem fundamental to digital communications";
         "Made significant contributions to cryptography during World War II";
         "Pioneered artificial intelligence and computer chess" ];
     years := "1916 - 2001" |}.

Definition radia_perlman : Pioneer :=
  {| name := "Radia Perlman";
     role := "Computer Scientist & Network Engineer";
     image := "/assets/images/radia_perlman.svg";
     bio := "Radia Perlman is an American computer scientist and network engineer, often called the 'Mother of the Internet'. She invented the Spanning Tree Protocol (STP), which is fundamental to the operation of network bridges and has made significant contributions to network design and standardization.";
     achievements :=
       [ "Invented the Spanning Tree Protocol (STP) for network stability";
         "Made fundamental contributions to network routing protocols";
         "Received numerous awards including SIGCOMM Award and Internet Hall of Fame induction";
         "Holds over 100 patents in network technologies";
         "Author of influential textbook 'Interconnections: Bridges, Routers, Switches, and Internetworking Protocols'" ];
     years := "1951 - Present" |}.

Definition vint_cerf : Pioneer :=
  {| name := "Vint Cerf";
     role := "Computer Scientist & Internet Pioneer";
     image := "/assets/images/vint_cerf.svg";
     bio := "Vinton Gray Cerf is an American Internet pioneer and is recognized as one of 'the fathers of the Internet'. He co-designed the TCP/IP protocols and the architecture of the Internet with Robert Kahn. His contributions have been fundamental to the development and expansion of the Internet worldwide.";
     achievements :=
       [ "Co-designed TCP/IP protocols that power the Internet";
         "Received Turing Award (1983) and Presidential Medal of Freedom (2005)";
         "Served as vice president and Chief Internet Evangelist at Google";
         "Founding president of the Internet Society";
         "Continues to advocate for Internet accessibility and open standards" ];
     years := "1943 - Present" |}.

Definition shafrira_goldwasser : Pioneer :=
  {| name := "Shafi Goldwasser";
     role := "Computer Scientist & Cryptographer";
     image := "/assets/images/shafrira_goldwasser.svg";
     bio := "Shafi Goldwasser is an Israeli-American computer scientist and winner of the Turing Award in 2012. She is known for her pioneering work in cryptography and computational complexity theory, particularly in the areas of probabilistic encryption, zero-knowledge proofs, and complexity-based cryptography.";
     achievements :=
       [ "Received Turing Award (2012) for contributions to cryptography";
         "Co-inventor of zero-knowledge proofs";
         "Pioneer in probabilistic encryption and interactive proof systems";
         "Professor at MIT and Weizmann Institute of Science";
         "Founded cryptography companies and mentored numerous computer scientists" ];
     years := "1958 - Present" |}.

Definition donald_knuth : Pioneer :=
  {| name := "Donald Knuth";
     role := "Computer Scientist & Mathematician";
     image := "/assets/images/donald_knuth.svg";
     bio := "Donald Ervin Knuth is an American computer scientist and mathematician, often called the 'father of the analysis of algorithms'. He is best known as the author of the multi-volume work 'The Art of Computer Programming', one of the most respected references in computer science. He also created the TeX typesetting system.";
     achievements :=
       [ "Author of 'The Art of Computer Programming', the seminal work in computer science";
         "Created the TeX typesetting system and METAFONT font design system";
         "Received Turing Award (1974) and numerous other prestigious honors";
         "Pioneered the analysis of algorithm complexity and computational theory";
         "Professor Emeritus at Stanford University" ];
     years := "1938 - Present" |}.

Definition pioneersData : gmap string Pioneer :=
  list_to_map
    [ ("katherine-johnson", katherine_johnson);
      ("claude-shannon", claude_shannon);
      ("radia-perlman", radia_perlman);
      ("vint-cerf", vint_cerf);
      ("shafrira-goldwasser", shafrira_goldwasser);
      ("donald-knuth", donald_knuth) ].

(** What [this.pioneersData[pioneerId]] evaluates to. The table is an
    object literal, so a key it does not own is looked up in
    [Object.prototype]: its methods are functions, named after their key
    ([constructor] is [Object]), and [__proto__] is the prototype object. *)
Inductive Data : Type :=
  | Own (p : Pioneer)
  | Builtin (fname : string)
  | Prototype.

Definition object_prototype : gmap string Data :=
  list_to_map
    [ ("constructor", Builtin "Object");
      ("__defineGetter__", Builtin "__defineGetter__");
      ("__defineSetter__", Builtin "__defineSetter__");
      ("hasOwnProperty", Builtin "hasOwnProperty");
      ("__lookupGetter__", Builtin "__lookupGetter__");
      ("__lookupSetter__", Builtin "__lookupSetter__");
      ("isPrototypeOf", Builtin "isPrototypeOf");
      ("propertyIsEnumerable", Builtin "propertyIsEnumerable");
      ("toString", Builtin "toString");
      ("valueOf", Builtin "valueOf");
      ("__proto__", Prototype);
      ("toLocaleString", Builtin "toLocaleString") ].

(** [None] is [undefined]. *)
Definition get_property (table : gmap string Pioneer) (key : string)
    : option Data :=
  match table !! key with
  | Some p => Some (Own p)
  | None => object_prototype !! key
  end.

Definition data_name (d : Data) : option string :=
  match d with
  | Own p => Some (name p)
  | Builtin f => Some f
  | Prototype => None
  end.
Definition data_field (f : Pioneer → string) (d : Data) : option string :=
  match d with
  | Own p => Some (f p)
  | _ => None
  end.
Definition data_achievements (d : Data) : option (list string) :=
  match d with
  | Own p => Some (achievements p)
  | _ => None
  end.

(** Conversion to a string in a template literal or for a [DOMString]
    attribute, and for the nullable [textContent]. *)
Definition to_string (o : option string) : string := default "undefined" o.
Definition to_textContent (o : option string) : string := default "" o.

Definition Node : Type := nat.

Record Backdrop : Type := {
  active : bool;               (* class [modal-backdrop--active] *)
  ariaHidden : option string;
}.

Record Avatar : Type := {
  src : string;
  alt : string;
}.

Record Modal : Type := {
  modalBackdrop : option Backdrop;
  modal : option (list Node);   (* [.modal] and its focusable descendants *)
  closeButton : option Node;
  modalAvatar : option Avatar;
  modalTitle : option string;
  modalSubtitle : option string;
  modalContent : option string;
  isOpen : bool;
  focusableElements : list Node;
  firstFocusableElement : option Node;
  lastFocusableElement : option Node;
  previousActiveElement : option Node;
  (* the document *)
  activeElement : option Node;
  bodyModalOpen : bool;          (* class [modal-open] of the body *)
  listeners : nat;               (* runs of attachEventListeners *)
  trapListeners : nat;           (* keydown handlers of setFocusTrap *)
  focusTimers : nat;             (* pending 500ms callbacks of open *)
  console : list string;
}.

(** The fields [open] and [close] write. *)
Record Display : Type := {
  d_avatar : option Avatar;
  d_title : option string;
  d_subtitle : option string;
  d_content : option string;
}.

Definition displayed (m : Modal) : Display :=
  {| d_avatar := modalAvatar m; d_title := modalTitle m;
     d_subtitle := modalSubtitle m; d_content := modalContent m |}.

Definition set_display (d : Display) (m : Modal) : Modal :=
  {| modalBackdrop := modalBackdrop m; modal := modal m;
     closeButton := closeButton m;
     modalAvatar := d_avatar d; modalTitle := d_title d;
     modalSubtitle := d_subtitle d; modalContent := d_content d;
     isOpen := isOpen m; focusableElements := focusableElements m;
     firstFocusableElement := firstFocusableElement m;
     lastFocusableElement := lastFocusableElement m;
     previousActiveElement := previousActiveElement m;
     activeElement := activeElement m; bodyModalOpen := bodyModalOpen m;
     listeners := listeners m; trapListeners := trapListeners m;
     focusTimers := focusTimers m; console := console m |}.
Definition set_modalBackdrop (v : option Backdrop) (m : Modal) : Modal :=
  {| modalBackdrop := v; modal := modal m;
     closeButton := closeButton m;
     modalAvatar := modalAvatar m; modalTitle := modalTitle m;
     modalSubtitle := modalSubtitle m; modalContent := modalContent m;
     isOpen := isOpen m; focusableElements := focusableElements m;
     firstFocusableElement := firstFocusableElement m;
     lastFocusableElement := lastFocusableElement m;
     previousActiveElement := previousActiveElement m;
     activeElement := activeElement m; bodyModalOpen := bodyModalOpen m;
     listeners := listeners m; trapListeners := trapListeners m;
     focusTimers := focusTimers m; console := console m |}.
Definition set_isOpen (v : bool) (m : Modal) : Modal :=
  {| modalBackdrop := modalBackdrop m; modal := modal m;
     closeButton := closeButton m;
     modalAvatar := modalAvatar m; modalTitle := modalTitle m;
     modalSubtitle := modalSubtitle m; modalContent := modalContent m;
     isOpen := v; focusableElements := focusableElements m;
     firstFocusableElement := firstFocusableElement m;
     lastFocusableElement := lastFocusableElement m;
     previousActiveElement := previousActiveElement m;
     activeElement := activeElement m; bodyModalOpen := bodyModalOpen m;
     listeners := listeners m; trapListeners := trapListeners m;
     focusTimers := focusTimers m; console := console m |}.
Definition set_focusable (l : list Node) (first last : option Node)
    (m : Modal) : Modal :=
  {| modalBackdrop := modalBackdrop m; modal := modal m;
     closeButton := closeButton m;
     modalAvatar := modalAvatar m; modalTitle := modalTitle m;
     modalSubtitle := modalSubtitle m; modalContent := modalContent m;
     isOpen := isOpen m; focusableElements := l;
     firstFocusableElement := first;
     lastFocusableElement := last;
     previousActiveElement := previousActiveElement m;
     activeElement := activeElement m; bodyModalOpen := bodyModalOpen m;
     listeners := listeners m; trapListeners := trapListeners m;
     focusTimers := focusTimers m; console := console m |}.
Definition set_previousActiveElement (v : option Node) (m : Modal) : Modal :=
  {| modalBackdrop := modalBackdrop m; modal := modal m;
     closeButton := closeButton m;
     modalAvatar := modalAvatar m; modalTitle := modalTitle m;
     modalSubtitle := modalSubtitle m; modalContent := modalContent m;
     isOpen := isOpen m; focusableElements := focusableElements m;
     firstFocusableElement := firstFocusableElement m;
     lastFocusableElement := lastFocusableElement m;
     previousActiveElement := v;
     activeElement := activeElement m; bodyModalOpen := bodyModalOpen m;
     listeners := listeners m; trapListeners := trapListeners m;
     focusTimers := focusTimers m; console := console m |}.
Definition set_activeElement (v : option Node) (m : Modal) : Modal :=
  {| modalBackdrop := modalBackdrop m; modal := modal m;
     closeButton := closeButton m;
     modalAvatar := modalAvatar m; modalTitle := modalTitle m;
     modalSubtitle := modalSubtitle m; modalContent := modalContent m;
     isOpen := isOpen m; focusableElements := focusableElements m;
     firstFocusableElement := firstFocusableElement m;
     lastFocusableElement := lastFocusableElement m;
     previousActiveElement := previousActiveElement m;
     activeElement := v; bodyModalOpen := bodyModalOpen m;
     listeners := listeners m; trapListeners := trapListeners m;
     focusTimers := focusTimers m; console := console m |}.
Definition set_bodyModalOpen (v : bool) (m : Modal) : Modal :=
  {| modalBackdrop := modalBackdrop m; modal := modal m;
     closeButton := closeButton m;
     modalAvatar := modalAvatar m; modalTitle := modalTitle m;
     modalSubtitle := modalSubtitle m; modalContent := modalContent m;
     isOpen := isOpen m; focusableElements := focusableElements m;
     firstFocusableElement := firstFocusableElement m;
     lastFocusableElement := lastFocusableElement m;
     previousActiveElement := previousActiveElement m;
     activeElement := activeElement m; bodyModalOpen := v;
     listeners := listeners m; trapListeners := trapListeners m;
     focusTimers := focusTimers m; console := console m |}.
Definition set_counters (l t f : nat) (m : Modal) : Modal :=
  {| modalBackdrop := modalBackdrop m; modal := modal m;
     closeButton := closeButton m;
     modalAvatar := modalAvatar m; modalTitle := modalTitle m;
     modalSubtitle := modalSubtitle m; modalContent := modalContent m;
     isOpen := isOpen m; focusableElements := focusableElements m;
     firstFocusableElement := firstFocusableElement m;
     lastFocusableElement := lastFocusableElement m;
     previousActiveElement := previousActiveElement m;
     activeElement := activeElement m; bodyModalOpen := bodyModalOpen m;
     listeners := l; trapListeners := t;
     focusTimers := f; console := console m |}.
Definition set_console (v : list string) (m : Modal) : Modal :=
  {| modalBackdrop := modalBackdrop m; modal := modal m;
     closeButton := closeButton m;
     modalAvatar := modalAvatar m; modalTitle := modalTitle m;
     modalSubtitle := modalSubtitle m; modalContent := modalContent m;
     isOpen := isOpen m; focusableElements := focusableElements m;
     firstFocusableElement := firstFocusableElement m;
     lastFocusableElement := lastFocusableElement m;
     previousActiveElement := previousActiveElement m;
     activeElement := activeElement m; bodyModalOpen := bodyModalOpen m;
     listeners := listeners m; trapListeners := trapListeners m;
     focusTimers := focusTimers m; console := v |}.

Definition console_warn (msg : string) : js Modal () :=
  modify (λ m, set_console (console m ++ [msg]) m).

(** [this.modalBackdrop.<write>]: a [TypeError] when it is [null]. *)
Definition on_backdrop (f : Backdrop → Backdrop) : js Modal () := λ m,
  match modalBackdrop m with
  | Some b => (set_modalBackdrop (Some (f b)) m, Normal ())
  | None => (m, Thrown TypeError)
  end.

Definition focus (n : Node) : js Modal () :=
  modify (set_activeElement (Some n)).

(** *** The markup written to [innerHTML] *)

Definition dq : string := String (Ascii.ascii_of_nat 34) "".
Definition nl : string := String (Ascii.ascii_of_nat 10) "".

Definition list_item (achievement : string) : string :=
  "<li class=" +:+ dq +:+ "modal__list-item" +:+ dq +:+ ">"
  +:+ achievement +:+ "</li>".

Definition join (l : list string) : string := foldr String.append "" l.

Definition content_html (bioText : string) (items : list string) : string :=
  nl +:+ "        <h3 class=" +:+ dq +:+ "modal__section-title" +:+ dq
     +:+ ">Biography</h3>" +:+ nl
  +:+ "        <p class=" +:+ dq +:+ "modal__text" +:+ dq +:+ ">"
     +:+ bioText +:+ "</p>" +:+ nl
  +:+ "        " +:+ nl
  +:+ "        <h3 class=" +:+ dq +:+ "modal__section-title" +:+ dq
     +:+ ">Key Achievements</h3>" +:+ nl
  +:+ "        <ul class=" +:+ dq +:+ "modal__list" +:+ dq +:+ ">" +:+ nl
  +:+ "          " +:+ join (list_item <$> items) +:+ nl
  +:+ "        </ul>" +:+ nl
  +:+ "      ".

(** *** Methods *)

(** The template of [innerHTML] is evaluated before the assignment:
    [data.achievements.map] on [undefined] raises and nothing is written. *)
Definition updateContent (data : Data) : js Modal () :=
  modify (λ m, set_display
    {| d_avatar :=
         (λ _, {| src := to_string (data_field image data);
                  alt := to_string (data_name data) |}) <$> modalAvatar m;
       d_title := modalTitle m; d_subtitle := modalSubtitle m;
       d_content := modalContent m |} m);;
  modify (λ m, set_display
    {| d_avatar := modalAvatar m;
       d_title := (λ _, to_textContent (data_name data)) <$> modalTitle m;
       d_subtitle := modalSubtitle m; d_content := modalContent m |} m);;
  modify (λ m, set_display
    {| d_avatar := modalAvatar m; d_title := modalTitle m;
       d_subtitle :=
         (λ _, to_string (data_field role data) +:+ " ("
               +:+ to_string (data_field years data) +:+ ")")
         <$> modalSubtitle m;
       d_content := modalContent m |} m);;
  m ← get;
  match modalContent m with
  | None => mret ()
  | Some _ =>
      match data_achievements data with
      | None => throw TypeError
      | Some items =>
          modify (set_display
            {| d_avatar := modalAvatar m; d_title := modalTitle m;
               d_subtitle := modalSubtitle m;
               d_content :=
                 Some (content_html (to_string (data_field bio data)) items)
            |})
      end
  end.

(** [this.modal.querySelectorAll(..)]: a [TypeError] without [.modal]. *)
Definition setFocusTrap : js Modal () :=
  m ← get;
  match modal m with
  | None => throw TypeError
  | Some focusable =>
      modify (set_focusable focusable (firstFocusableElement m)
                (lastFocusableElement m));;
      when (bool_decide (0 < length focusable)%nat)
        (modify (set_focusable focusable (head focusable) (last focusable));;
         modify (λ m, set_counters (listeners m) (S (trapListeners m))
                        (focusTimers m) m))
  end.

Definition open (pioneerId : string) : js Modal () :=
  m ← get;
  match get_property pioneersData pioneerId with
  | None => console_warn ("Pioneer data not found for ID: " +:+ pioneerId)
  | Some pioneerData =>
      updateContent pioneerData;;
      modify (λ m, set_previousActiveElement (activeElement m) m);;
      on_backdrop (λ b, {| active := true; ariaHidden := ariaHidden b |});;
      on_backdrop (λ b, {| active := active b; ariaHidden := Some "false" |});;
      modify (set_bodyModalOpen true);;
      setFocusTrap;;
      modify (λ m, set_counters (listeners m) (trapListeners m)
                     (S (focusTimers m)) m);;
      modify (set_isOpen true)
  end.

Definition close : js Modal () :=
  on_backdrop (λ b, {| active := false; ariaHidden := ariaHidden b |});;
  on_backdrop (λ b, {| active := active b; ariaHidden := Some "true" |});;
  modify (set_bodyModalOpen false);;
  m ← get;
  match previousActiveElement m with
  | Some n => focus n
  | None => mret ()
  end;;
  modify (set_isOpen false).

Definition init : js Modal () :=
  m ← get;
  match modalBackdrop m with
  | None => console_warn "Modal element not found"
  | Some _ =>
      modify (λ m, set_counters (S (listeners m)) (trapListeners m)
                     (focusTimers m) m)
  end.

(** The keydown handler installed by [setFocusTrap]. *)
Definition trapTab (shiftKey : bool) : js Modal () :=
  m ← get;
  if shiftKey then
    match firstFocusableElement m, lastFocusableElement m with
    | Some f, Some l =>
        when (bool_decide (activeElement m = Some f)) (focus l)
    | _, _ => mret ()
    end
  else
    match firstFocusableElement m, lastFocusableElement m with
    | Some f, Some l =>
        when (bool_decide (activeElement m = Some l)) (focus f)
    | _, _ => mret ()
    end.

(** [new Modal()] on a page. *)
Definition new (backdrop : option Backdrop) (dialog : option (list Node))
    (closeBtn : option Node) (avatar : option Avatar)
    (title subtitle content : option string) (focused : option Node)
    : Modal :=
  {| modalBackdrop := backdrop;
     modal := match backdrop with Some _ => dialog | None => None end;
     closeButton := closeBtn; modalAvatar := avatar;
     modalTitle := title; modalSubtitle := subtitle;
     modalContent := content;
     isOpen := false; focusableElements := [];
     firstFocusableElement := None; lastFocusableElement := None;
     previousActiveElement := None;
     activeElement := focused; bodyModalOpen := false;
     listeners := 0; trapListeners := 0; focusTimers := 0;
     console := [] |}.

(** *** Events *)

Inductive Event : Type :=
  | ClickClose
  | ClickBackdrop
  | ClickCard (pioneerId : option string)   (* [data-pioneer-id] *)
  | KeyDown (key : string) (shiftKey : bool)
  | FocusTimer.

Definition dispatch (e : Event) : js Modal () :=
  m ← get;
  match e with
  | ClickClose =>
      when (bool_decide (is_Some (closeButton m))) (times (listeners m) close)
  | ClickBackdrop => times (listeners m) close
  | ClickCard pioneerId =>
      match pioneerId with
      | Some i =>
          when (negb (bool_decide (i = ""))) (times (listeners m) (open i))
      | None => mret ()
      end
  | KeyDown key shiftKey =>
      when (bool_decide (key = "Escape"))
        (times (listeners m) (m ← get; when (isOpen m) close));;
      when (bool_decide (key = "Tab"))
        (times (trapListeners m) (trapTab shiftKey))
  | FocusTimer =>
      match focusTimers m with
      | O => mret ()
      | S n =>
          modify (λ m, set_counters (listeners m) (trapListeners m) n m);;
          match closeButton m with
          | Some b => focus b
          | None => mret ()
          end
      end
  end.

Definition run (es : list Event) (m : Modal) : Modal :=
  foldl (λ m e, (dispatch e m).1) m es.

(** *** A sample page: the dialog of [index.html], nothing shown yet *)

Definition page : Modal :=
  (init
     (new (Some {| active := false; ariaHidden := Some "true" |})
          (Some [1%nat]) (Some 1%nat)
          (Some {| src := ""; alt := "" |}) (Some "") (Some "") (Some "")
          None)).1.

(** *** Predicates and sample states used in the statements *)

(** The page once the dialog has shown Vint Cerf and was closed again. *)
Definition after_vint_cerf : Modal :=
  (close (open "vint-cerf" page).1).1.

(** *** Further predicates used in the statements *)

(** The dialog is shown exactly when the instance says it is open. *)
Definition in_step (m : Modal) : Prop :=
  ∃ b, modalBackdrop m = Some b ∧ active b = isOpen m
       ∧ ariaHidden b = Some (if isOpen m then "false" else "true")
       ∧ bodyModalOpen m = isOpen m.

(** A page that has the backdrop and the dialog in it. *)
Definition complete (m : Modal) : Prop :=
  is_Some (modalBackdrop m) ∧ is_Some (modal m).

(** The events that reach an open dialog without opening or closing it:
    the focus timer and the Tab key. *)
Definition inner (e : Event) : bool :=
  match e with
  | FocusTimer => true
  | KeyDown key _ => bool_decide (key = "Tab")
  | _ => false
  end.

(** One visit of a pioneer: the dialog is opened and closed again. *)
Definition visit (pioneerId : string) (m : Modal) : Modal :=
  (close (open pioneerId m).1).1.

(** A page whose backdrop lost the dialog element. *)
Definition page_without_dialog : Modal :=
  (init
     (new (Some {| active := false; ariaHidden := Some "true" |})
          None (Some 1%nat)
          (Some {| src := ""; alt := "" |}) (Some "") (Some "") (Some "")
          None)).1.

(** The page of [index.html] with three focusable elements in the
    dialog and the card button [7] focused. *)
Definition page_with_links : Modal :=
  (init
     (new (Some {| active := false; ariaHidden := Some "true" |})
          (Some [1%nat; 2%nat; 3%nat]) (Some 1%nat)
          (Some {| src := ""; alt := "" |}) (Some "") (Some "") (Some "")
          (Some 7%nat))).1.

End Modal.

(** * A document: elements in tree order

    Used by the navigation and animation controllers, which find their
    elements with selectors. An element is known by its position. *)

Module Dom.

Record Element : Type := {
  tag : string;
  ident : option string;             (* the [id] attribute *)
  classList : gset string;
  attributes : gmap string string;   (* [data-*], [href], ... *)
  parent : option nat;
  offsetTop : Z;
  offsetHeight : Z;
}.

Abbreviation Document := (list Element).

Definition set_classList (v : gset string) (e : Element) : Element :=
  {| tag := tag e; ident := ident e; classList := v;
     attributes := attributes e; parent := parent e;
     offsetTop := offsetTop e; offsetHeight := offsetHeight e |}.
Definition set_attributes (v : gmap string string) (e : Element) : Element :=
  {| tag := tag e; ident := ident e; classList := classList e;
     attributes := v; parent := parent e;
     offsetTop := offsetTop e; offsetHeight := offsetHeight e |}.

Definition contains (c : string) (e : Element) : bool :=
  bool_decide (c ∈ classList e).
Definition add (c : string) (e : Element) : Element :=
  set_classList ({[c]} ∪ classList e) e.
Definition remove (c : string) (e : Element) : Element :=
  set_classList (classList e ∖ {[c]}) e.
Definition getAttribute (a : string) (e : Element) : option string :=
  attributes e !! a.
Definition hasAttribute (a : string) (e : Element) : bool :=
  bool_decide (is_Some (attributes e !! a)).
Definition setAttribute (a v : string) (e : Element) : Element :=
  set_attributes (<[a := v]> (attributes e)) e.

(** The selectors the modules use: one simple selector, or a comma
    separated list of them. *)
Inductive Simple : Type :=
  | Class (c : string)            (* [.c] *)
  | Attr (a : string)             (* [[a]] *)
  | AttrIs (a v : string)         (* [[a='v']] *)
  | Tag (t : string).             (* [t] *)

Abbreviation Selector := (list Simple).

Definition matches_simple (s : Simple) (e : Element) : bool :=
  match s with
  | Class c => contains c e
  | Attr a => hasAttribute a e
  | AttrIs a v => bool_decide (getAttribute a e = Some v)
  | Tag t => bool_decide (tag e = t)
  end.

Definition matches (sel : Selector) (e : Element) : bool :=
  existsb (λ s, matches_simple s e) sel.

Definition matches_at (d : Document) (sel : Selector) (i : nat) : bool :=
  match d !! i with
  | Some e => matches sel e
  | None => false
  end.

(** [document.querySelectorAll(sel)], in document order. *)
Definition querySelectorAll (d : Document) (sel : Selector) : list nat :=
  filter (λ i, matches_at d sel i = true) (seq 0 (length d)).

Definition querySelector (d : Document) (sel : Selector) : option nat :=
  head (querySelectorAll d sel).

(** [document.getElementById(i)]: the first element with that id; the
    empty string names no element. *)
Definition getElementById (d : Document) (i : string) : option nat :=
  if bool_decide (i = "") then None
  else head (filter (λ k, (d !! k) ≫= ident = Some i) (seq 0 (length d))).

(** The chain of parents of an element, nearest first. *)
Fixpoint ancestors (fuel : nat) (d : Document) (i : nat) : list nat :=
  match fuel with
  | O => []
  | S fuel =>
      match (d !! i) ≫= parent with
      | Some p => p :: ancestors fuel d p
      | None => []
      end
  end.

Definition inside (d : Document) (root i : nat) : bool :=
  bool_decide (root ∈ ancestors (length d) d i).

(** [element.querySelectorAll(sel)]: the matching descendants. *)
Definition querySelectorAllIn (d : Document) (root : nat) (sel : Selector)
    : list nat :=
  filter (λ i, matches_at d sel i && inside d root i = true)
         (seq 0 (length d)).

(** [element.closest(sel)] is not [null]. *)
Definition has_closest (d : Document) (i : nat) (sel : Selector) : bool :=
  matches_at d sel i
  || existsb (matches_at d sel) (ancestors (length d) d i).

(** [nodes.forEach(n => f(n))] where [f] rewrites the element. *)
Definition forEach (nodes : list nat) (f : Element → Element)
    (d : Document) : Document :=
  foldl (λ d i, alter f i d) d nodes.

End Dom.

(** * Navigation: the scroll spy ([src/js/modules/navigation.js])

    The part of the class that marks the active link. The mobile menu and
    smooth scrolling write no class of a navigation link and are left
    out. *)

Module Navigation.
Import Dom.

Record Section_ : Type := {
  id : string;
  element : nat;
}.

Record Navigation : Type := {
  document : Document;
  menuToggle : option nat;
  mobileNav : option nat;
  mobileNavLinks : list nat;
  desktopNavLinks : list nat;
  allNavLinks : list nat;
  sections : list Section_;    (* [sections] of setupScrollSpy *)
  scrollListening : bool;
  ticking : bool;
  frames : nat;                (* requested animation frames *)
  pageYOffset : Qc;
}.

Definition set_document (v : Document) (n : Navigation) : Navigation :=
  {| document := v; menuToggle := menuToggle n; mobileNav := mobileNav n;
     mobileNavLinks := mobileNavLinks n;
     desktopNavLinks := desktopNavLinks n; allNavLinks := allNavLinks n;
     sections := sections n; scrollListening := scrollListening n;
     ticking := ticking n; frames := frames n;
     pageYOffset := pageYOffset n |}.
Definition set_sections (v : list Section_) (n : Navigation) : Navigation :=
  {| document := document n; menuToggle := menuToggle n;
     mobileNav := mobileNav n; mobileNavLinks := mobileNavLinks n;
     desktopNavLinks := desktopNavLinks n; allNavLinks := allNavLinks n;
     sections := v; scrollListening := scrollListening n;
     ticking := ticking n; frames := frames n;
     pageYOffset := pageYOffset n |}.
Definition set_scroll (listening tick : bool) (fr : nat) (y : Qc)
    (n : Navigation) : Navigation :=
  {| document := document n; menuToggle := menuToggle n;
     mobileNav := mobileNav n; mobileNavLinks := mobileNavLinks n;
     desktopNavLinks := desktopNavLinks n; allNavLinks := allNavLinks n;
     sections := sections n; scrollListening := listening;
     ticking := tick; frames := fr; pageYOffset := y |}.

(** [href && href.startsWith("#")], giving [href.substring(1)]. *)
Definition hash_target (href : option string) : option string :=
  match href with
  | Some (String c rest) =>
      if bool_decide (c = Ascii.ascii_of_nat 35) then Some rest else None
  | _ => None
  end.

(** The loop that fills [sections]: one entry per link whose target
    exists, in the order of [allNavLinks]. *)
Definition collectSections (d : Document) (links : list nat)
    : list Section_ :=
  foldl (λ acc link,
    match hash_target ((d !! link) ≫= getAttribute "href") with
    | Some targetId =>
        match getElementById d targetId with
        | Some section => acc ++ [{| id := targetId; element := section |}]
        | None => acc
        end
    | None => acc
    end) [] links.

(** [scrollPosition >= sectionTop && scrollPosition < sectionBottom] *)
Definition spans (d : Document) (scrollPosition : Qc) (s : Section_) : bool :=
  match d !! element s with
  | Some e =>
      let sectionTop := offsetTop e in
      let sectionBottom := sectionTop + offsetHeight e in
      bool_decide (Qc_of_Z sectionTop ≤ scrollPosition)%Qc
      && bool_decide (scrollPosition < Qc_of_Z sectionBottom)%Qc
  | None => false
  end.

(** The [forEach] over [sections]: every match overwrites the last. *)
Definition currentSection (n : Navigation) (scrollPosition : Qc)
    : option string :=
  foldl (λ current s,
    if spans (document n) scrollPosition s then Some (id s) else current)
    None (sections n).

(** [`#${currentSection}`]; [null] prints as the word. *)
Definition hash_of (current : option string) : string :=
  "#" +:+ default "null" current.

Definition mark (target : string) (link : Element) : Element :=
  if bool_decide (getAttribute "href" link = Some target) then
    add (if contains "header__nav-link" link then "header__nav-link--active"
         else "header__mobile-nav-link--active") link
  else
    remove "header__mobile-nav-link--active"
      (remove "header__nav-link--active" link).

Definition updateActiveLink : js Navigation () :=
  n ← get;
  let scrollPosition := (pageYOffset n + Qc_of_Z 100)%Qc in
  let current := currentSection n scrollPosition in
  modify (λ n, set_document
    (forEach (allNavLinks n) (mark (hash_of current)) (document n)) n);;
  modify (λ n, set_scroll (scrollListening n) false (frames n)
                 (pageYOffset n) n).

Definition setupScrollSpy : js Navigation () :=
  modify (λ n,
    set_sections (collectSections (document n) (allNavLinks n)) n);;
  modify (λ n, set_scroll true false (frames n) (pageYOffset n) n);;
  updateActiveLink.

Definition init : js Navigation () := setupScrollSpy.

(** [new Navigation()] on a page scrolled to [y]. *)
Definition new (d : Document) (y : Qc) : Navigation * completion () :=
  let mobile := querySelectorAll d [Class "header__mobile-nav-link"] in
  let desktop := querySelectorAll d [Class "header__nav-link"] in
  let this :=
    {| document := d;
       menuToggle := querySelector d [Class "header__menu-toggle"];
       mobileNav := querySelector d [Class "header__mobile-nav"];
       mobileNavLinks := mobile; desktopNavLinks := desktop;
       allNavLinks := mobile ++ desktop;
       sections := []; scrollListening := false; ticking := false;
       frames := 0; pageYOffset := y |} in
  match menuToggle this, mobileNav this with
  | Some _, Some _ => init this
  | _, _ => (this, Normal ())
  end.

Inductive Event : Type :=
  | Scroll (y : Qc)      (* the page is scrolled to y *)
  | Frame.               (* a requested animation frame runs *)

Definition dispatch (e : Event) : js Navigation () :=
  n ← get;
  match e with
  | Scroll y =>
      modify (set_scroll (scrollListening n) (ticking n) (frames n) y);;
      when (scrollListening n && negb (ticking n))
        (modify (set_scroll (scrollListening n) true (S (frames n)) y))
  | Frame =>
      match frames n with
      | O => mret ()
      | S k =>
          modify (set_scroll (scrollListening n) (ticking n) k
                    (pageYOffset n));;
          updateActiveLink
      end
  end.

Definition run (es : list Event) (n : Navigation) : Navigation :=
  foldl (λ n e, (dispatch e n).1) n es.

(** A link is shown as active when it carries either active class. *)
Definition is_active (e : Element) : bool :=
  contains "header__nav-link--active" e
  || contains "header__mobile-nav-link--active" e.

(** The rule as the specification words it: of the registered sections
    whose span contains the position, the first in document order. *)
Definition firstInDocumentOrder (n : Navigation) (scrollPosition : Qc)
    : option string :=
  let hits := filter (λ s, spans (document n) scrollPosition s = true)
                     (sections n) in
  id <$> foldl (λ first s,
           match first with
           | Some f =>
               if bool_decide (element s < element f)%nat then Some s
               else Some f
           | None => Some s
           end) None hits.

(** *** A sample page: two desktop links, two sections that overlap
    between 300px and 500px *)

Definition node (t : string) (i : option string) (cs : list string)
    (href : option string) (top height : Z) : Element :=
  {| tag := t; ident := i; classList := list_to_set cs;
     attributes := match href with
                   | Some h => {[ "href" := h ]}
                   | None => ∅
                   end;
     parent := None; offsetTop := top; offsetHeight := height |}.

Definition overlapping : Document :=
  [ node "button" None ["header__menu-toggle"] None 0 0;
    node "nav" None ["header__mobile-nav"] None 0 0;
    node "a" None ["header__nav-link"] (Some "#a") 0 0;
    node "a" None ["header__nav-link"] (Some "#b") 0 0;
    node "section" (Some "a") [] None 0 500;
    node "section" (Some "b") [] None 300 500 ].

End Navigation.

(** * Scroll animations (the [AnimationController] class, imported as
      [./modules/animations.js]) *)

Module AnimationController.
Import Dom.

Record Media : Type := {
  reduce : bool;       (* (prefers-reduced-motion: reduce) matches *)
  canListen : bool;    (* addEventListener or addListener exists *)
}.

(** Callbacks handed to [setTimeout]. *)
Inductive Task : Type :=
  | Cleanup (element : nat) (animationClass : string)
  | Reveal (item : nat).

(** [observer] is the observer [this.observer] refers to; one that a
    later [init] replaced is not followed. Timers may run in any order:
    their delays are not modelled. *)
Record AnimationController : Type := {
  document : Document;
  matchMedia : option Media;
  prefersReducedMotion : bool;
  animatedElements : gset nat;
  observer : option (gset nat);   (* [this.observer] and its targets *)
  motionListeners : nat;          (* registrations of handleChange *)
  timers : list Task;
  console : list string;
}.

Definition set_document (v : Document) (a : AnimationController)
    : AnimationController :=
  {| document := v; matchMedia := matchMedia a;
     prefersReducedMotion := prefersReducedMotion a;
     animatedElements := animatedElements a; observer := observer a;
     motionListeners := motionListeners a; timers := timers a;
     console := console a |}.
Definition set_matchMedia (v : option Media) (a : AnimationController)
    : AnimationController :=
  {| document := document a; matchMedia := v;
     prefersReducedMotion := prefersReducedMotion a;
     animatedElements := animatedElements a; observer := observer a;
     motionListeners := motionListeners a; timers := timers a;
     console := console a |}.
Definition set_prefersReducedMotion (v : bool) (a : AnimationController)
    : AnimationController :=
  {| document := document a; matchMedia := matchMedia a;
     prefersReducedMotion := v;
     animatedElements := animatedElements a; observer := observer a;
     motionListeners := motionListeners a; timers := timers a;
     console := console a |}.
Definition set_animatedElements (v : gset nat) (a : AnimationController)
    : AnimationController :=
  {| document := document a; matchMedia := matchMedia a;
     prefersReducedMotion := prefersReducedMotion a;
     animatedElements := v; observer := observer a;
     motionListeners := motionListeners a; timers := timers a;
     console := console a |}.
Definition set_observer (v : option (gset nat)) (a : AnimationController)
    : AnimationController :=
  {| document := document a; matchMedia := matchMedia a;
     prefersReducedMotion := prefersReducedMotion a;
     animatedElements := animatedElements a; observer := v;
     motionListeners := motionListeners a; timers := timers a;
     console := console a |}.
Definition set_motionListeners (v : nat) (a : AnimationController)
    : AnimationController :=
  {| document := document a; matchMedia := matchMedia a;
     prefersReducedMotion := prefersReducedMotion a;
     animatedElements := animatedElements a; observer := observer a;
     motionListeners := v; timers := timers a;
     console := console a |}.
Definition set_timers (v : list Task) (a : AnimationController)
    : AnimationController :=
  {| document := document a; matchMedia := matchMedia a;
     prefersReducedMotion := prefersReducedMotion a;
     animatedElements := animatedElements a; observer := observer a;
     motionListeners := motionListeners a; timers := v;
     console := console a |}.
Definition set_console (v : list string) (a : AnimationController)
    : AnimationController :=
  {| document := document a; matchMedia := matchMedia a;
     prefersReducedMotion := prefersReducedMotion a;
     animatedElements := animatedElements a; observer := observer a;
     motionListeners := motionListeners a; timers := timers a;
     console := v |}.

Definition staggerDelay : Z := 150.

Definition animationClasses : gmap string string :=
  list_to_map
    [ ("fadeIn", "animate-fade-in"); ("slideUp", "animate-slide-up");
      ("slideDown", "animate-slide-down");
      ("slideLeft", "animate-slide-left");
      ("slideRight", "animate-slide-right"); ("stagger", "animate-stagger") ].

(** [this.animationClasses[key]] is truthy. *)
Definition known_animation (key : string) : bool :=
  bool_decide (is_Some (animationClasses !! key))
  || bool_decide (key ∈ object_prototype_keys).

Definition hidden : string := "animate-hidden".
Definition visible : string := "animate-visible".

(** The list shared by setupAnimatableElements and showAllElements. *)
Definition animatableSelectors : list Selector :=
  [ [Attr "data-animate"]; [Class "hero__content"]; [Class "section__title"];
    [Class "pioneer-card--featured"]; [Class "timeline__item"];
    [Class "resource-item"] ].

Definition update (i : nat) (f : Element → Element)
    : js AnimationController () :=
  modify (λ a, set_document (alter f i (document a)) a).

Definition setTimeout (t : Task) : js AnimationController () :=
  modify (λ a, set_timers (timers a ++ [t]) a).

(** [this.observer.observe(element)]: a [TypeError] without observer. *)
Definition observe (i : nat) : js AnimationController () := λ a,
  match observer a with
  | Some targets => (set_observer (Some ({[i]} ∪ targets)) a, Normal ())
  | None => (a, Thrown TypeError)
  end.
Definition unobserve (i : nat) : js AnimationController () := λ a,
  match observer a with
  | Some targets => (set_observer (Some (targets ∖ {[i]})) a, Normal ())
  | None => (a, Thrown TypeError)
  end.

(** [list.forEach(x => body(x))] *)
Definition for_each {S A} (l : list A) (body : A → js S ()) : js S () :=
  foldr (λ x rest, body x;; rest) (mret ()) l.

(** *** Methods *)

Definition shouldSkipElement (d : Document) (i : nat) : bool :=
  matches_at d [Class "pioneer-card--clickable"] i
  || bool_decide (querySelectorAllIn d i [Tag "button"] ≠ [])
  || bool_decide (querySelectorAllIn d i [AttrIs "role" "button"] ≠ [])
  || matches_at d [Class "modal"] i
  || has_closest d i [Class "header"]
  || matches_at d [Class "header"] i.

Definition getAnimationType (e : Element) : string :=
  match getAttribute "data-animate" e with
  | Some dataAnimate =>
      if negb (bool_decide (dataAnimate = "")) && known_animation dataAnimate
      then dataAnimate
      else if contains "hero__content" e then "fadeIn"
      else if contains "section__title" e then "slideUp"
      else if contains "pioneer-card" e then "slideUp"
      else if contains "timeline__item" e then "slideLeft"
      else if contains "resource-item" e then "slideUp"
      else if contains "modal" e then "fadeIn"
      else "fadeIn"
  | None =>
      if contains "hero__content" e then "fadeIn"
      else if contains "section__title" e then "slideUp"
      else if contains "pioneer-card" e then "slideUp"
      else if contains "timeline__item" e then "slideLeft"
      else if contains "resource-item" e then "slideUp"
      else if contains "modal" e then "fadeIn"
      else "fadeIn"
  end.

Definition staggerSelectors : list Selector :=
  [ [Class "carousel__track"]; [Class "timeline"]; [Class "resources__grid"] ].

Definition below (d : Document) (i : nat) (sel : Selector) : bool :=
  bool_decide (querySelectorAllIn d i sel ≠ []).

Definition isStaggeredElement (d : Document) (i : nat) : bool :=
  matches_at d [Attr "data-stagger"] i
  || existsb (λ sel, matches_at d sel i || below d i sel) staggerSelectors.

Definition getStaggeredItems (d : Document) (container : nat) : list nat :=
  let itemSelector :=
    if matches_at d [Class "carousel__track"] container
       || below d container [Class "carousel__track"]
    then [Class "pioneer-card"]
    else if matches_at d [Class "timeline"] container
            || below d container [Class "timeline"]
    then [Class "timeline__item"]
    else if matches_at d [Class "resources__grid"] container
            || below d container [Class "resources__grid"]
    then [Class "resource-item"]
    else [Attr "data-stagger-item"; Class "pioneer-card";
          Class "timeline__item"; Class "resource-item"] in
  querySelectorAllIn d container itemSelector.

Definition setupStaggeredGroup (container : nat)
    : js AnimationController () :=
  a ← get;
  let items := getStaggeredItems (document a) container in
  if bool_decide (items = []) then mret ()
  else
    for_each (imap (λ index item, (index, item)) items) (λ '(index, item),
      update item (add hidden);;
      update item (setAttribute "data-animation-type" "stagger");;
      update item (setAttribute "data-stagger-index" (pretty index)));;
    update container (setAttribute "data-animation-type" "stagger-container");;
    observe container.

Definition setupElement (i : nat) : js AnimationController () :=
  a ← get;
  match document a !! i with
  | None => mret ()
  | Some element =>
      if hasAttribute "data-animation-setup" element then mret ()
      else if shouldSkipElement (document a) i then
        update i (setAttribute "data-animation-setup" "true")
      else
        let animationType := getAnimationType element in
        let isStaggered := isStaggeredElement (document a) i in
        update i (add hidden);;
        (if isStaggered then setupStaggeredGroup i
         else
           update i (setAttribute "data-animation-type" animationType);;
           observe i);;
        update i (setAttribute "data-animation-setup" "true")
  end.

Definition setupAnimatableElements : js AnimationController () :=
  for_each animatableSelectors (λ selector,
    a ← get;
    let elements := querySelectorAll (document a) selector in
    for_each elements setupElement).

(** [classList.add] of a value that is not a class name: an inherited
    function or object prints with blanks, which the token list refuses. *)
Definition resolve_class (animationType : option string) : option string :=
  match animationType with
  | Some t =>
      match animationClasses !! t with
      | Some c => Some c
      | None =>
          if bool_decide (t ∈ object_prototype_keys) then None
          else Some "animate-fade-in"
      end
  | None => Some "animate-fade-in"
  end.

Definition animateSingleElement (i : nat) (animationType : option string)
    : js AnimationController () :=
  update i (remove hidden);;
  match resolve_class animationType with
  | Some animationClass =>
      update i (add animationClass);;
      setTimeout (Cleanup i animationClass)
  | None => throw "InvalidCharacterError"
  end.

Definition animateStaggeredGroup (container : nat)
    : js AnimationController () :=
  a ← get;
  let items := getStaggeredItems (document a) container in
  for_each items (λ item, setTimeout (Reveal item)).

Definition animateElement (i : nat) : js AnimationController () :=
  a ← get;
  let animationType :=
    (document a !! i) ≫= getAttribute "data-animation-type" in
  if bool_decide (animationType = Some "stagger-container") then
    animateStaggeredGroup i
  else animateSingleElement i animationType.

Definition handleIntersection (entries : list (nat * bool))
    : js AnimationController () :=
  for_each entries (λ '(target, isIntersecting),
    a ← get;
    when (isIntersecting && negb (bool_decide (target ∈ animatedElements a)))
      (animateElement target;;
       modify (λ a,
         set_animatedElements ({[target]} ∪ animatedElements a) a);;
       unobserve target)).

Definition showAllElements : js AnimationController () :=
  modify (λ a, set_document
    (forEach (querySelectorAll (document a) [Class hidden])
       (λ e, add visible (remove hidden e)) (document a)) a);;
  for_each animatableSelectors (λ selector,
    modify (λ a, set_document
      (forEach (querySelectorAll (document a) selector)
         (λ e, if negb (contains visible e) then add visible e else e)
         (document a)) a)).

Definition destroy : js AnimationController () :=
  modify (set_observer None);;
  modify (set_animatedElements ∅).

Definition watchReducedMotionPreference : js AnimationController () :=
  a ← get;
  match matchMedia a with
  | None => mret ()
  | Some m =>
      when (canListen m)
        (modify (λ a, set_motionListeners (S (motionListeners a)) a))
  end.

Definition init : js AnimationController () :=
  a ← get;
  if prefersReducedMotion a then
    modify (λ a, set_console
      (console a ++ ["Animations disabled: user prefers reduced motion"]) a);;
    showAllElements
  else
    modify (set_observer (Some ∅));;
    setupAnimatableElements;;
    watchReducedMotionPreference.

(** [handleChange] of watchReducedMotionPreference; [reinit] is the call
    of [this.init()], which may register [handleChange] once more. *)
Definition handleChange (matches : bool) : js AnimationController () :=
  modify (set_prefersReducedMotion matches);;
  if matches then destroy;; showAllElements else init.

Definition animateOnDemand (i : nat) (animationType : string)
    : js AnimationController () :=
  a ← get;
  if prefersReducedMotion a then mret ()
  else
    match resolve_class (Some animationType) with
    | Some animationClass =>
        update i (add animationClass);;
        setTimeout (Cleanup i animationClass)
    | None => throw "InvalidCharacterError"
    end.

(** The two timer callbacks. *)
Definition runTask (t : Task) : js AnimationController () :=
  match t with
  | Cleanup i animationClass =>
      update i (remove animationClass);;
      update i (add visible)
  | Reveal item =>
      a ← get;
      when (negb (bool_decide (item ∈ animatedElements a)))
        (update item (remove hidden);;
         update item (add "animate-slide-up");;
         modify (λ a,
           set_animatedElements ({[item]} ∪ animatedElements a) a);;
         setTimeout (Cleanup item "animate-slide-up"))
  end.

(** [new AnimationController()]: the constructor asks
    [window.matchMedia] without a guard. *)
Definition new (d : Document) (mm : option Media)
    : option AnimationController :=
  m ← mm;
  Some {| document := d; matchMedia := mm;
          prefersReducedMotion := reduce m;
          animatedElements := ∅; observer := None;
          motionListeners := 0; timers := []; console := [] |}.

(** *** Events *)

Inductive Event : Type :=
  | Intersect (entries : list (nat * bool))   (* the observer reports *)
  | MotionChange (matches : bool)             (* the OS preference changes *)
  | Timer (k : nat).                          (* the k-th timer runs *)

Definition dispatch (e : Event) : js AnimationController () :=
  a ← get;
  match e with
  | Intersect entries =>
      match observer a with
      | Some targets =>
          handleIntersection
            (filter (λ entry, entry.1 ∈ targets) entries)
      | None => mret ()
      end
  | MotionChange matches =>
      modify (λ a, set_matchMedia
        ((λ m, {| reduce := matches; canListen := canListen m |})
           <$> matchMedia a) a);;
      times (motionListeners a) (handleChange matches)
  | Timer k =>
      match timers a !! k with
      | Some t =>
          modify (λ a, set_timers (delete k (timers a)) a);;
          runTask t
      | None => mret ()
      end
  end.

Definition run (es : list Event) (a : AnimationController)
    : AnimationController :=
  foldl (λ a e, (dispatch e a).1) a es.

(** An element the controller animates: it matches one of the content
    selectors. *)
Definition animatable (e : Element) : bool :=
  existsb (λ sel, matches sel e) animatableSelectors.

(** *** Predicates and sample states used in the statements *)

(** The two bodies of the loops of showAllElements. *)
Definition reveal (e : Element) : Element := add visible (remove hidden e).
Definition ensure (e : Element) : Element :=
  if negb (contains visible e) then add visible e else e.

(** The document after showAllElements. *)
Definition shown (d : Document) : Document :=
  foldl (λ d sel, forEach (querySelectorAll d sel) ensure d)
        (forEach (querySelectorAll d [Class hidden]) reveal d)
        animatableSelectors.

(** The same, element by element. *)
Definition pass (sels : list Selector) (e : Element) : Element :=
  foldl (λ e sel, if matches sel e then ensure e else e) e sels.

Definition show_element (e : Element) : Element :=
  pass animatableSelectors
       (if matches [Class hidden] e then reveal e else e).

(** A selector that does not look at the visible marker. *)
Definition neutral (sel : Selector) : Prop :=
  ∀ e, matches sel (add visible e) = matches sel e.

(** No observer, no listener for the OS preference, no timer. *)
Definition quiet (a : AnimationController) : Prop :=
  observer a = None ∧ motionListeners a = 0%nat ∧ timers a = [].

(** A page with a hidden title, a timeline and an element outside the
    content selectors. *)
Definition sample_page : Document :=
  let el (cs : list string) (at_ : list (string * string)) (p : option nat) :=
    {| tag := "div"; ident := None; classList := list_to_set cs;
       attributes := list_to_map at_; parent := p;
       offsetTop := 0; offsetHeight := 0 |} in
  [ el ["hero__content"] [] None;
    el ["section__title"; "animate-hidden"] [] None;
    el ["timeline"] [("data-animate", "slideUp")] None;
    el ["timeline__item"] [] (Some 2%nat);
    el ["other"; "animate-hidden"] [] None ].

(** *** Further predicates used in the statements *)

(** Nothing is hidden, and what the controller animates is marked
    visible. *)
Definition all_shown (d : Document) : Prop :=
  ∀ i e, d !! i = Some e →
    contains hidden e = false
    ∧ (animatable e = true → contains visible e = true).

(** The state [handleChange] leaves when the preference turns to
    reduced motion. *)
Definition reduced (a : AnimationController) : Prop :=
  prefersReducedMotion a = true ∧ observer a = None
  ∧ animatedElements a = ∅ ∧ all_shown (document a).

(** The page of [sample_page] once a browser without the preference has
    initialised the controller. *)
Definition sample_running : AnimationController :=
  match new sample_page (Some {| reduce := false; canListen := true |}) with
  | Some a => (init a).1
  | None =>
      {| document := []; matchMedia := None; prefersReducedMotion := false;
         animatedElements := ∅; observer := None; motionListeners := 0;
         timers := []; console := [] |}
  end.

(** An element without classes or attributes. *)
Definition blank : Element :=
  {| tag := "div"; ident := None; classList := ∅; attributes := ∅;
     parent := None; offsetTop := 0; offsetHeight := 0 |}.

End AnimationController.

(** * Navigation: the mobile menu ([src/js/modules/navigation.js])

    The part of the class that opens and closes the mobile menu: the
    constructor's guard, the listeners of [init] that reach [toggle] and
    [close], and the callback that hides the menu after its transition. *)

Module NavigationMenu.

(** [.header__mobile-nav]: its class and its inline [display]. *)
Record MobileNav : Type := {
  openClass : bool;        (* class [header__mobile-nav--open] *)
  display : string;        (* [style.display] *)
}.

Record Menu : Type := {
  menuToggle : option (option string);  (* [aria-expanded] of the toggle *)
  mobileNav : option MobileNav;
  header : option string;               (* [style.border] of [.header] *)
  overflow : string;                    (* [body.style.overflow] *)
  isOpen : bool;
  listening : bool;                     (* the listeners of [init] *)
  timers : nat;                         (* pending 250ms callbacks *)
}.

Definition set_menuToggle (v : option (option string)) (m : Menu) : Menu :=
  {| menuToggle := v; mobileNav := mobileNav m; header := header m;
     overflow := overflow m; isOpen := isOpen m; listening := listening m;
     timers := timers m |}.
Definition set_mobileNav (v : option MobileNav) (m : Menu) : Menu :=
  {| menuToggle := menuToggle m; mobileNav := v; header := header m;
     overflow := overflow m; isOpen := isOpen m; listening := listening m;
     timers := timers m |}.
Definition set_header (v : option string) (m : Menu) : Menu :=
  {| menuToggle := menuToggle m; mobileNav := mobileNav m; header := v;
     overflow := overflow m; isOpen := isOpen m; listening := listening m;
     timers := timers m |}.
Definition set_overflow (v : string) (m : Menu) : Menu :=
  {| menuToggle := menuToggle m; mobileNav := mobileNav m;
     header := header m; overflow := v; isOpen := isOpen m;
     listening := listening m; timers := timers m |}.
Definition set_isOpen (v : bool) (m : Menu) : Menu :=
  {| menuToggle := menuToggle m; mobileNav := mobileNav m;
     header := header m; overflow := overflow m; isOpen := v;
     listening := listening m; timers := timers m |}.
Definition set_listening (v : bool) (m : Menu) : Menu :=
  {| menuToggle := menuToggle m; mobileNav := mobileNav m;
     header := header m; overflow := overflow m; isOpen := isOpen m;
     listening := v; timers := timers m |}.
Definition set_timers (v : nat) (m : Menu) : Menu :=
  {| menuToggle := menuToggle m; mobileNav := mobileNav m;
     header := header m; overflow := overflow m; isOpen := isOpen m;
     listening := listening m; timers := v |}.

(** Writes through [this.mobileNav], [this.menuToggle] and [this.header]:
    a [TypeError] when the element is [null]. *)
Definition on_mobileNav (f : MobileNav → MobileNav) : js Menu () := λ m,
  match mobileNav m with
  | Some n => (set_mobileNav (Some (f n)) m, Normal ())
  | None => (m, Thrown TypeError)
  end.
Definition setAriaExpanded (v : string) : js Menu () := λ m,
  match menuToggle m with
  | Some _ => (set_menuToggle (Some (Some v)) m, Normal ())
  | None => (m, Thrown TypeError)
  end.
Definition setBorder (v : string) : js Menu () := λ m,
  match header m with
  | Some _ => (set_header (Some v) m, Normal ())
  | None => (m, Thrown TypeError)
  end.

(** *** Methods *)

Definition open : js Menu () :=
  modify (set_isOpen true);;
  on_mobileNav (λ n, {| openClass := true; display := display n |});;
  on_mobileNav (λ n, {| openClass := openClass n; display := "block" |});;
  setAriaExpanded "true";;
  setBorder "none";;
  modify (set_overflow "hidden").

Definition close : js Menu () :=
  modify (set_isOpen false);;
  on_mobileNav (λ n, {| openClass := false; display := display n |});;
  setAriaExpanded "false";;
  setBorder "1px solid var(--color-border)";;
  modify (set_overflow "");;
  modify (λ m, set_timers (S (timers m)) m).

Definition toggle : js Menu () :=
  m ← get;
  if isOpen m then close else open.

(** The callback [close] hands to [setTimeout]. *)
Definition hideAfterTransition : js Menu () :=
  m ← get;
  when (negb (isOpen m))
    (on_mobileNav (λ n, {| openClass := openClass n; display := "none" |})).

(** The listeners of [init]; the scroll spy it sets up last is the
    subject of [Navigation]. *)
Definition init : js Menu () :=
  modify (set_listening true).

(** [new Navigation()] on a page. *)
Definition new (toggleButton : option (option string))
    (nav : option MobileNav) (headerElement : option string)
    (bodyOverflow : string) : Menu * completion () :=
  let this :=
    {| menuToggle := toggleButton; mobileNav := nav;
       header := headerElement; overflow := bodyOverflow; isOpen := false;
       listening := false; timers := 0 |} in
  if bool_decide (is_Some toggleButton) && bool_decide (is_Some nav)
  then init this
  else (this, Normal ()).

(** *** Events

    The listeners of one click run one after the other, and an exception
    raised by one does not keep the next from running. *)

Fixpoint listeners_run (l : list (js Menu ())) : js Menu () :=
  match l with
  | [] => mret ()
  | h :: t => λ m,
      let r := h m in
      let r' := listeners_run t r.1 in
      (r'.1, match r.2 with
             | Thrown e => Thrown e
             | Normal _ => r'.2
             end)
  end.

(** The handler of the document for a click outside the menu and the
    toggle, the handler of [setupSmoothScroll] for a hash link whose
    target exists, and the handler of the Escape key. *)
Definition closeIfOpen : js Menu () :=
  m ← get;
  when (isOpen m) close.

Inductive Event : Type :=
  | ClickToggle
  | ClickMobileLink (hashTarget : bool)   (* a link of the mobile menu *)
  | ClickDesktopLink (hashTarget : bool)  (* a link of the desktop bar *)
  | ClickElsewhere                        (* outside the menu and the toggle *)
  | ClickInMenu                           (* in the menu, not on a link *)
  | KeyDown (key : string)
  | Timer.                                (* a 250ms callback runs *)

Definition dispatch (e : Event) : js Menu () :=
  m ← get;
  if negb (listening m) then
    match e with
    | Timer =>
        match timers m with
        | O => mret ()
        | S n => modify (set_timers n);; hideAfterTransition
        end
    | _ => mret ()
    end
  else
    match e with
    | ClickToggle => toggle
    | ClickMobileLink hashTarget =>
        listeners_run
          ([close] ++ (if hashTarget then [closeIfOpen] else []))
    | ClickDesktopLink hashTarget =>
        listeners_run
          ((if hashTarget then [closeIfOpen] else []) ++ [closeIfOpen])
    | ClickElsewhere => closeIfOpen
    | ClickInMenu => mret ()
    | KeyDown key => when (bool_decide (key = "Escape")) closeIfOpen
    | Timer =>
        match timers m with
        | O => mret ()
        | S n => modify (set_timers n);; hideAfterTransition
        end
    end.

Definition run (es : list Event) (m : Menu) : Menu :=
  foldl (λ m e, (dispatch e m).1) m es.

(** *** Predicates and sample pages used in the statements *)

(** An open menu is shown in full. *)
Definition shown_open (m : Menu) : Prop :=
  isOpen m = true →
  mobileNav m = Some {| openClass := true; display := "block" |}
  ∧ menuToggle m = Some (Some "true")
  ∧ header m = Some "none"
  ∧ overflow m = "hidden".

(** A closed menu is displayed only while a callback that will hide it
    is waiting. *)
Definition hidden_closed (m : Menu) : Prop :=
  isOpen m = false →
  ∀ n, mobileNav m = Some n → display n = "block" → (0 < timers m)%nat.

(** The three elements of the header were found. *)
Definition wired (m : Menu) : Prop :=
  is_Some (menuToggle m) ∧ is_Some (mobileNav m) ∧ is_Some (header m).

(** The header of [index.html]: the menu closed and not displayed. *)
Definition closed_nav : MobileNav := {| openClass := false; display := "" |}.

(** What the handlers keep on a page whose header is complete. *)
Definition sound (m : Menu) : Prop :=
  wired m ∧ shown_open m ∧ hidden_closed m
  ∧ (isOpen m = false → ∀ n, mobileNav m = Some n → openClass n = false).

(** What a page without [.header] keeps once the menu was opened. *)
Definition stuck (ov : string) (m : Menu) : Prop :=
  is_Some (menuToggle m) ∧ header m = None ∧ overflow m = ov
  ∧ timers m = 0%nat
  ∧ mobileNav m = Some {| openClass := isOpen m; display := "block" |}.

End NavigationMenu.

(** * Part II: the properties *)

(** * Reasoning about computations *)

Section Computations.
Context {S : Type}.
Implicit Types (I : S → Prop).

Lemma preserves_ret {A} I (a : A) : preserves I (mret a : js S A).
Proof. intros s H. exact H. Qed.

Lemma preserves_bind {A B} I (m : js S A) (f : A → js S B) :
  preserves I m → (∀ a, preserves I (f a)) → preserves I (m ≫= f).
Proof.
  intros Hm Hf s H. specialize (Hm s H).
  unfold mbind, js_bind. destruct (m s) as [s' [a|e]]; simpl in *.
  - by apply Hf.
  - done.
Qed.

Lemma preserves_get I : preserves I (get : js S S).
Proof. intros s H. exact H. Qed.

Lemma preserves_modify I (f : S → S) :
  (∀ s, I s → I (f s)) → preserves I (modify f).
Proof. intros Hf s H. by apply Hf. Qed.

Lemma preserves_throw {A} I e : preserves I (throw e : js S A).
Proof. intros s H. exact H. Qed.

Lemma preserves_when I b (m : js S ()) :
  preserves I m → preserves I (when b m).
Proof. destruct b; [done | intros _; apply preserves_ret]. Qed.

Lemma preserves_try_catch {A} I (m : js S A) h :
  preserves I m → (∀ e, preserves I (h e)) → preserves I (try_catch m h).
Proof.
  intros Hm Hh s H. specialize (Hm s H).
  unfold try_catch. destruct (m s) as [s' [a|e]]; simpl in *.
  - done.
  - by apply Hh.
Qed.

Lemma preserves_times I n (m : js S ()) :
  preserves I m → preserves I (times n m).
Proof.
  intros Hm. induction n as [|n IH]; intros s H.
  - exact H.
  - cbn [times fst]. apply IH. by apply Hm.
Qed.

Lemma preserves_foldl {E} I (step : E → js S ()) (es : list E) s :
  (∀ e, preserves I (step e)) → I s →
  I (foldl (λ s e, (step e s).1) s es).
Proof.
  intros Hstep. revert s. induction es as [|e es IH]; simpl; intros s H.
  - done.
  - apply IH. by apply Hstep.
Qed.

(** What a sequence does once its first part is known. *)
Lemma bind_normal {A B} (m : js S A) (f : A → js S B) s s' a :
  m s = (s', Normal a) → (m ≫= f) s = f a s'.
Proof. intros H. unfold mbind, js_bind. by rewrite H. Qed.

Lemma bind_thrown {A B} (m : js S A) (f : A → js S B) s s' e :
  m s = (s', Thrown e) → (m ≫= f) s = (s', Thrown e).
Proof. intros H. unfold mbind, js_bind. by rewrite H. Qed.
End Computations.

Ltac preserve_step :=
  lazymatch goal with
  | |- preserves _ (mret _) => apply preserves_ret
  | |- preserves _ get => apply preserves_get
  | |- preserves _ (throw _) => apply preserves_throw
  | |- preserves _ (modify _) => apply preserves_modify; intros ? ?
  | |- preserves _ (when _ _) => apply preserves_when
  | |- preserves _ (times _ _) => apply preserves_times
  | |- preserves _ (try_catch _ _) => apply preserves_try_catch; [| intros ?]
  | |- preserves _ (_ ≫= _) => apply preserves_bind; [| intros ?]
  end.
Ltac preserve := repeat preserve_step.

(** * Carousel: the index stays in range *)

Module CarouselFacts.
Import Carousel.

Lemma on_track_core k f : preserves (λ c, core c = k) (on_track f).
Proof.
  intros c H. unfold on_track. by destruct (track (carousel c)).
Qed.

Lemma setTimeout_core k t : preserves (λ c, core c = k) (setTimeout t).
Proof. unfold setTimeout. preserve. done. Qed.

Lemma updateButtons_core k : preserves (λ c, core c = k) updateButtons.
Proof. unfold updateButtons. preserve. done. Qed.

Lemma announceSlide_core k : preserves (λ c, core c = k) announceSlide.
Proof. unfold announceSlide. preserve. done. Qed.

Lemma stopAutoplay_core k : preserves (λ c, core c = k) stopAutoplay.
Proof. unfold stopAutoplay. preserve. done. Qed.

Lemma startAutoplay_core k : preserves (λ c, core c = k) startAutoplay.
Proof.
  unfold startAutoplay. preserve.
  destruct (negb _); preserve; [apply stopAutoplay_core | done].
Qed.

Lemma updateCarousel_core k animate :
  preserves (λ c, core c = k) (updateCarousel animate).
Proof.
  unfold updateCarousel. preserve.
  destruct (track _); [| preserve].
  destruct (viewport _); [| preserve].
  preserve; try apply on_track_core; try apply setTimeout_core; done.
Qed.

Lemma goToSlide_core index animate c :
  core (goToSlide index animate c).1
  = (Z.max 0 (Z.min index (getMaxIndex c)), totalSlides c, options c).
Proof.
  unfold goToSlide.
  erewrite bind_normal by reflexivity.
  match goal with |- core (?m ?s).1 = ?k =>
    assert (Hp : preserves (λ c, core c = k) m) end.
  { preserve; auto using on_track_core, updateCarousel_core,
      updateButtons_core, setTimeout_core, announceSlide_core. }
  by apply Hp.
Qed.

Lemma in_range_core c c' : core c' = core c → in_range c → in_range c'.
Proof.
  unfold core, in_range, getMaxIndex. intros [= -> -> ->]. done.
Qed.

Lemma core_preserves_in_range {A} (m : js Carousel A) :
  (∀ k, preserves (λ c, core c = k) m) → preserves in_range m.
Proof.
  intros H c Hr. apply (in_range_core c); [| done].
  by apply (H (core c)).
Qed.

Lemma getMaxIndex_nonneg c : 0 ≤ getMaxIndex c.
Proof. unfold getMaxIndex. lia. Qed.

Lemma getMaxIndex_core c c' : core c' = core c → getMaxIndex c' = getMaxIndex c.
Proof. unfold core, getMaxIndex. by intros [= _ -> ->]. Qed.

Lemma goToSlide_index index animate c :
  currentIndex (goToSlide index animate c).1
  = Z.max 0 (Z.min index (getMaxIndex c)).
Proof. by pose proof (goToSlide_core index animate c) as [= -> _ _]. Qed.

Lemma goToSlide_in_range index animate c :
  in_range (goToSlide index animate c).1.
Proof.
  pose proof (goToSlide_core index animate c) as H.
  pose proof (getMaxIndex_nonneg c).
  unfold in_range, getMaxIndex in *. injection H as -> -> ->. lia.
Qed.

(** A clamped index that was in range is itself. *)
Lemma goToSlide_same animate c :
  in_range c → core (goToSlide (currentIndex c) animate c).1 = core c.
Proof.
  intros Hr. rewrite goToSlide_core. unfold core, in_range in *.
  f_equal. f_equal. lia.
Qed.

Lemma next_core c :
  core (next c).1 =
    if bool_decide (currentIndex c < getMaxIndex c) then
      (Z.max 0 (Z.min (currentIndex c + slidesToScroll (options c))
                      (getMaxIndex c)), totalSlides c, options c)
    else if infinite (options c) then (0, totalSlides c, options c)
    else core c.
Proof.
  unfold next. erewrite bind_normal by reflexivity.
  case_bool_decide; [apply goToSlide_core |].
  destruct (infinite _); [| done].
  rewrite goToSlide_core. pose proof (getMaxIndex_nonneg c).
  do 2 f_equal. lia.
Qed.

Lemma prev_core c :
  core (prev c).1 =
    if bool_decide (0 < currentIndex c) then
      (Z.max 0 (Z.min (currentIndex c - slidesToScroll (options c))
                      (getMaxIndex c)), totalSlides c, options c)
    else if infinite (options c) then
      (getMaxIndex c, totalSlides c, options c)
    else core c.
Proof.
  unfold prev. erewrite bind_normal by reflexivity.
  case_bool_decide; [apply goToSlide_core |].
  destruct (infinite _); [| done].
  rewrite goToSlide_core. pose proof (getMaxIndex_nonneg c).
  do 2 f_equal. lia.
Qed.

Lemma next_in_range : preserves in_range next.
Proof.
  intros c Hr. unfold next. erewrite bind_normal by reflexivity.
  case_bool_decide; [apply goToSlide_in_range |].
  destruct (infinite _); [apply goToSlide_in_range | done].
Qed.

Lemma prev_in_range : preserves in_range prev.
Proof.
  intros c Hr. unfold prev. erewrite bind_normal by reflexivity.
  case_bool_decide; [apply goToSlide_in_range |].
  destruct (infinite _); [apply goToSlide_in_range | done].
Qed.

Lemma call_in_range k : preserves in_range (call k).
Proof.
  destruct k; simpl.
  - apply next_in_range.
  - apply prev_in_range.
  - intros c _. apply goToSlide_in_range.
Qed.

(** *** Construction *)

Lemma setupEventListeners_core k :
  preserves (λ c, core c = k) setupEventListeners.
Proof.
  unfold setupEventListeners, setupTouchEvents.
  preserve; try apply on_track_core; done.
Qed.

Lemma init_index : preserves (λ c, currentIndex c = 0) init.
Proof.
  assert (Hc : ∀ {A} (m : js Carousel A),
            (∀ k, preserves (λ c, core c = k) m) →
            preserves (λ c, currentIndex c = 0) m).
  { intros A m H c H0. specialize (H (core c) c eq_refl).
    unfold core in H. by injection H as -> _ _. }
  unfold init. preserve.
  - unfold updateSlidesToShow. preserve. done.
  - apply Hc; intros; apply setupEventListeners_core.
  - apply Hc; intros; apply updateCarousel_core.
  - apply Hc; intros; apply updateButtons_core.
  - done.
  - apply Hc; intros; apply startAutoplay_core.
Qed.

Lemma new_in_range element o width : in_range (new element o width).1.
Proof.
  assert (H0 : ∀ c, currentIndex c = 0 → in_range c).
  { intros c H. unfold in_range. rewrite H.
    pose proof (getMaxIndex_nonneg c). lia. }
  unfold new. destruct (_ && _).
  - apply H0. by apply init_index.
  - by apply H0.
Qed.

Lemma calls_in_range ks c : in_range c → in_range (calls ks c).
Proof. apply preserves_foldl, call_in_range. Qed.

(** *** Events *)

Lemma in_range_frame {A} (m : js Carousel A) :
  (∀ k, preserves (λ c, core c = k) m) → preserves in_range m.
Proof. apply core_preserves_in_range. Qed.

Lemma goToSlide_preserves_in_range index animate :
  preserves in_range (goToSlide index animate).
Proof. intros c _. apply goToSlide_in_range. Qed.

Lemma dragStart_core k x : preserves (λ c, core c = k) (dragStart x).
Proof.
  unfold dragStart. preserve; try done;
    [apply on_track_core | apply stopAutoplay_core].
Qed.

Lemma dragMove_core k x : preserves (λ c, core c = k) (dragMove x).
Proof.
  unfold dragMove. preserve.
  match goal with a : Carousel |- _ => destruct (negb (isDragging a)) end;
    preserve; [done | apply on_track_core].
Qed.

Lemma dragEnd_in_range : preserves in_range dragEnd.
Proof.
  unfold dragEnd. preserve.
  match goal with a : Carousel |- _ => destruct (negb (isDragging a)) end;
    preserve; try done.
  - apply in_range_frame. intros. apply on_track_core.
  - match goal with |- preserves _ (if ?b then _ else _) => destruct b end;
      [apply next_in_range |].
    match goal with |- preserves _ (if ?b then _ else _) => destruct b end;
      [apply prev_in_range | apply goToSlide_preserves_in_range].
  - apply in_range_frame. intros. apply startAutoplay_core.
Qed.

(** The callback of the resize timer changes [slidesToShow] and clamps
    the index again before anything can raise. *)
Lemma resizeSettled_in_range c : in_range (runTask ResizeSettled c).1.
Proof.
  cbn [runTask]. erewrite bind_normal by reflexivity.
  erewrite bind_normal by reflexivity.
  match goal with |- in_range ((?m ≫= ?f) ?s).1 =>
    assert (Hf : ∀ a, preserves in_range (f a));
    [| unfold mbind, js_bind;
       pose proof (goToSlide_in_range (currentIndex s) false s) as Hg;
       change (m s) with (goToSlide (currentIndex s) false s);
       destruct (goToSlide (currentIndex s) false s) as [c' [[]|e]];
       simpl in *; [by apply Hf | done] ]
  end.
  intros _. apply in_range_frame. intros. apply updateButtons_core.
Qed.

Lemma dispatch_in_range e : preserves in_range (dispatch e).
Proof.
  unfold dispatch. preserve. destruct e; preserve; try done.
  - apply prev_in_range.
  - apply next_in_range.
  - repeat case_bool_decide; preserve;
      [apply prev_in_range | apply next_in_range].
  - apply in_range_frame. intros. apply dragStart_core.
  - apply in_range_frame. intros. apply dragMove_core.
  - apply dragEnd_in_range.
  - apply in_range_frame. intros. apply stopAutoplay_core.
  - apply in_range_frame. intros. apply startAutoplay_core.
  - match goal with a : Carousel |- _ =>
      destruct (pending (env a) !! k) as [t|] end; preserve; [done |].
    destruct t.
    + apply in_range_frame. intros. apply on_track_core.
    + apply in_range_frame. intros. apply on_track_core.
    + intros c _. apply resizeSettled_in_range.
  - unfold autoplayTick. preserve.
    case_bool_decide; [| apply next_in_range].
    match goal with a : Carousel |- _ => destruct (infinite (options a)) end;
      [apply goToSlide_preserves_in_range
      | apply in_range_frame; intros; apply stopAutoplay_core].
Qed.

(** The index of a constructed carousel is in range after any sequence
    of events. *)
Lemma run_in_range element o width es :
  in_range (run es (new element o width).1).
Proof.
  unfold run.
  apply preserves_foldl; [apply dispatch_in_range | apply new_in_range].
Qed.

(** *** Dragging *)

Lemma bind_core {A B} (m : js Carousel A) (f : A → js Carousel B) c :
  (∀ a k, preserves (λ c, core c = k) (f a)) →
  core ((m ≫= f) c).1 = core (m c).1.
Proof.
  intros H. unfold mbind, js_bind.
  destruct (m c) as [c' [a|e]]; simpl; [| done].
  by apply (H a (core c')).
Qed.

Lemma on_track_some f c t :
  track (carousel c) = Some t →
  on_track f c = (upd_carousel (set_track (Some (f t))) c, Normal ()).
Proof. intros H. unfold on_track. by rewrite H. Qed.

Lemma dragEnd_core c t :
  isDragging c = true → track (carousel c) = Some t →
  core (dragEnd c).1 =
    (if num_lt (movedBy c) (Some (- threshold)%Qc)
        && bool_decide (currentIndex c < getMaxIndex c)
     then clamp c (currentIndex c + slidesToScroll (options c))
     else if num_lt (Some threshold) (movedBy c)
             && bool_decide (0 < currentIndex c)
     then clamp c (currentIndex c - slidesToScroll (options c))
     else clamp c (currentIndex c),
     totalSlides c, options c).
Proof.
  intros Hd Ht. unfold dragEnd.
  erewrite bind_normal by reflexivity. rewrite Hd. cbn [negb].
  erewrite bind_normal by reflexivity.
  erewrite bind_normal by (by apply on_track_some).
  erewrite bind_normal by reflexivity.
  erewrite bind_normal by reflexivity.
  rewrite bind_core.
  2:{ intros _ k. preserve. apply startAutoplay_core. }
  set (c1 := upd_carousel _ _).
  assert (Hcore : core c1 = core c) by done.
  assert (Hmax : getMaxIndex c1 = getMaxIndex c) by done.
  assert (Hmv : movedBy c1 = movedBy c) by done.
  rewrite Hmv, Hmax.
  change (currentIndex c1) with (currentIndex c).
  destruct (num_lt (movedBy c) _ && _) eqn:Hfwd.
  - apply andb_true_iff in Hfwd as [_ Hlt].
    rewrite next_core, Hmax.
    change (currentIndex c1) with (currentIndex c). by rewrite Hlt.
  - destruct (num_lt _ (movedBy c) && _) eqn:Hbwd.
    + apply andb_true_iff in Hbwd as [_ Hlt].
      rewrite prev_core, Hmax.
      change (currentIndex c1) with (currentIndex c). by rewrite Hlt.
    + rewrite goToSlide_core, Hmax. done.
Qed.

Lemma dragStart_dragging c x0 :
  is_Some (track (carousel c)) → settled c →
  ∃ c1, dragStart x0 c = (c1, Normal ()) ∧ dragging_at c c1 x0 x0.
Proof.
  intros [t Ht] (p & Hp & Hc). unfold dragStart.
  erewrite bind_normal by reflexivity.
  erewrite bind_normal by reflexivity.
  erewrite bind_normal by (by apply on_track_some).
  erewrite bind_normal by reflexivity.
  unfold stopAutoplay. erewrite bind_normal by reflexivity.
  set (c1 := upd_carousel _ _).
  assert (Hat : ∀ c2, core c2 = core c1 → isDragging c2 = true →
            startPos c2 = x0 → carousel c2 = carousel c1 →
            prevTranslate c2 = prevTranslate c →
            currentTranslate c2 = currentTranslate c →
            dragging_at c c2 x0 x0).
  { intros c2 H1 H2 H3 H4 H5 H6. repeat split; try done.
    - by rewrite H4.
    - by rewrite H4.
    - exists p. rewrite H5, H6. split; [done |]. rewrite Hc. f_equal. ring. }
  destruct (autoplayInterval c1); simpl; eexists; (split; [reflexivity |]);
    by apply Hat.
Qed.

Lemma dragMove_dragging c0 c x0 y x :
  dragging_at c0 c x0 y →
  ∃ c1, dragMove x c = (c1, Normal ()) ∧ dragging_at c0 c1 x0 x.
Proof.
  intros (Hd & Hs & Hcore & [t Ht] & Hv & p & Hp & Hc). unfold dragMove.
  erewrite bind_normal by reflexivity. rewrite Hd. cbn [negb].
  erewrite bind_normal by reflexivity.
  erewrite on_track_some by done.
  eexists. split; [reflexivity |].
  repeat split; try done.
  exists p. simpl. split; [done |]. rewrite Hp, Hs. done.
Qed.

Lemma moves_dragging path c0 c x0 y :
  dragging_at c0 c x0 y →
  ∃ c1, foldr (λ x rest, dragMove x;; rest) dragEnd path c = dragEnd c1
        ∧ dragging_at c0 c1 x0 (default y (last path)).
Proof.
  revert c y. induction path as [|x path IH]; intros c y Hat.
  - exists c. done.
  - destruct (dragMove_dragging c0 c x0 y x Hat) as (c1 & Hm & Hat1).
    destruct (IH c1 x Hat1) as (c2 & Hf & Hat2).
    exists c2. split.
    + cbn [foldr]. erewrite bind_normal by exact Hm. exact Hf.
    + rewrite last_cons. by destruct (last path).
Qed.

Lemma dragging_movedBy c0 c x0 y :
  dragging_at c0 c x0 y → movedBy c = Some (y - x0)%Qc.
Proof.
  intros (_ & _ & _ & _ & _ & p & Hp & Hc).
  unfold movedBy. rewrite Hp, Hc. simpl. f_equal. ring.
Qed.

(** A whole gesture is its release, in the state the moves built. *)
Lemma dragGesture_release c x0 path :
  is_Some (track (carousel c)) → settled c →
  ∃ c1, dragGesture x0 path c = dragEnd c1
        ∧ isDragging c1 = true ∧ is_Some (track (carousel c1))
        ∧ core c1 = core c
        ∧ movedBy c1 = Some (displacement x0 path)
        ∧ viewport (carousel c1) = viewport (carousel c).
Proof.
  intros Ht Hs.
  destruct (dragStart_dragging c x0 Ht Hs) as (c1 & Hstart & Hat1).
  destruct (moves_dragging path c c1 x0 x0 Hat1) as (c2 & Hf & Hat2).
  exists c2. split.
  { unfold dragGesture. by erewrite bind_normal by exact Hstart. }
  pose proof (dragging_movedBy _ _ _ _ Hat2) as Hmv.
  destruct Hat2 as (Hd & _ & Hcore & Htr & Hv & _).
  done.
Qed.

Lemma num_lt_Some a b : num_lt (Some a) (Some b) = bool_decide (a < b)%Qc.
Proof. done. Qed.

End CarouselFacts.

Module CarouselReady.
Import Carousel CarouselFacts.

Lemma ready_shape c c' : shape c' = shape c → ready c → ready c'.
Proof.
  unfold shape. intros Hsh ([Ha1 Ha2] & (p & Hs1 & Hs2) & Hn & Hstep & Hr).
  injection Hsh as Ht Hv Hp Hc Hi Htot Ho.
  split; [split |].
  - apply (bool_decide_eq_true_2 _) in Ha1. rewrite <- Ht in Ha1.
    by apply bool_decide_eq_true_1 in Ha1.
  - by rewrite Hv.
  - split; [exists p; by rewrite Hp, Hc |].
    rewrite Ho. repeat split; try done; apply (in_range_core c);
      try done; unfold core; by rewrite Hi, Htot, Ho.
Qed.

Lemma updateCarousel_settles animate c :
  anchored c → slidesToShow (options c) ≠ 0 →
  ∃ c', updateCarousel animate c = (c', Normal ())
        ∧ settled c' ∧ core c' = core c ∧ anchored c'.
Proof.
  intros [[t Ht] [w Hw]] Hn. unfold updateCarousel.
  erewrite bind_normal by reflexivity. rewrite Ht, Hw.
  unfold num_div_Z. rewrite decide_False by done.
  destruct animate; cbn [negb when].
  - erewrite bind_normal by reflexivity.
    erewrite bind_normal by (by apply on_track_some).
    erewrite bind_normal by reflexivity.
    erewrite bind_normal by reflexivity.
    eexists. split; [reflexivity |].
    split; [by eexists | split; [done |]].
    split; simpl; [by eexists | by rewrite Hw].
  - erewrite bind_normal by (by apply on_track_some).
    erewrite bind_normal by (by apply on_track_some).
    erewrite bind_normal by reflexivity.
    erewrite bind_normal by reflexivity.
    eexists. split; [reflexivity |].
    split; [by eexists | split; [done |]].
    split; simpl; [by eexists | by rewrite Hw].
Qed.

Lemma goToSlide_usable index animate c :
  usable c → ∃ c', goToSlide index animate c = (c', Normal ()) ∧ ready c'.
Proof.
  intros ([[t Ht] [w Hw]] & Hn & Hstep).
  unfold goToSlide.
  erewrite bind_normal by reflexivity.
  set (c0 := set_currentIndex _ c).
  assert (H0 : anchored c0) by (split; by eexists).
  assert (Hfin : ∀ c2 c', anchored c2 → settled c2 →
            shape c' = shape c2 → core c2 = core c0 → ready c').
  { intros c2 c' [Ha1 Ha2] (p & Hs1 & Hs2) Hsh Hco.
    unfold shape in Hsh. injection Hsh as H1 H2 H3 H4 Hi Htot Ho.
    unfold core in Hco. injection Hco as Hi2 Htot2 Ho2.
    rewrite Hi2 in Hi. rewrite Htot2 in Htot. rewrite Ho2 in Ho.
    simpl in Hi, Htot, Ho.
    split; [split |].
    - apply (bool_decide_eq_true_2 _) in Ha1. rewrite <- H1 in Ha1.
      by apply bool_decide_eq_true_1 in Ha1.
    - by rewrite H2.
    - split; [exists p; by rewrite H3, H4 |]. rewrite Ho.
      split; [done | split; [done |]].
      unfold in_range, getMaxIndex. rewrite Hi, Htot, Ho.
      pose proof (getMaxIndex_nonneg c). unfold getMaxIndex in *. lia. }
  destruct animate; cbn [when].
  - erewrite bind_normal by (by apply on_track_some).
    set (c1 := upd_carousel _ c0).
    assert (H1 : anchored c1) by (split; simpl; [by eexists | by rewrite Hw]).
    destruct (updateCarousel_settles true c1 H1 Hn)
      as (c2 & Hu & Hs2 & Hc2 & Ha2).
    erewrite bind_normal by exact Hu.
    erewrite bind_normal by reflexivity.
    erewrite bind_normal by reflexivity.
    eexists. split; [reflexivity |].
    apply (Hfin c2); [done | done | | done].
    unfold shape. simpl. destruct Ha2 as [[t2 ->] _]. done.
  - destruct (updateCarousel_settles false c0 H0 Hn)
      as (c2 & Hu & Hs2 & Hc2 & Ha2).
    erewrite bind_normal by reflexivity.
    erewrite bind_normal by exact Hu.
    erewrite bind_normal by reflexivity.
    erewrite bind_normal by reflexivity.
    eexists. split; [reflexivity |].
    apply (Hfin c2); [done | done | | done].
    unfold shape. simpl. destruct Ha2 as [[t2 ->] _]. done.
Qed.

Lemma ready_usable c : ready c → usable c.
Proof. intros (Ha & _ & Hn & Hstep & _). done. Qed.

Lemma goToSlide_ready index animate c :
  ready c → ∃ c', goToSlide index animate c = (c', Normal ()) ∧ ready c'.
Proof. intros H. by apply goToSlide_usable, ready_usable. Qed.

Lemma call_ready k c :
  ready c → ∃ c', call k c = (c', Normal ()) ∧ ready c'.
Proof.
  intros Hr. destruct k; simpl.
  - unfold next. erewrite bind_normal by reflexivity.
    case_bool_decide; [by apply goToSlide_ready |].
    destruct (infinite _); [by apply goToSlide_ready | by exists c].
  - unfold prev. erewrite bind_normal by reflexivity.
    case_bool_decide; [by apply goToSlide_ready |].
    destruct (infinite _); [by apply goToSlide_ready | by exists c].
  - by apply goToSlide_ready.
Qed.

Lemma stopAutoplay_ok c :
  ∃ c', stopAutoplay c = (c', Normal ()) ∧ shape c' = shape c.
Proof.
  unfold stopAutoplay. erewrite bind_normal by reflexivity.
  destruct (autoplayInterval c); eexists; (split; [reflexivity | done]).
Qed.

Lemma startAutoplay_ok c :
  ∃ c', startAutoplay c = (c', Normal ()) ∧ shape c' = shape c.
Proof.
  unfold startAutoplay. erewrite bind_normal by reflexivity.
  destruct (negb _); [by eexists |].
  destruct (stopAutoplay_ok c) as (c1 & H1 & Hs1).
  erewrite bind_normal by exact H1.
  eexists. split; [reflexivity |]. by rewrite <- Hs1.
Qed.

Lemma when_autoplay_ok c :
  ∃ c', (c0 ← get; when (autoplay (options c0)) startAutoplay) c
        = (c', Normal ())
        ∧ shape c' = shape c.
Proof.
  erewrite bind_normal by reflexivity.
  destruct (autoplay _); [apply startAutoplay_ok | by eexists].
Qed.

Lemma setupEventListeners_ok c :
  is_Some (track (carousel c)) →
  ∃ c', setupEventListeners c = (c', Normal ()) ∧ shape c' = shape c.
Proof.
  intros [t Ht]. unfold setupEventListeners, setupTouchEvents.
  erewrite bind_normal by reflexivity.
  erewrite bind_normal.
  2:{ erewrite bind_normal by (by apply on_track_some). reflexivity. }
  erewrite bind_normal by reflexivity.
  assert (Hsh : ∀ c', is_Some (track (carousel c')) →
            viewport (carousel c') = viewport (carousel c) →
            prevTranslate c' = prevTranslate c →
            currentTranslate c' = currentTranslate c →
            core c' = core c → shape c' = shape c).
  { intros c' H0 H1 H2 H3 H4. unfold shape. rewrite H1, H2, H3, H4.
    rewrite Ht. rewrite !bool_decide_eq_true_2 by done. done. }
  destruct (autoplay _); eexists; (split; [reflexivity |]);
    by apply Hsh.
Qed.

Lemma updateSlidesToShow_shows c :
  slidesToShow (options (updateSlidesToShow c).1) ≠ 0
  ∧ slidesToScroll (options (updateSlidesToShow c).1) = 1.
Proof.
  unfold updateSlidesToShow. simpl.
  repeat case_bool_decide; destruct (featured (carousel c)); done.
Qed.

(** Construction over a container with its viewport, its track and at
    least one slide returns, and leaves the carousel ready. *)
Lemma new_ready element o width :
  is_Some (track element) → is_Some (viewport element) →
  slides element ≠ [] →
  ∃ c, new element o width = (c, Normal ()) ∧ ready c.
Proof.
  intros Ht Hv Hs. unfold new.
  rewrite (bool_decide_eq_true_2 _ Ht).
  rewrite bool_decide_eq_true_2 by (destruct (slides element); simpl; [done | lia]).
  cbn [andb]. set (this := {| carousel := element |}).
  unfold init.
  erewrite bind_normal by reflexivity.
  destruct (updateSlidesToShow_shows this) as [Hn Hstep].
  set (c1 := (updateSlidesToShow this).1) in *.
  change (modify _ this).1 with c1.
  assert (Hc1 : carousel c1 = element) by done.
  assert (Hi1 : currentIndex c1 = 0) by done.
  destruct (setupEventListeners_ok c1) as (c2 & H2 & Hs2); [by rewrite Hc1 |].
  erewrite bind_normal by exact H2.
  unfold shape in Hs2. injection Hs2 as Ht2 Hv2 _ _ Hi2 Htot2 Ho2.
  assert (Ha2 : anchored c2).
  { split.
    - change (bool_decide (is_Some (track (carousel c2)))
              = bool_decide (is_Some (track element))) in Ht2.
      apply (bool_decide_eq_true_2 _) in Ht.
      rewrite <- Ht2 in Ht. by apply bool_decide_eq_true_1 in Ht.
    - by rewrite Hv2. }
  destruct (updateCarousel_settles true c2 Ha2) as (c3 & H3 & Hs3 & Hc3 & Ha3);
    [by rewrite Ho2 |].
  erewrite bind_normal by exact H3.
  erewrite bind_normal by reflexivity.
  erewrite bind_normal by reflexivity.
  set (c4 := upd_env _ _).
  destruct (when_autoplay_ok c4) as (c5 & H5 & Hs5).
  exists c5. split; [exact H5 |].
  assert (Hsh : shape c5 = shape c3).
  { rewrite Hs5. unfold shape. simpl. destruct Ha3 as [[t3 ->] _]. done. }
  unfold shape in Hsh. injection Hsh as Ht5 Hv5 Hp5 Hcu5 Hi5 Htot5 Ho5.
  unfold core in Hc3. injection Hc3 as Hi3 Htot3 Ho3.
  destruct Ha3 as [Ha31 Ha32]. destruct Hs3 as (p & Hp3 & Hcu3).
  split; [split |].
  - apply (bool_decide_eq_true_2 _) in Ha31. rewrite <- Ht5 in Ha31.
    by apply bool_decide_eq_true_1 in Ha31.
  - by rewrite Hv5.
  - split; [exists p; by rewrite Hp5, Hcu5 |].
    rewrite Ho5, Ho3, Ho2. split; [done | split; [done |]].
    unfold in_range. rewrite Hi5, Hi3, Hi2.
    change (currentIndex c1) with 0.
    split; [done | apply getMaxIndex_nonneg].
Qed.

Lemma dragEnd_usable c :
  isDragging c = true → usable c →
  ∃ c', dragEnd c = (c', Normal ()) ∧ ready c'.
Proof.
  intros Hd ([[t Ht] [w Hw]] & Hn & Hstep). unfold dragEnd.
  erewrite bind_normal by reflexivity. rewrite Hd. cbn [negb].
  erewrite bind_normal by reflexivity.
  erewrite bind_normal by (by apply on_track_some).
  erewrite bind_normal by reflexivity.
  erewrite bind_normal by reflexivity.
  set (c1 := upd_carousel _ _).
  assert (Hu : usable c1).
  { split; [split; simpl; [by eexists | by rewrite Hw] | done]. }
  assert (Hbranch : ∃ c2,
    (if num_lt (movedBy c1) (Some (- threshold)%Qc)
        && bool_decide (currentIndex c1 < getMaxIndex c1)
     then next
     else if num_lt (Some threshold) (movedBy c1)
             && bool_decide (0 < currentIndex c1)
     then prev
     else goToSlide (currentIndex c1) true) c1 = (c2, Normal ())
    ∧ ready c2).
  { destruct (num_lt (movedBy c1) _ && _) eqn:Hfwd.
    - apply andb_true_iff in Hfwd as [_ Hlt].
      unfold next. erewrite bind_normal by reflexivity. rewrite Hlt.
      by apply goToSlide_usable.
    - destruct (num_lt _ (movedBy c1) && _) eqn:Hbwd.
      + apply andb_true_iff in Hbwd as [_ Hlt].
        unfold prev. erewrite bind_normal by reflexivity. rewrite Hlt.
        by apply goToSlide_usable.
      + by apply goToSlide_usable. }
  destruct Hbranch as (c2 & H2 & Hr2).
  erewrite bind_normal by exact H2.
  destruct (when_autoplay_ok c2) as (c3 & H3 & Hs3).
  exists c3. split; [exact H3 | by apply (ready_shape c2)].
Qed.

(** A gesture on a ready carousel returns and leaves it ready: the
    conditions under which C7 and C10 are stated hold again. *)
Lemma dragGesture_ready x0 path c :
  ready c → ∃ c', dragGesture x0 path c = (c', Normal ()) ∧ ready c'.
Proof.
  intros ([Ht [w Hw]] & Hs & Hn & Hstep & Hr).
  destruct (dragGesture_release c x0 path Ht Hs)
    as (c1 & Hg & Hd & Ht1 & Hcore & _ & Hv).
  rewrite Hg. apply dragEnd_usable; [done |].
  unfold core in Hcore. injection Hcore as _ _ Ho.
  split; [split; [done | rewrite Hv, Hw; by eexists] |]. by rewrite Ho.
Qed.

End CarouselReady.

(** * Carousel: index, dragging, construction *)

Module CarouselClaims.
Import Carousel CarouselFacts CarouselReady.

Lemma threshold_pos : (- threshold < threshold)%Qc.
Proof. reflexivity. Qed.

Lemma Qclt_asym (a b : Qc) : (a < b)%Qc → ¬ (b < a)%Qc.
Proof. intros H1 H2. apply (Qclt_not_le _ _ H1). by apply Qclt_le_weak. Qed.

(** C1. In non-infinite mode, after any sequence of next(), prev() and
    goToSlide(i) calls on a constructed carousel, the index lies between 0
    and max(0, totalSlides - slidesToShow); and with 6 slides of which 3
    are shown, goToSlide(10) sets the index to 3. *)
Theorem index_stays_in_range
    (element : Element) (o : UserOptions) (width : Z) (ks : list Call)
    (animate : bool) :
  infinite (merge_options o) = false →
  let c := calls ks (new element o width).1 in
  0 ≤ currentIndex c ≤ Z.max 0 (totalSlides c - slidesToShow (options c))
  ∧ (totalSlides c = 6 → slidesToShow (options c) = 3 →
     currentIndex (goToSlide 10 animate c).1 = 3).
Proof.
  intros _ c. split.
  - apply calls_in_range, new_in_range.
  - intros Ht Hs. rewrite goToSlide_index. unfold getMaxIndex.
    rewrite Ht, Hs. reflexivity.
Qed.

Lemma index_stays_in_range_witness :
  let c := calls [CallNext; CallGoToSlide (-4) true; CallPrev; CallNext]
             (new (more_pioneers 6) main_options 1440).1 in
  0 ≤ currentIndex c ≤ Z.max 0 (totalSlides c - slidesToShow (options c))
  ∧ currentIndex (goToSlide 10 true c).1 = 3.
Proof.
  intros c.
  destruct (index_stays_in_range (more_pioneers 6) main_options 1440
              [CallNext; CallGoToSlide (-4) true; CallPrev; CallNext] true
              eq_refl) as [Hrange Hgo].
  split; [exact Hrange |].
  apply Hgo; vm_compute; reflexivity.
Defined.






(** C10. A drag past the threshold at a boundary (forward at the maximum
    index, backward at index 0) leaves the index where it is, whatever
    the infinite option; next() at the maximum index and prev() at index 0
    do wrap when the option is set. *)
Theorem drag_at_boundary_snaps_back
    (c : Carousel) (x0 : Qc) (path : list Qc) :
  is_Some (track (carousel c)) → settled c → in_range c →
  let d := displacement x0 path in
  let c' := (dragGesture x0 path c).1 in
  ((d < - threshold)%Qc → currentIndex c = getMaxIndex c →
     currentIndex c' = currentIndex c)
  ∧ ((threshold < d)%Qc → currentIndex c = 0 → currentIndex c' = 0)
  ∧ (infinite (options c) = true →
     (currentIndex c = getMaxIndex c → currentIndex (next c).1 = 0)
     ∧ (currentIndex c = 0 → currentIndex (prev c).1 = getMaxIndex c)).
Proof.
  intros Ht Hs Hr d c'.
  destruct (dragGesture_release c x0 path Ht Hs)
    as (c1 & Hg & Hd & [t1 Ht1] & Hcore & Hmv & _).
  pose proof (dragEnd_core c1 t1 Hd Ht1) as He.
  subst c'. rewrite Hg.
  unfold core in He. injection He as Hi _ _. rewrite Hi. clear Hi.
  rewrite Hmv. fold d. rewrite !num_lt_Some.
  unfold clamp. rewrite (getMaxIndex_core c c1 Hcore).
  pose proof Hcore as Hcore'.
  unfold core in Hcore'. injection Hcore' as -> _ _.
  unfold in_range in Hr.
  pose proof threshold_pos as Hpos.
  split; [| split].
  - intros Hlt Hmax.
    rewrite (bool_decide_eq_false_2 (currentIndex c < getMaxIndex c)) by lia.
    rewrite andb_false_r.
    rewrite (bool_decide_eq_false_2 (threshold < d)%Qc).
    2:{ intros H. apply (Qclt_asym _ _ Hpos). by etrans. }
    simpl. lia.
  - intros Hgt H0.
    rewrite (bool_decide_eq_false_2 (d < - threshold)%Qc).
    2:{ intros H. apply (Qclt_asym _ _ Hpos). by etrans. }
    rewrite (bool_decide_eq_false_2 (0 < currentIndex c)) by lia.
    rewrite andb_false_r. simpl. lia.
  - intros Hinf. split.
    + intros Hmax. pose proof (next_core c) as Hn.
      rewrite bool_decide_eq_false_2 in Hn by lia. rewrite Hinf in Hn.
      unfold core in Hn. by injection Hn as -> _ _.
    + intros H0. pose proof (prev_core c) as Hp.
      rewrite bool_decide_eq_false_2 in Hp by lia. rewrite Hinf in Hp.
      unfold core in Hp. by injection Hp as -> _ _.
Qed.

Lemma drag_at_boundary_snaps_back_witness :
  let first := (new (more_pioneers 6) looping 1440).1 in
  let last := (goToSlide 3 true first).1 in
  currentIndex (dragGesture (Qc_of_Z 100) [Qc_of_Z 200] first).1 = 0
  ∧ currentIndex (prev first).1 = 3
  ∧ currentIndex (dragGesture (Qc_of_Z 200) [Qc_of_Z 100] last).1 = 3
  ∧ currentIndex (next last).1 = 0.
Proof.
  intros first last.
  destruct (new_ready (more_pioneers 6) looping 1440)
    as (c & Hnew & Hready); [by eexists | by eexists | done |].
  assert (Hc : first = c) by (subst first; by rewrite Hnew).
  rewrite <- Hc in *. clear Hc Hnew c.
  destruct (goToSlide_ready 3 true first Hready) as (c & Hgo & Hready').
  assert (Hc : last = c) by (subst last; by rewrite Hgo).
  rewrite <- Hc in *. clear Hc Hgo c.
  destruct Hready as ([Ht _] & Hs & _ & _ & Hr).
  destruct Hready' as ([Ht' _] & Hs' & _ & _ & Hr').
  destruct (drag_at_boundary_snaps_back first (Qc_of_Z 100) [Qc_of_Z 200]
              Ht Hs Hr) as (_ & Hback & Hwrap).
  destruct (drag_at_boundary_snaps_back last (Qc_of_Z 200) [Qc_of_Z 100]
              Ht' Hs' Hr') as (Hfwd & _ & Hwrap').
  split; [| split; [| split]].
  - apply Hback; reflexivity.
  - destruct Hwrap as [_ H]; [reflexivity |].
    rewrite H by reflexivity. reflexivity.
  - rewrite Hfwd; [| reflexivity | vm_compute; reflexivity].
    vm_compute. reflexivity.
  - destruct Hwrap' as [H _]; [reflexivity |].
    apply H. vm_compute. reflexivity.
Defined.

(** *** Construction without an anchor *)

Lemma new_without_viewport element o width :
  viewport element = None → is_Some (track element) →
  slides element ≠ [] →
  (new element o width).2 = Thrown TypeError.
Proof.
  intros Hv Ht Hs. unfold new.
  rewrite (bool_decide_eq_true_2 _ Ht).
  rewrite bool_decide_eq_true_2
    by (destruct (slides element); simpl; [done | lia]).
  cbn [andb]. set (this := {| carousel := element |}).
  unfold init.
  erewrite bind_normal by reflexivity.
  set (c1 := (updateSlidesToShow this).1).
  destruct (setupEventListeners_ok c1) as (c2 & H2 & Hs2); [done |].
  erewrite bind_normal by exact H2.
  unfold shape in Hs2. injection Hs2 as Ht2 Hv2 _ _ _ _ _.
  assert (Hu : updateCarousel true c2 = (c2, Thrown TypeError)).
  { unfold updateCarousel. erewrite bind_normal by reflexivity.
    change (viewport (carousel c1)) with (viewport element) in Hv2.
    rewrite Hv2, Hv. by destruct (track (carousel c2)). }
  by erewrite bind_thrown by exact Hu.
Qed.

(** C3, as the code has it: the guard of the constructor tests the track
    and the slides but not the viewport, so over a container without
    viewport the constructor raises a TypeError, after the listeners were
    installed; a later click on the next button raises again. *)
Theorem construction_without_viewport_throws :
  let r := new no_viewport main_options 1440 in
  r.2 = Thrown TypeError
  ∧ listening (env r.1) = true ∧ dragListening (env r.1) = true
  ∧ (dispatch ClickNext r.1).2 = Thrown TypeError.
Proof. vm_compute. done. Qed.

(** Without track or without slides construction returns and the
    instance is inert. *)
Lemma new_inert element o width :
  track element = None ∨ slides element = [] →
  ∃ c, new element o width = (c, Normal ()) ∧ inert c.
Proof.
  intros H. unfold new.
  assert (Hg : bool_decide (is_Some (track element))
               && bool_decide (0 < length (slides element))%nat = false).
  { destruct H as [-> | ->].
    - rewrite bool_decide_eq_false_2; [done | by intros [? ?]].
    - rewrite andb_false_r. done. }
  rewrite Hg. eexists. split; [reflexivity | done].
Qed.

(** No event reaches an inert instance: every dispatch returns, and the
    only thing that changes is the width of the window. *)
Lemma inert_ignores_events c e :
  inert c →
  ∃ c', dispatch e c = (c', Normal ()) ∧ inert c'
        ∧ carousel c' = carousel c ∧ core c' = core c
        ∧ isDragging c' = isDragging c.
Proof.
  intros (H1 & H2 & H3 & H4 & H5 & H6). unfold dispatch.
  erewrite bind_normal by reflexivity.
  destruct e; rewrite ?H1, ?H2, ?H3, ?H4, ?H5, ?H6; cbn [andb when];
    try (exists c; done).
  erewrite bind_normal by reflexivity.
  eexists. split; [reflexivity | done].
Qed.

End CarouselClaims.

(** * Theme switcher *)

Module ThemeFacts.
Import ThemeSwitcher.

Lemma checked_valid theme : checked theme = LIGHT ∨ checked theme = DARK.
Proof.
  unfold checked. case_bool_decide as H; [| by left].
  unfold themes in H.
  apply elem_of_cons in H as [-> | H%list_elem_of_singleton]; auto.
Qed.

Lemma checked_id theme : theme ∈ themes → checked theme = theme.
Proof. intros H. unfold checked. by rewrite bool_decide_eq_true_2. Qed.

(** *** What leaves the applied theme alone *)

Lemma on_button_theme k f : preserves (λ t, dataTheme t = k) (on_button f).
Proof. intros t H. unfold on_button. by destruct (themeButton t). Qed.

Lemma savePreference_theme k theme :
  preserves (λ t, dataTheme t = k) (savePreference theme).
Proof.
  unfold savePreference, console_warn. preserve; [| done].
  intros t H. unfold setItem. by destruct (writable _).
Qed.

Lemma loadPreference_theme k :
  preserves (λ t, dataTheme t = k) loadPreference.
Proof.
  unfold loadPreference, console_warn. preserve; [| done].
  intros t H. unfold getItem. by destruct (readable _).
Qed.

Lemma watchSystemPreference_theme k :
  preserves (λ t, dataTheme t = k) watchSystemPreference.
Proof.
  unfold watchSystemPreference. preserve.
  match goal with a : ThemeSwitcher |- _ => destruct (matchMedia a) end;
    preserve. done.
Qed.

Lemma animateIcon_theme k : preserves (λ t, dataTheme t = k) animateIcon.
Proof.
  unfold animateIcon. preserve.
  match goal with a : ThemeSwitcher |- _ =>
    destruct (themeButton a), (matchMedia a) as [m|] end; preserve.
  destruct (prefersReducedMotion m); preserve;
    [apply on_button_theme | done].
Qed.

Lemma setTheme_theme theme t :
  dataTheme (setTheme theme t).1 = Some (checked theme).
Proof.
  unfold setTheme. fold (checked theme).
  erewrite bind_normal by reflexivity.
  match goal with |- dataTheme (?m ?s).1 = ?k =>
    assert (Hp : preserves (λ t, dataTheme t = k) m) end.
  { preserve; [apply on_button_theme | apply savePreference_theme]. }
  by apply Hp.
Qed.

Lemma setTheme_valid theme t : valid (setTheme theme t).1.
Proof.
  unfold valid. rewrite setTheme_theme.
  destruct (checked_valid theme) as [-> | ->]; auto.
Qed.

Lemma bind_theme {A B} (m : js ThemeSwitcher A) (f : A → js ThemeSwitcher B) t :
  (∀ a k, preserves (λ t, dataTheme t = k) (f a)) →
  dataTheme ((m ≫= f) t).1 = dataTheme (m t).1.
Proof.
  intros H. unfold mbind, js_bind.
  destruct (m t) as [t' [a|e]]; simpl; [| done].
  by apply (H a (dataTheme t')).
Qed.

Lemma toggle_theme t :
  dataTheme (toggle t).1
  = Some (if bool_decide (getCurrentTheme t = LIGHT) then DARK else LIGHT).
Proof.
  unfold toggle. erewrite bind_normal by reflexivity.
  rewrite bind_theme by (intros; apply animateIcon_theme).
  rewrite setTheme_theme. f_equal. apply checked_id.
  case_bool_decide; unfold themes;
    [apply elem_of_cons; right; by apply list_elem_of_singleton
    | apply elem_of_cons; by left].
Qed.

Lemma toggle_valid t : valid (toggle t).1.
Proof.
  unfold valid. rewrite toggle_theme. case_bool_decide; auto.
Qed.

(** [loadPreference] never raises: it answers the stored value, or
    [null] with a warning when storage cannot be read. *)
Lemma loadPreference_spec t :
  loadPreference t =
    if readable (localStorage t) then (t, Normal (persisted t))
    else (set_console (console t ++ ["Failed to load theme preference:"]) t,
          Normal None).
Proof.
  unfold loadPreference, try_catch, getItem.
  by destruct (readable (localStorage t)).
Qed.

Lemma loadPreference_returns t :
  ∃ t1 saved, loadPreference t = (t1, Normal saved)
              ∧ dataTheme t1 = dataTheme t.
Proof.
  rewrite loadPreference_spec. destruct (readable _); by eexists _, _.
Qed.

Lemma init_theme t :
  ∃ theme, dataTheme (init t).1 = Some (checked theme).
Proof.
  destruct (loadPreference_returns t) as (t1 & saved & Hl & _).
  unfold init. erewrite bind_normal by exact Hl.
  erewrite bind_normal by reflexivity.
  eexists. rewrite bind_theme; [apply setTheme_theme |].
  intros _ k. preserve; [apply on_button_theme | done |
                         apply watchSystemPreference_theme].
Qed.

Lemma init_valid t : valid (init t).1.
Proof.
  destruct (init_theme t) as [theme H]. unfold valid. rewrite H.
  destruct (checked_valid theme) as [-> | ->]; auto.
Qed.

Lemma onSystemChange_valid matches : preserves valid (onSystemChange matches).
Proof.
  intros t Hv.
  destruct (loadPreference_returns t) as (t1 & saved & Hl & Ht).
  unfold onSystemChange. erewrite bind_normal by exact Hl.
  destruct (negb _); [apply setTheme_valid |].
  unfold valid in *. simpl. by rewrite Ht.
Qed.

Lemma times_toggle_valid n : preserves valid (times n toggle).
Proof. apply preserves_times. intros t _. apply toggle_valid. Qed.

Lemma dispatch_valid e : preserves valid (dispatch e).
Proof.
  unfold dispatch. preserve. destruct e.
  - apply times_toggle_valid.
  - preserve; [done | apply onSystemChange_valid].
  - destruct (iconTimers _); preserve; [done |].
    intros t H. unfold valid in *.
    by rewrite (on_button_theme (dataTheme t) _ t eq_refl).
Qed.

Lemma run_valid es t : valid t → valid (run es t).
Proof. apply preserves_foldl, dispatch_valid. Qed.

(** *** The persisted value *)

Lemma on_button_fixture k f : preserves (λ t, fixture t = k) (on_button f).
Proof.
  intros t H. unfold on_button.
  destruct (themeButton t) eqn:Hb; [| done].
  unfold fixture in *. simpl. rewrite Hb in H.
  by rewrite bool_decide_eq_true_2 in * by (by eexists).
Qed.

Lemma animateIcon_fixture k : preserves (λ t, fixture t = k) animateIcon.
Proof.
  unfold animateIcon. preserve.
  match goal with a : ThemeSwitcher |- _ =>
    destruct (themeButton a), (matchMedia a) as [m|] end; preserve.
  destruct (prefersReducedMotion m); preserve;
    [apply on_button_fixture | done].
Qed.

Lemma watchSystemPreference_fixture k :
  preserves (λ t, fixture t = k) watchSystemPreference.
Proof.
  unfold watchSystemPreference. preserve.
  match goal with a : ThemeSwitcher |- _ => destruct (matchMedia a) end;
    preserve. done.
Qed.

(** [setTheme] with a button: the theme is applied, then stored if the
    storage takes it. *)
Lemma setTheme_button theme t :
  is_Some (themeButton t) →
  ∃ t', setTheme theme t = (t', Normal ())
        ∧ dataTheme t' = Some (checked theme)
        ∧ fixture t' = (stored (checked theme) (localStorage t), true)
        ∧ matchMedia t' = matchMedia t
        ∧ clickListeners t' = clickListeners t
        ∧ changeListeners t' = changeListeners t.
Proof.
  intros [b Hb]. unfold setTheme. fold (checked theme).
  erewrite bind_normal by reflexivity.
  erewrite bind_normal by (unfold on_button; simpl; by rewrite Hb).
  unfold savePreference, try_catch, setItem, stored. simpl.
  destruct (writable (localStorage t)) eqn:Hw; simpl;
    eexists; (split; [reflexivity |]); unfold fixture; simpl; done.
Qed.

(** Without a button it raises once the theme is applied, before
    anything is stored. *)
Lemma setTheme_no_button theme t :
  themeButton t = None →
  setTheme theme t = (set_dataTheme (Some (checked theme)) t, Thrown TypeError).
Proof.
  intros Hb. unfold setTheme. fold (checked theme).
  erewrite bind_normal by reflexivity.
  erewrite bind_thrown; [reflexivity |].
  unfold on_button. simpl. by rewrite Hb.
Qed.

Lemma persisted_stored theme st :
  items (stored theme st) !! storageKey
  = if writable st then Some theme else items st !! storageKey.
Proof.
  unfold stored. destruct (writable st); [| done].
  simpl. apply lookup_insert_eq.
Qed.

Lemma stored_flags theme st :
  readable (stored theme st) = readable st
  ∧ writable (stored theme st) = writable st.
Proof. unfold stored. by destruct (writable st) eqn:H. Qed.

Lemma flip_themes t : flip t ∈ themes.
Proof.
  unfold flip, themes. case_bool_decide;
    [apply elem_of_cons; right; by apply list_elem_of_singleton
    | apply elem_of_cons; by left].
Qed.

Lemma bind_fixture {A B} (m : js ThemeSwitcher A)
    (f : A → js ThemeSwitcher B) t :
  (∀ a k, preserves (λ t, fixture t = k) (f a)) →
  fixture ((m ≫= f) t).1 = fixture (m t).1.
Proof.
  intros H. unfold mbind, js_bind.
  destruct (m t) as [t' [a|e]]; simpl; [| done].
  by apply (H a (fixture t')).
Qed.

(** One toggle: the other theme is applied; it is stored when the button
    exists and the storage takes it, and otherwise the storage is as
    before. *)
Lemma toggle_effect t :
  dataTheme (toggle t).1 = Some (flip t)
  ∧ fixture (toggle t).1 =
      if bool_decide (is_Some (themeButton t)) then
        (stored (flip t) (localStorage t), true)
      else fixture t.
Proof.
  split; [apply toggle_theme |].
  unfold toggle. erewrite bind_normal by reflexivity. fold (flip t).
  rewrite bind_fixture by (intros; apply animateIcon_fixture).
  destruct (themeButton t) as [b|] eqn:Hb.
  - rewrite bool_decide_eq_true_2 by by eexists.
    destruct (setTheme_button (flip t) t) as (t' & -> & _ & Hf & _);
      [by eexists |].
    simpl. rewrite Hf. by rewrite checked_id by apply flip_themes.
  - rewrite bool_decide_eq_false_2 by (by intros [? ?]).
    rewrite setTheme_no_button by done. unfold fixture. simpl.
    by rewrite Hb.
Qed.

Lemma flip_flip t t' :
  valid t → dataTheme t' = Some (flip t) → Some (flip t') = dataTheme t.
Proof.
  intros [H | H] H'; unfold flip, getCurrentTheme in *; rewrite H in *;
    simpl in *; rewrite H'; done.
Qed.

Lemma view_preserved {A} (m : js ThemeSwitcher A) :
  (∀ k, preserves (λ t, dataTheme t = k) m) →
  (∀ k, preserves (λ t, fixture t = k) m) →
  ∀ k, preserves (λ t, view t = k) m.
Proof.
  intros H1 H2 k t Hv. unfold view in *. rewrite <- Hv.
  f_equal; [apply (H1 _ t eq_refl) | apply (H2 _ t eq_refl)].
Qed.

End ThemeFacts.

Module ThemeClaims.
Import ThemeSwitcher ThemeFacts.

(** C9. After setTheme, init, toggle and every dispatched event the
    applied theme is light or dark; setTheme with any other value applies
    light, and stores light when the button exists and the storage takes
    writes. *)
Theorem theme_is_light_or_dark (t : ThemeSwitcher) (theme : string) (e : Event) :
  let applied (t : ThemeSwitcher) :=
    dataTheme t = Some "light" ∨ dataTheme t = Some "dark" in
  applied (setTheme theme t).1
  ∧ applied (init t).1
  ∧ applied (toggle t).1
  ∧ (applied t → applied (dispatch e t).1)
  ∧ (theme ≠ "light" → theme ≠ "dark" →
     dataTheme (setTheme theme t).1 = Some "light"
     ∧ (is_Some (themeButton t) → writable (localStorage t) = true →
        persisted (setTheme theme t).1 = Some "light")).
Proof.
  intros applied. split; [apply setTheme_valid |].
  split; [apply init_valid |]. split; [apply toggle_valid |].
  split; [apply dispatch_valid |].
  intros Hl Hd.
  assert (Hc : checked theme = LIGHT).
  { unfold checked. rewrite bool_decide_eq_false_2; [done |].
    unfold themes. intros [-> | H%list_elem_of_singleton]%elem_of_cons; done. }
  split; [by rewrite setTheme_theme, Hc |].
  intros Hb Hw.
  destruct (setTheme_button theme t Hb) as (t' & -> & _ & Hf & _).
  unfold fixture in Hf. injection Hf as Hf _.
  unfold persisted. simpl. rewrite Hf, persisted_stored, Hw. by rewrite Hc.
Qed.

Lemma theme_is_light_or_dark_witness :
  let t := {| themeButton := Some plain_button; dataTheme := None;
              localStorage := corrupted_storage;
              matchMedia := Some light_system; clickListeners := 0;
              changeListeners := 0; iconTimers := 0; console := [] |} in
  dataTheme (setTheme "blue" t).1 = Some "light"
  ∧ persisted (setTheme "blue" t).1 = Some "light"
  ∧ dataTheme (init t).1 = Some "light"
  ∧ persisted (init t).1 = Some "light".
Proof.
  intros t.
  destruct (theme_is_light_or_dark t "blue" Click) as (_ & _ & _ & _ & H).
  destruct H as [Happlied Hstored]; [done | done |].
  split; [exact Happlied |].
  split; [apply Hstored; [by eexists | reflexivity] |].
  split; vm_compute; reflexivity.
Defined.

(** *** The OS preference *)

Lemma loadPreference_cases t :
  ∃ t1 saved, loadPreference t = (t1, Normal saved)
    ∧ themeButton t1 = themeButton t ∧ localStorage t1 = localStorage t
    ∧ dataTheme t1 = dataTheme t
    ∧ (saved = persisted t ∨ saved = None)
    ∧ (readable (localStorage t) = true → saved = persisted t ∧ t1 = t).
Proof.
  rewrite loadPreference_spec.
  destruct (readable _); eexists _, _; (split; [reflexivity |]);
    repeat split; auto; done.
Qed.

(** The listener does what its comment says when nothing is stored. *)
Lemma onSystemChange_applies matches t :
  persisted t = None →
  dataTheme (onSystemChange matches t).1
  = Some (if matches then DARK else LIGHT).
Proof.
  intros Hp.
  destruct (loadPreference_cases t) as (t1 & saved & Hl & _ & _ & _ & Hs & _).
  unfold onSystemChange. erewrite bind_normal by exact Hl.
  assert (saved = None) as -> by (destruct Hs; congruence).
  simpl. rewrite setTheme_theme. by destruct matches.
Qed.

(** With a readable stored theme it does nothing. *)
Lemma onSystemChange_ignored matches t :
  readable (localStorage t) = true → truthy (persisted t) = true →
  onSystemChange matches t = (t, Normal ()).
Proof.
  intros Hr Hp.
  destruct (loadPreference_cases t) as (t1 & saved & Hl & _ & _ & _ & _ & Hs).
  destruct (Hs Hr) as [-> ->].
  unfold onSystemChange. erewrite bind_normal by exact Hl. by rewrite Hp.
Qed.

(** [init] stores the theme it applies whenever the storage takes it,
    whether or not the user ever chose one. *)
Lemma init_stores t :
  is_Some (themeButton t) →
  ∃ theme, dataTheme (init t).1 = Some theme
           ∧ fixture (init t).1 = (stored theme (localStorage t), true)
           ∧ (theme = LIGHT ∨ theme = DARK).
Proof.
  intros Hb.
  destruct (loadPreference_cases t) as (t1 & saved & Hl1 & Hb1 & Hs1 & _).
  unfold init. erewrite bind_normal by exact Hl1.
  erewrite bind_normal by reflexivity.
  set (theme := or_else saved (getSystemPreference t1)).
  destruct (setTheme_button theme t1) as (t2 & H2 & Hd2 & Hf2 & _);
    [by rewrite Hb1 |].
  erewrite bind_normal by exact H2.
  match goal with |- context [ (?m ?s).1 ] =>
    assert (Hp : ∀ k, preserves (λ t, view t = k) m) end.
  { intros k. preserve.
    - apply view_preserved; intros; [apply on_button_theme | apply on_button_fixture].
    - done.
    - apply view_preserved; intros;
        [apply watchSystemPreference_theme | apply watchSystemPreference_fixture]. }
  specialize (Hp _ t2 eq_refl). unfold view in Hp.
  apply pair_equal_spec in Hp as [Hd3 Hf3].
  exists (checked theme). rewrite Hd3, Hd2, Hf3, Hf2, Hs1.
  split; [done | split; [done | apply checked_valid]].
Qed.

Lemma kept_intro t theme st :
  dataTheme t = Some theme → fixture t = (stored theme st, true) →
  theme = LIGHT ∨ theme = DARK →
  readable st = true → writable st = true → kept t.
Proof.
  intros Hd Hf Hv Hr Hw. unfold fixture in Hf. injection Hf as Hs Hb.
  destruct (stored_flags theme st) as [Hr' Hw'].
  split; [by apply bool_decide_eq_true_1 in Hb |].
  rewrite Hs, Hr', Hw'. split; [done | split; [done |]].
  split.
  - unfold valid. rewrite Hd. destruct Hv as [-> | ->]; auto.
  - unfold persisted. by rewrite Hs, persisted_stored, Hw, Hd.
Qed.

Lemma new_kept button markup st mm :
  readable st = true → writable st = true →
  kept (new (Some button) markup st mm).1.
Proof.
  intros Hr Hw. unfold new.
  rewrite bool_decide_eq_true_2 by by eexists.
  set (this := {| themeButton := Some button |}).
  destruct (init_stores this) as (theme & Hd & Hf & Hv); [by eexists |].
  by apply (kept_intro _ theme st).
Qed.

Lemma toggle_kept : preserves kept toggle.
Proof.
  intros t (Hb & Hr & Hw & Hv & Hp).
  destruct (toggle_effect t) as [Hd Hf].
  rewrite (bool_decide_eq_true_2 _ Hb) in Hf.
  apply (kept_intro _ (flip t) (localStorage t)); try done.
  unfold flip. case_bool_decide; auto.
Qed.

Lemma kept_truthy t : kept t → truthy (persisted t) = true.
Proof.
  intros (_ & _ & _ & Hv & Hp). rewrite Hp.
  by destruct Hv as [-> | ->].
Qed.

Lemma onSystemChange_kept matches t :
  kept t → onSystemChange matches t = (t, Normal ()).
Proof.
  intros Hk. apply onSystemChange_ignored; [apply Hk | by apply kept_truthy].
Qed.

Lemma times_onSystemChange_kept n matches t :
  kept t → times n (onSystemChange matches) t = (t, Normal ()).
Proof.
  intros Hk. induction n as [|n IH]; [done |].
  cbn [times]. rewrite onSystemChange_kept by done. cbn [fst snd].
  by rewrite IH.
Qed.

Lemma kept_media f t : kept t → kept (set_matchMedia f t).
Proof. done. Qed.

Lemma dispatch_kept e : preserves kept (dispatch e).
Proof.
  intros t Hk. unfold dispatch. erewrite bind_normal by reflexivity.
  destruct e.
  - by apply preserves_times; [apply toggle_kept |].
  - erewrite bind_normal by reflexivity.
    rewrite times_onSystemChange_kept; by apply kept_media.
  - destruct (iconTimers t); [done |].
    erewrite bind_normal by reflexivity.
    destruct Hk as ([b Hb] & Hk). unfold on_button. simpl. rewrite Hb.
    split; [by eexists | done].
Qed.

(** However the session went, a change of the OS preference does not
    change the applied theme of a switcher whose storage works. *)
Lemma system_change_never_applies button markup st mm es matches :
  readable st = true → writable st = true →
  let t := run es (new (Some button) markup st mm).1 in
  dataTheme (dispatch (SystemChange matches) t).1 = dataTheme t.
Proof.
  intros Hr Hw t.
  assert (Hk : kept t).
  { unfold t, run.
    apply preserves_foldl; [apply dispatch_kept | by apply new_kept]. }
  unfold dispatch. erewrite bind_normal by reflexivity.
  erewrite bind_normal by reflexivity.
  rewrite times_onSystemChange_kept; [done | by apply kept_media].
Qed.

(** C2, as the code has it: on a first visit, with nothing stored and the
    storage available, init stores the OS theme; from then on the listener
    finds a stored theme and a change of the OS preference to dark leaves
    the applied theme light, although the user never chose one. *)
Theorem system_change_ignored_after_first_visit :
  items empty_storage !! storageKey = None
  ∧ persisted first_visit = Some "light"
  ∧ dataTheme first_visit = Some "light"
  ∧ dataTheme (run [SystemChange true] first_visit) = Some "light".
Proof. vm_compute. done. Qed.

(** *** Toggling twice *)

(** C5 fails where nothing was stored before the first toggle and the
    storage takes writes: the two toggles leave the theme stored. *)
Lemma toggle_twice_leaves_a_stored_theme :
  let t' := (toggle (toggle cleared).1).1 in
  persisted cleared = None
  ∧ ¬ (dataTheme t' = dataTheme cleared ∧ persisted t' = persisted cleared).
Proof.
  split; [reflexivity |].
  intros [_ H]. vm_compute in H. discriminate.
Qed.

(** Two toggles, from a state whose applied theme is light or dark. *)
Lemma toggle_twice_effect t :
  valid t →
  let t' := (toggle (toggle t).1).1 in
  dataTheme t' = dataTheme t
  ∧ persisted t' =
      if bool_decide (is_Some (themeButton t)) && writable (localStorage t)
      then dataTheme t else persisted t.
Proof.
  intros Hv t'. subst t'.
  destruct (toggle_effect t) as [Hd1 Hf1].
  destruct (toggle_effect (toggle t).1) as [Hd2 Hf2].
  set (t1 := (toggle t).1) in *. set (t2 := (toggle t1).1) in *.
  assert (Hback : dataTheme t2 = dataTheme t).
  { rewrite Hd2. by apply flip_flip. }
  split; [exact Hback |].
  destruct (bool_decide (is_Some (themeButton t))) eqn:Hb.
  - unfold fixture in Hf1. injection Hf1 as Hs1 Hb1.
    rewrite Hb1 in Hf2. unfold fixture in Hf2. injection Hf2 as Hs2 _.
    unfold persisted. rewrite Hs2, persisted_stored, Hs1.
    destruct (stored_flags (flip t) (localStorage t)) as [_ ->].
    rewrite persisted_stored. cbn [andb].
    destruct (writable (localStorage t)); [| done].
    by rewrite <- Hback, Hd2.
  - unfold fixture in Hf1. injection Hf1 as Hs1 Hb1.
    rewrite Hb1, Hb in Hf2. unfold fixture in Hf2.
    injection Hf2 as Hs2 _. unfold persisted.
    by rewrite Hs2, Hs1.
Qed.

(** C5, amended. From a state whose applied theme is light or dark, two
    toggles bring the applied theme back. The stored value is the
    original one when that equalled the applied theme or when the storage
    refuses writes; when the button exists and the storage takes writes,
    the stored value afterwards is the applied theme. *)
Theorem toggle_twice_restores (t : ThemeSwitcher) :
  dataTheme t = Some "light" ∨ dataTheme t = Some "dark" →
  let t' := (toggle (toggle t).1).1 in
  dataTheme t' = dataTheme t
  ∧ (persisted t = dataTheme t → persisted t' = persisted t)
  ∧ (writable (localStorage t) = false → persisted t' = persisted t)
  ∧ (is_Some (themeButton t) → writable (localStorage t) = true →
     persisted t' = dataTheme t).
Proof.
  intros Hv t'. destruct (toggle_twice_effect t Hv) as [Hback Hst].
  fold t' in Hback, Hst.
  split; [exact Hback |]. rewrite Hst.
  split; [| split].
  - intros Hp. by destruct (_ && _).
  - intros ->. by rewrite andb_false_r.
  - intros Hb ->. by rewrite bool_decide_eq_true_2.
Qed.

Lemma toggle_twice_restores_witness :
  let t' := (toggle (toggle first_visit).1).1 in
  dataTheme t' = dataTheme first_visit
  ∧ persisted t' = persisted first_visit
  ∧ persisted (toggle (toggle cleared).1).1 = dataTheme cleared.
Proof.
  intros t'.
  destruct (toggle_twice_restores first_visit) as (Hd & Hp & _ & _);
    [by left |].
  destruct (toggle_twice_restores cleared) as (_ & _ & _ & Hc);
    [by left |].
  split; [exact Hd |].
  split; [apply Hp; reflexivity |].
  apply Hc; [by eexists | reflexivity].
Defined.

(** Every state an initialised switcher with a working storage reaches
    is restored, stored value included, by two toggles. *)
Lemma toggle_twice_restores_reachable button markup st mm es :
  readable st = true → writable st = true →
  let t := run es (new (Some button) markup st mm).1 in
  let t' := (toggle (toggle t).1).1 in
  dataTheme t' = dataTheme t ∧ persisted t' = persisted t.
Proof.
  intros Hr Hw t t'.
  assert (Hk : kept t).
  { unfold t, run.
    apply preserves_foldl; [apply dispatch_kept | by apply new_kept]. }
  destruct Hk as (_ & _ & _ & Hv & Hp).
  destruct (toggle_twice_effect t Hv) as [Hd Hs].
  split; [exact Hd |]. fold t' in Hs. rewrite Hs. by destruct (_ && _).
Qed.

End ThemeClaims.

(** * Modal *)

Module ModalClaims.
Import Modal.

(** An id that names neither a record nor a property of
    [Object.prototype] is [undefined] in the table. *)
Lemma get_property_undefined pioneerId :
  pioneersData !! pioneerId = None →
  pioneerId ∉ object_prototype_keys →
  get_property pioneersData pioneerId = None.
Proof.
  intros Hown Hproto. unfold get_property. rewrite Hown.
  apply not_elem_of_list_to_map_1.
  intros H. apply Hproto. revert H. vm_compute fst. done.
Qed.

(** For such an id [open] logs the warning and does nothing else: the
    modal stays as it was, open or closed, with what it displayed. *)
Lemma open_undefined pioneerId m :
  get_property pioneersData pioneerId = None →
  open pioneerId m =
    (set_console
       (console m ++ ["Pioneer data not found for ID: " +:+ pioneerId]) m,
     Normal ()).
Proof.
  intros H. unfold open. erewrite bind_normal by reflexivity.
  by rewrite H.
Qed.

Lemma open_undefined_keeps pioneerId m :
  get_property pioneersData pioneerId = None →
  let m' := (open pioneerId m).1 in
  isOpen m' = isOpen m ∧ displayed m' = displayed m
  ∧ modalBackdrop m' = modalBackdrop m
  ∧ bodyModalOpen m' = bodyModalOpen m.
Proof. intros H. rewrite open_undefined by done. done. Qed.

(** C4, as the code has it: [constructor] is no key of the pioneer table,
    but the lookup finds [Object.prototype.constructor], which is truthy.
    No warning is logged; the avatar, the title and the subtitle are
    overwritten, and building the achievements list raises a TypeError
    before the dialog is shown. *)
Theorem open_inherited_key_rewrites_display :
  let m := after_vint_cerf in
  let r := open "constructor" m in
  pioneersData !! "constructor" = None
  ∧ d_title (displayed m) = Some "Vint Cerf"
  ∧ r.2 = Thrown TypeError
  ∧ console r.1 = console m
  ∧ d_title (displayed r.1) = Some "Object"
  ∧ d_subtitle (displayed r.1) = Some "undefined (undefined)"
  ∧ d_avatar (displayed r.1) = Some {| src := "undefined"; alt := "Object" |}
  ∧ isOpen r.1 = false.
Proof. vm_compute. done. Qed.

End ModalClaims.

(** * Documents *)

Module DomFacts.
Import Dom.

(** A [forEach] with an idempotent body rewrites exactly the listed
    elements, once. *)
Lemma forEach_lookup nodes f (d : Document) i :
  (∀ e, f (f e) = f e) →
  forEach nodes f d !! i
  = if bool_decide (i ∈ nodes) then f <$> d !! i else d !! i.
Proof.
  intros Hf. unfold forEach. revert d.
  induction nodes as [|k nodes IH]; intros d; cbn [foldl].
  - by rewrite bool_decide_eq_false_2 by apply not_elem_of_nil.
  - rewrite IH. destruct (decide (i = k)) as [-> | Hne].
    + rewrite list_lookup_alter_eq.
      rewrite (bool_decide_eq_true_2 (k ∈ k :: nodes))
        by (apply elem_of_cons; auto).
      case_bool_decide; [| done].
      destruct (d !! k); simpl; [by rewrite Hf | done].
    + rewrite list_lookup_alter_ne by done.
      case_bool_decide as Hin.
      * rewrite bool_decide_eq_true_2; [done | apply elem_of_cons; auto].
      * rewrite bool_decide_eq_false_2; [done |].
        intros [? | ?]%elem_of_cons; done.
Qed.

Lemma forEach_length nodes f (d : Document) :
  length (forEach nodes f d) = length d.
Proof.
  unfold forEach. revert d. induction nodes as [|k nodes IH]; intros d.
  - done.
  - simpl. rewrite IH. apply length_alter.
Qed.

Lemma contains_add c c' e :
  contains c (add c' e) = bool_decide (c = c') || contains c e.
Proof.
  unfold contains, add. simpl.
  rewrite <- bool_decide_or. apply bool_decide_ext. set_solver.
Qed.

End DomFacts.

(** * Scroll spy *)

Module NavigationClaims.
Import Dom DomFacts Navigation.

(** The loop over [sections] keeps the last section that matches. *)
Lemma foldl_last_match {A B} (P : A → bool) (g : A → B) (l : list A) acc :
  foldl (λ current s, if P s then Some (g s) else current) acc l
  = match last (filter (λ s, P s = true) l) with
    | Some s => Some (g s)
    | None => acc
    end.
Proof.
  revert acc. induction l as [|x l IH]; intros acc; [done |].
  cbn [foldl]. rewrite IH. destruct (P x) eqn:Hx.
  - rewrite filter_cons_True by done. rewrite last_cons.
    by destruct (last (filter _ l)).
  - rewrite filter_cons_False; [done |]. by rewrite Hx.
Qed.

Lemma currentSection_last n scrollPosition :
  currentSection n scrollPosition
  = id <$> last (filter (λ s, spans (document n) scrollPosition s = true)
                        (sections n)).
Proof.
  unfold currentSection. rewrite foldl_last_match.
  by destruct (last _).
Qed.

Lemma mark_href target link :
  getAttribute "href" (mark target link) = getAttribute "href" link.
Proof. unfold mark. by case_bool_decide. Qed.

Lemma mark_active target link :
  is_active (mark target link)
  = bool_decide (getAttribute "href" link = Some target).
Proof.
  unfold mark, is_active. case_bool_decide.
  - destruct (contains "header__nav-link" link); rewrite !contains_add;
      by rewrite ?orb_true_r.
  - unfold contains, remove. simpl.
    rewrite !bool_decide_eq_false_2; [done | set_solver | set_solver].
Qed.

Lemma mark_idempotent target link :
  mark target (mark target link) = mark target link.
Proof.
  unfold mark at 1 3. rewrite mark_href. case_bool_decide as Hh.
  - unfold mark. rewrite bool_decide_eq_true_2 by done.
    destruct (contains "header__nav-link" link) eqn:Hc;
      rewrite contains_add, Hc; simpl;
      unfold add, set_classList; simpl; f_equal; set_solver.
  - unfold mark. rewrite bool_decide_eq_false_2 by done.
    unfold remove, set_classList. simpl. f_equal. set_solver.
Qed.

(** What one recomputation leaves in the document. *)
Lemma updateActiveLink_document n :
  document (updateActiveLink n).1
  = forEach (allNavLinks n)
      (mark (hash_of (currentSection n (pageYOffset n + Qc_of_Z 100)%Qc)))
      (document n).
Proof. done. Qed.

(** C6 fails where two registered sections overlap: at scroll offset 250
    the position 350 lies in both [a] and [b]; [a] comes first in the
    document, and the link of [b] is the one marked active. *)
Lemma overlap_marks_the_later_section :
  let n := (new overlapping (Qc_of_Z 250)).1 in
  firstInDocumentOrder n (pageYOffset n + Qc_of_Z 100)%Qc = Some "a"
  ∧ (getAttribute "href" <$> document n !! 2%nat) = Some (Some "#a")
  ∧ ¬ (is_active <$> document n !! 2%nat) = Some true
  ∧ (getAttribute "href" <$> document n !! 3%nat) = Some (Some "#b")
  ∧ (is_active <$> document n !! 3%nat) = Some true.
Proof. vm_compute. repeat split; done. Qed.

(** C6, amended. A recomputation takes the last registered section, in
    the order of the navigation links, whose span contains scrollY + 100;
    a navigation link is active afterwards exactly when its href is the
    hash of that section (of the word null when no section matches); so
    any two active links carry the same href. *)
Theorem scroll_spy_marks_last_match (n : Navigation) :
  let scrollPosition := (pageYOffset n + Qc_of_Z 100)%Qc in
  let current :=
    id <$> last (filter (λ s, spans (document n) scrollPosition s = true)
                        (sections n)) in
  let n' := (updateActiveLink n).1 in
  (∀ i link, i ∈ allNavLinks n → document n !! i = Some link →
     ∃ link', document n' !! i = Some link'
       ∧ getAttribute "href" link' = getAttribute "href" link
       ∧ (is_active link' = true
          ↔ getAttribute "href" link = Some (hash_of current)))
  ∧ (∀ i j li lj, i ∈ allNavLinks n → j ∈ allNavLinks n →
       document n' !! i = Some li → document n' !! j = Some lj →
       is_active li = true → is_active lj = true →
       getAttribute "href" li = getAttribute "href" lj).
Proof.
  intros pos current n'.
  assert (Hlink : ∀ i link, i ∈ allNavLinks n → document n !! i = Some link →
            document n' !! i = Some (mark (hash_of current) link)).
  { intros i link Hi Hl. subst n'. rewrite updateActiveLink_document.
    rewrite forEach_lookup by apply mark_idempotent.
    rewrite bool_decide_eq_true_2 by done. rewrite Hl. simpl.
    by rewrite currentSection_last. }
  assert (Hfirst : ∀ i link, i ∈ allNavLinks n → document n !! i = Some link →
     ∃ link', document n' !! i = Some link'
       ∧ getAttribute "href" link' = getAttribute "href" link
       ∧ (is_active link' = true
          ↔ getAttribute "href" link = Some (hash_of current))).
  { intros i link Hi Hl. eexists. split; [by apply Hlink |].
    split; [apply mark_href |].
    rewrite mark_active. apply bool_decide_eq_true. }
  split; [exact Hfirst |].
  intros i j li lj Hi Hj Hli Hlj Hai Haj.
  assert (Hsome : ∀ k lk, k ∈ allNavLinks n → document n' !! k = Some lk →
            ∃ link, document n !! k = Some link).
  { intros k lk Hk Hlk. subst n'. rewrite updateActiveLink_document in Hlk.
    apply lookup_lt_Some in Hlk. rewrite forEach_length in Hlk.
    by apply lookup_lt_is_Some_2. }
  destruct (Hsome i li Hi Hli) as [link_i Hoi].
  destruct (Hsome j lj Hj Hlj) as [link_j Hoj].
  destruct (Hfirst i link_i Hi Hoi) as (li' & Hli' & Hhi & Hiff_i).
  destruct (Hfirst j link_j Hj Hoj) as (lj' & Hlj' & Hhj & Hiff_j).
  rewrite Hli in Hli'. injection Hli' as <-.
  rewrite Hlj in Hlj'. injection Hlj' as <-.
  rewrite Hhi, Hhj.
  apply Hiff_i in Hai. apply Hiff_j in Haj. congruence.
Qed.

Lemma scroll_spy_marks_last_match_witness :
  let n := (new overlapping (Qc_of_Z 250)).1 in
  let n' := (updateActiveLink n).1 in
  ∃ link', document n' !! 3%nat = Some link' ∧ is_active link' = true.
Proof.
  intros n n'.
  destruct (scroll_spy_marks_last_match n) as [Hmark _].
  destruct (Hmark 3%nat (mark "#b" (node "a" None ["header__nav-link"] (Some "#b") 0 0)))
    as (link' & Hl & _ & Hiff).
  - vm_compute. apply elem_of_cons. right. apply elem_of_cons. by left.
  - vm_compute. reflexivity.
  - exists link'. split; [exact Hl |]. apply Hiff. vm_compute. reflexivity.
Defined.

End NavigationClaims.

(** * Scroll animations under reduced motion *)

Module AnimationClaims.
Import Dom DomFacts AnimationController.

Lemma element_eq e e' :
  tag e = tag e' → ident e = ident e' → classList e = classList e' →
  attributes e = attributes e' → parent e = parent e' →
  offsetTop e = offsetTop e' → offsetHeight e = offsetHeight e' → e = e'.
Proof. destruct e, e'. simpl. by intros -> -> -> -> -> -> ->. Qed.

Lemma reveal_idempotent e : reveal (reveal e) = reveal e.
Proof.
  unfold reveal, add, remove, set_classList. simpl.
  apply element_eq; simpl; try done. set_solver.
Qed.

Lemma ensure_idempotent e : ensure (ensure e) = ensure e.
Proof.
  unfold ensure. destruct (contains visible e) eqn:Hc; simpl.
  - by rewrite Hc.
  - rewrite contains_add. by rewrite bool_decide_eq_true_2.
Qed.

(** A [forEach] over the matches of a selector is a map. *)
Lemma forEach_query (d : Document) sel f :
  (∀ e, f (f e) = f e) →
  forEach (querySelectorAll d sel) f d
  = (λ e, if matches sel e then f e else e) <$> d.
Proof.
  intros Hf. apply list_eq. intros i.
  rewrite forEach_lookup by done. rewrite list_lookup_fmap.
  unfold querySelectorAll. destruct (d !! i) as [e|] eqn:He; simpl.
  - case_bool_decide as Hin.
    + apply list_elem_of_filter in Hin as [Hm _].
      unfold matches_at in Hm. rewrite He in Hm. by rewrite Hm.
    + destruct (matches sel e) eqn:Hm; [| done].
      exfalso. apply Hin. apply list_elem_of_filter. split.
      * unfold matches_at. by rewrite He.
      * apply elem_of_seq. apply lookup_lt_Some in He. lia.
  - by case_bool_decide.
Qed.

Lemma showAllElements_spec a :
  showAllElements a = (set_document (shown (document a)) a, Normal ()).
Proof. reflexivity. Qed.

Lemma foldl_fmap_steps (sels : list Selector) (d : Document) :
  foldl (λ d sel, forEach (querySelectorAll d sel) ensure d) d sels
  = pass sels <$> d.
Proof.
  revert d. induction sels as [|sel sels IH]; intros d; cbn [foldl].
  - by rewrite list_fmap_id.
  - rewrite IH, forEach_query by apply ensure_idempotent.
    by rewrite <- list_fmap_compose.
Qed.

Lemma shown_fmap d : shown d = show_element <$> d.
Proof.
  unfold shown. rewrite foldl_fmap_steps.
  rewrite forEach_query by apply reveal_idempotent.
  rewrite <- list_fmap_compose. unfold show_element, compose. reflexivity.
Qed.

Lemma animatableSelectors_neutral sel :
  sel ∈ animatableSelectors → neutral sel.
Proof.
  unfold animatableSelectors. intros H e.
  repeat (apply elem_of_cons in H as [-> | H]; [| ]);
    try (by apply elem_of_nil in H);
    unfold matches; cbn [existsb matches_simple]; rewrite ?orb_false_r;
    try done; by rewrite contains_add.
Qed.

Lemma ensure_matches sel e : neutral sel → matches sel (ensure e) = matches sel e.
Proof. intros Hn. unfold ensure. by destruct (negb _). Qed.

Lemma ensure_visible e : contains visible (ensure e) = true.
Proof.
  unfold ensure. destruct (contains visible e) eqn:Hc; simpl; [done |].
  rewrite contains_add. by rewrite bool_decide_eq_true_2.
Qed.

Lemma ensure_keeps c e : contains c e = true → contains c (ensure e) = true.
Proof.
  intros Hc. unfold ensure. destruct (negb _); [| done].
  by rewrite contains_add, Hc, orb_true_r.
Qed.

Lemma ensure_hidden e : contains hidden (ensure e) = contains hidden e.
Proof.
  unfold ensure. destruct (negb _); [| done]. by rewrite contains_add.
Qed.

Lemma pass_hidden sels e : contains hidden (pass sels e) = contains hidden e.
Proof.
  revert e. induction sels as [|sel sels IH]; intros e; [done |].
  unfold pass in *. cbn [foldl]. rewrite IH.
  destruct (matches sel e); [apply ensure_hidden | done].
Qed.

Lemma pass_keeps sels e :
  contains visible e = true → contains visible (pass sels e) = true.
Proof.
  revert e. induction sels as [|sel sels IH]; intros e H; [done |].
  unfold pass in *. cbn [foldl]. apply IH.
  destruct (matches sel e); [by apply ensure_keeps | done].
Qed.

Lemma pass_matches sels sel' e :
  neutral sel' → matches sel' (pass sels e) = matches sel' e.
Proof.
  intros Hn. revert e. induction sels as [|sel sels IH]; intros e; [done |].
  unfold pass in *. cbn [foldl]. rewrite IH.
  destruct (matches sel e); [by apply ensure_matches | done].
Qed.

Lemma pass_visible sels e :
  (∀ sel, sel ∈ sels → neutral sel) →
  existsb (λ sel, matches sel e) sels = true →
  contains visible (pass sels e) = true.
Proof.
  revert e. induction sels as [|sel sels IH]; intros e Hn He; [done |].
  unfold pass in *. cbn [foldl existsb] in *.
  destruct (matches sel e) eqn:Hm.
  - apply pass_keeps, ensure_visible.
  - apply IH; [intros; apply Hn; apply elem_of_cons; auto | done].
Qed.

Lemma reveal_matches sel e :
  neutral sel →
  (∀ e, matches sel (remove hidden e) = matches sel e) →
  matches sel (reveal e) = matches sel e.
Proof. intros Hn Hr. unfold reveal. by rewrite Hn, Hr. Qed.

Lemma animatable_after_reveal e :
  animatable (if matches [Class hidden] e then reveal e else e)
  = animatable e.
Proof.
  destruct (matches _ e); [| done].
  unfold animatable, animatableSelectors, reveal, matches.
  cbn [existsb matches_simple]. rewrite ?orb_false_r.
  rewrite !contains_add. simpl.
  unfold contains, hasAttribute, remove. simpl.
  repeat (f_equal; try (apply bool_decide_ext; set_solver)).
Qed.

(** Each element after showAllElements: no hidden marker, and the
    visible marker if it is animatable. *)
Lemma show_element_hidden e : contains hidden (show_element e) = false.
Proof.
  unfold show_element. rewrite pass_hidden.
  unfold matches. cbn [existsb matches_simple]. rewrite orb_false_r.
  destruct (contains hidden e) eqn:Hc; [| done].
  unfold reveal. rewrite contains_add. simpl.
  unfold contains, remove. simpl. apply bool_decide_eq_false_2. set_solver.
Qed.

Lemma existsb_ext_in {A} (f g : A → bool) (l : list A) :
  (∀ x, x ∈ l → f x = g x) → existsb f l = existsb g l.
Proof.
  induction l as [|x l IH]; intros H; [done |]. cbn [existsb].
  rewrite H by (apply elem_of_cons; auto).
  rewrite IH; [done |]. intros y Hy. apply H, elem_of_cons. auto.
Qed.

Lemma show_element_animatable e :
  animatable (show_element e) = animatable e.
Proof.
  unfold show_element. rewrite <- (animatable_after_reveal e).
  unfold animatable. apply existsb_ext_in.
  intros sel Hsel. apply pass_matches. by apply animatableSelectors_neutral.
Qed.

Lemma show_element_visible e :
  animatable e = true → contains visible (show_element e) = true.
Proof.
  intros Ha. unfold show_element.
  apply pass_visible; [apply animatableSelectors_neutral |].
  by rewrite <- (animatable_after_reveal e) in Ha.
Qed.

(** The markers by their names. *)
Lemma visible_elem e :
  contains visible e = true → "animate-visible" ∈ classList e.
Proof. intros H. by apply bool_decide_eq_true_1 in H. Qed.

Lemma hidden_not_elem e :
  contains hidden e = false → "animate-hidden" ∉ classList e.
Proof. intros H. by apply bool_decide_eq_false_1 in H. Qed.

Lemma init_reduced a :
  prefersReducedMotion a = true →
  init a =
    (set_document (shown (document a))
       (set_console
          (console a ++ ["Animations disabled: user prefers reduced motion"])
          a),
     Normal ()).
Proof.
  intros H. unfold init. erewrite bind_normal by reflexivity.
  rewrite H. erewrite bind_normal by reflexivity.
  by rewrite showAllElements_spec.
Qed.

(** Nothing reaches a quiet controller: every event returns and leaves
    the document as it is. *)
Lemma dispatch_quiet e a :
  quiet a →
  ∃ a', dispatch e a = (a', Normal ()) ∧ quiet a'
        ∧ document a' = document a.
Proof.
  intros (Ho & Hl & Ht). unfold dispatch.
  erewrite bind_normal by reflexivity. destruct e.
  - rewrite Ho. by exists a.
  - erewrite bind_normal by reflexivity. rewrite Hl.
    eexists. split; [reflexivity | done].
  - rewrite Ht, lookup_nil. by exists a.
Qed.

Lemma run_quiet es a :
  quiet a → quiet (run es a) ∧ document (run es a) = document a.
Proof.
  revert a. induction es as [|e es IH]; intros a Hq; [done |].
  destruct (dispatch_quiet e a Hq) as (a' & He & Hq' & Hd).
  unfold run in *. cbn [foldl]. rewrite He. simpl.
  destruct (IH a' Hq') as [H1 H2]. split; [done | by rewrite H2].
Qed.

(** C8. With the reduced-motion preference set when the controller is
    initialised, every element matching one of the content selectors
    carries the visible marker at once, no observer, listener or timer is
    installed, and after any sequence of events the document is the same
    and no element carries the hidden marker. *)
Theorem reduced_motion_never_hides
    (d : Document) (m : Media) (es : list Event) :
  reduce m = true →
  ∃ a0, new d (Some m) = Some a0
    ∧ (init a0).2 = Normal ()
    ∧ let a := (init a0).1 in
      (∀ i e, document a !! i = Some e → animatable e = true →
         "animate-visible" ∈ classList e)
      ∧ observer a = None ∧ motionListeners a = 0%nat ∧ timers a = []
      ∧ document (run es a) = document a
      ∧ (∀ i e, document (run es a) !! i = Some e →
           "animate-hidden" ∉ classList e).
Proof.
  intros Hr. eexists. split; [reflexivity |].
  set (a0 := {| document := d |}).
  assert (Hi := init_reduced a0 Hr). rewrite Hi. split; [reflexivity |].
  cbn [fst]. set (a := set_document _ _).
  assert (Hda : document a = show_element <$> d) by apply shown_fmap.
  assert (Hq : quiet a) by (repeat split; reflexivity).
  destruct (run_quiet es a Hq) as [_ Hdoc].
  assert (Hshow : ∀ i e, document a !! i = Some e →
            ∃ e0, e = show_element e0).
  { intros i e He. rewrite Hda, list_lookup_fmap in He.
    apply fmap_Some in He as (e0 & _ & ->). by exists e0. }
  destruct Hq as (Hq1 & Hq2 & Hq3).
  split.
  { intros i e He Ha. destruct (Hshow i e He) as [e0 ->].
    rewrite show_element_animatable in Ha.
    by apply visible_elem, show_element_visible. }
  split; [exact Hq1 |]. split; [exact Hq2 |]. split; [exact Hq3 |].
  split; [exact Hdoc |].
  intros i e He. rewrite Hdoc in He. destruct (Hshow i e He) as [e0 ->].
  apply hidden_not_elem, show_element_hidden.
Qed.

Lemma reduced_motion_never_hides_witness :
  ∃ a0, new sample_page (Some {| reduce := true; canListen := true |}) = Some a0
    ∧ let a := run [MotionChange false; Intersect [(1%nat, true)]; Timer 0]
                   (init a0).1 in
      ∀ i e, document a !! i = Some e → "animate-hidden" ∉ classList e.
Proof.
  destruct (reduced_motion_never_hides sample_page
              {| reduce := true; canListen := true |}
              [MotionChange false; Intersect [(1%nat, true)]; Timer 0]
              eq_refl)
    as (a0 & Hnew & _ & _ & _ & _ & _ & _ & Hhidden).
  exists a0. split; [exact Hnew | exact Hhidden].
Defined.

End AnimationClaims.

(** * Carousel: further properties *)

Module CarouselMore.
Import Carousel CarouselFacts CarouselReady.

Lemma usable_anchored c c' :
  is_Some (track (carousel c')) →
  viewport (carousel c') = viewport (carousel c) →
  options c' = options c → usable c → usable c'.
Proof.
  intros Ht Hv Ho ([_ Hw] & Hn & Hs).
  split; [split; [done | by rewrite Hv] | by rewrite Ho].
Qed.

Lemma usable_shape c c' : shape c' = shape c → usable c → usable c'.
Proof.
  unfold shape. intros Hsh Hu. injection Hsh as Ht Hv _ _ _ _ Ho.
  apply (usable_anchored c); try done.
  destruct Hu as ([Hu _] & _). apply (bool_decide_eq_true_2 _) in Hu.
  rewrite <- Ht in Hu. by apply bool_decide_eq_true_1 in Hu.
Qed.

Lemma next_usable c :
  usable c → ∃ c', next c = (c', Normal ()) ∧ usable c'.
Proof.
  intros Hu. unfold next. erewrite bind_normal by reflexivity.
  assert (Hgo : ∀ i, ∃ c', goToSlide i true c = (c', Normal ()) ∧ usable c').
  { intros i. destruct (goToSlide_usable i true c Hu) as (c' & E & Hr).
    exists c'. split; [done | by apply ready_usable]. }
  case_bool_decide; [apply Hgo |].
  destruct (infinite _); [apply Hgo | by exists c].
Qed.

Lemma prev_usable c :
  usable c → ∃ c', prev c = (c', Normal ()) ∧ usable c'.
Proof.
  intros Hu. unfold prev. erewrite bind_normal by reflexivity.
  assert (Hgo : ∀ i, ∃ c', goToSlide i true c = (c', Normal ()) ∧ usable c').
  { intros i. destruct (goToSlide_usable i true c Hu) as (c' & E & Hr).
    exists c'. split; [done | by apply ready_usable]. }
  case_bool_decide; [apply Hgo |].
  destruct (infinite _); [apply Hgo | by exists c].
Qed.

Lemma dragStart_usable x c :
  usable c → ∃ c', dragStart x c = (c', Normal ()) ∧ usable c'.
Proof.
  intros Hu. pose proof Hu as ([[t Ht] _] & _). unfold dragStart.
  erewrite bind_normal by reflexivity.
  erewrite bind_normal by reflexivity.
  erewrite bind_normal by (by apply on_track_some).
  erewrite bind_normal by reflexivity.
  set (c1 := upd_carousel _ _).
  destruct (stopAutoplay_ok c1) as (c2 & H2 & Hs2).
  exists c2. split; [done |]. apply (usable_shape c1); [done |].
  apply (usable_anchored c); first [done | by eexists].
Qed.

Lemma dragMove_usable x c :
  usable c → ∃ c', dragMove x c = (c', Normal ()) ∧ usable c'.
Proof.
  intros Hu. pose proof Hu as ([[t Ht] _] & _). unfold dragMove.
  erewrite bind_normal by reflexivity.
  destruct (negb (isDragging c)); [by exists c |].
  erewrite bind_normal by reflexivity.
  erewrite on_track_some by done.
  eexists. split; [reflexivity |].
  apply (usable_anchored c); first [done | by eexists].
Qed.

Lemma dragEnd_any_usable c :
  usable c → ∃ c', dragEnd c = (c', Normal ()) ∧ usable c'.
Proof.
  intros Hu. destruct (isDragging c) eqn:Hd.
  - destruct (dragEnd_usable c Hd Hu) as (c' & E & Hr).
    exists c'. split; [done | by apply ready_usable].
  - unfold dragEnd. erewrite bind_normal by reflexivity. rewrite Hd.
    by exists c.
Qed.

Lemma on_track_usable f c :
  usable c → ∃ c', on_track f c = (c', Normal ()) ∧ usable c'.
Proof.
  intros Hu. pose proof Hu as ([[t Ht] _] & _).
  erewrite on_track_some by done. eexists. split; [reflexivity |].
  apply (usable_anchored c); first [done | by eexists].
Qed.

Lemma updateSlidesToShow_usable c :
  usable c → usable (updateSlidesToShow c).1.
Proof.
  intros ([Ht Hv] & _). destruct (updateSlidesToShow_shows c) as [Hn Hs].
  split; [by split | done].
Qed.

Lemma runTask_usable t c :
  usable c → ∃ c', runTask t c = (c', Normal ()) ∧ usable c'.
Proof.
  intros Hu. destruct t; cbn [runTask].
  - by apply on_track_usable.
  - by apply on_track_usable.
  - erewrite bind_normal by reflexivity.
    erewrite bind_normal by reflexivity.
    pose proof (updateSlidesToShow_usable c Hu) as Hu1.
    set (c1 := (updateSlidesToShow c).1) in *.
    change (modify _ c).1 with c1.
    destruct (goToSlide_usable (currentIndex c1) false c1 Hu1)
      as (c2 & H2 & Hr2).
    erewrite bind_normal by exact H2.
    eexists. split; [reflexivity |].
    apply (usable_shape c2); [| by apply ready_usable].
    unfold shape. simpl. destruct Hr2 as ([[t2 ->] _] & _). done.
Qed.

Lemma autoplayTick_usable c :
  usable c → ∃ c', autoplayTick c = (c', Normal ()) ∧ usable c'.
Proof.
  intros Hu. unfold autoplayTick. erewrite bind_normal by reflexivity.
  case_bool_decide; [| by apply next_usable].
  destruct (infinite _).
  - destruct (goToSlide_usable 0 true c Hu) as (c' & E & Hr).
    exists c'. split; [done | by apply ready_usable].
  - destruct (stopAutoplay_ok c) as (c' & E & Hs).
    exists c'. split; [done | by apply (usable_shape c)].
Qed.

(** Every handler of a carousel that has its track and its viewport
    returns. *)
Lemma dispatch_usable e c :
  usable c → ∃ c', dispatch e c = (c', Normal ()) ∧ usable c'.
Proof.
  intros Hu. unfold dispatch. erewrite bind_normal by reflexivity.
  destruct e.
  - destruct (_ && _); [by apply prev_usable | by exists c].
  - destruct (_ && _); [by apply next_usable | by exists c].
  - destruct (listening _); [| by exists c]. cbn [when].
    repeat case_bool_decide;
      [by apply prev_usable | by apply next_usable | by exists c].
  - destruct (dragListening _); [by apply dragStart_usable | by exists c].
  - destruct (dragListening _); [by apply dragMove_usable | by exists c].
  - destruct (dragListening _); [by apply dragEnd_any_usable | by exists c].
  - destruct (hoverListening _); [| by exists c].
    destruct (stopAutoplay_ok c) as (c' & E & Hs).
    exists c'. split; [done | by apply (usable_shape c)].
  - destruct (hoverListening _); [| by exists c].
    destruct (startAutoplay_ok c) as (c' & E & Hs).
    exists c'. split; [done | by apply (usable_shape c)].
  - erewrite bind_normal by reflexivity.
    destruct (resizeListening _); eexists; (split; [reflexivity | done]).
  - destruct (pending (env c) !! k) as [t|]; [| by exists c].
    erewrite bind_normal by reflexivity.
    by apply runTask_usable.
  - destruct (autoplayInterval c); [by apply autoplayTick_usable | by exists c].
Qed.

Lemma run_usable es c : usable c → usable (run es c).
Proof.
  revert c. induction es as [|e es IH]; intros c Hu; [done |].
  destruct (dispatch_usable e c Hu) as (c' & E & Hu').
  unfold run in *. cbn [foldl]. rewrite E. by apply IH.
Qed.

(** X1. A carousel built over a container that has its viewport, its
    track and at least one slide never raises: the constructor returns,
    and so does the handler of every event, after any sequence of
    events. *)
Theorem anchored_carousel_never_throws
    (element : Element) (o : UserOptions) (width : Z)
    (es : list Event) (e : Event) :
  is_Some (track element) → is_Some (viewport element) →
  slides element ≠ [] →
  (new element o width).2 = Normal ()
  ∧ (dispatch e (run es (new element o width).1)).2 = Normal ().
Proof.
  intros Ht Hv Hs.
  destruct (new_ready element o width Ht Hv Hs) as (c & Hnew & Hr).
  rewrite Hnew. split; [done |]. cbn [fst].
  destruct (dispatch_usable e (run es c)) as (c' & -> & _); [| done].
  by apply run_usable, ready_usable.
Qed.

Lemma anchored_carousel_never_throws_witness :
  (dispatch PointerUp
     (run [Resize 500; Elapse 0; ClickNext; PointerDown (Qc_of_Z 10);
           PointerMove (Qc_of_Z 90)]
          (new (more_pioneers 6) main_options 1440).1)).2 = Normal ().
Proof.
  apply (anchored_carousel_never_throws (more_pioneers 6) main_options 1440);
    [by eexists | by eexists | done].
Defined.

End CarouselMore.

(** * Carousel: invariants of every handler

    A property of the state that the elementary writes of the class keep
    is kept by the constructor and by every handler, whether they return
    or raise. *)

Module CarouselEverywhere.
Import Carousel.

Section Everywhere.
Variable I : Carousel → Prop.
Hypothesis I_element : ∀ f c, I c → I (upd_carousel f c).
Hypothesis I_index : ∀ v c, I c → I (set_currentIndex v c).
Hypothesis I_isDragging : ∀ v c, I c → I (set_isDragging v c).
Hypothesis I_startPos : ∀ v c, I c → I (set_startPos v c).
Hypothesis I_currentTranslate : ∀ v c, I c → I (set_currentTranslate v c).
Hypothesis I_prevTranslate : ∀ v c, I c → I (set_prevTranslate v c).
Hypothesis I_setTimeout : ∀ t c, t ≠ ResizeSettled → I c →
  I (upd_env (λ w, set_pending (pending w ++ [t]) w) c).
Hypothesis I_stop : ∀ c, I c → I (set_autoplayInterval false c).
Hypothesis I_start : ∀ c, autoplay (options c) = true → I c →
  I (set_autoplayInterval true c).
Hypothesis I_slides : ∀ c, I c → I (updateSlidesToShow c).1.
Hypothesis I_width : ∀ v c, I c → I (upd_env (set_innerWidth v) c).
Hypothesis I_debounce : ∀ c, I c →
  I (upd_env (λ w, set_pending (debounce ResizeSettled (pending w)) w) c).
Hypothesis I_delete : ∀ k c, I c →
  I (upd_env (λ w, set_pending (delete k (pending w)) w) c).
Hypothesis I_listening : ∀ c, I c → I (upd_env (set_listening true) c).
Hypothesis I_dragListening : ∀ c, I c → I (upd_env (set_dragListening true) c).
Hypothesis I_hoverListening :
  ∀ c, autoplay (options c) = true → I c →
       I (upd_env (set_hoverListening true) c).
Hypothesis I_resizeListening :
  ∀ c, I c → I (upd_env (set_resizeListening true) c).

Lemma on_track_every f : preserves I (on_track f).
Proof.
  intros c H. unfold on_track. destruct (track (carousel c)); [| done].
  by apply I_element.
Qed.

Lemma stopAutoplay_every : preserves I stopAutoplay.
Proof. unfold stopAutoplay. preserve. by apply I_stop. Qed.

Lemma startAutoplay_every : preserves I startAutoplay.
Proof.
  intros c H. unfold startAutoplay. erewrite bind_normal by reflexivity.
  destruct (autoplay (options c)) eqn:Ha; [| done]. cbn [negb].
  unfold stopAutoplay, mbind, js_bind, get, when, modify. simpl.
  destruct (autoplayInterval c); simpl.
  - apply I_start; [done | by apply I_stop].
  - by apply I_start.
Qed.

Lemma updateCarousel_every animate : preserves I (updateCarousel animate).
Proof.
  unfold updateCarousel. preserve.
  destruct (track _); [| preserve].
  destruct (viewport _); [| preserve].
  unfold setTimeout.
  preserve; try apply on_track_every; auto.
Qed.

Lemma updateButtons_every : preserves I updateButtons.
Proof. unfold updateButtons. preserve. by apply I_element. Qed.

Lemma announceSlide_every : preserves I announceSlide.
Proof. unfold announceSlide. preserve. by apply I_element. Qed.

Lemma goToSlide_every index animate : preserves I (goToSlide index animate).
Proof.
  unfold goToSlide, setTimeout.
  preserve; try apply on_track_every; try apply updateCarousel_every;
    try apply updateButtons_every; try apply announceSlide_every; auto.
Qed.

Lemma next_every : preserves I next.
Proof.
  unfold next. preserve. case_bool_decide; [apply goToSlide_every |].
  destruct (infinite _); [apply goToSlide_every | preserve].
Qed.

Lemma prev_every : preserves I prev.
Proof.
  unfold prev. preserve. case_bool_decide; [apply goToSlide_every |].
  destruct (infinite _); [apply goToSlide_every | preserve].
Qed.

Lemma dragStart_every x : preserves I (dragStart x).
Proof.
  unfold dragStart.
  preserve; try apply on_track_every; try apply stopAutoplay_every; auto.
Qed.

Lemma dragMove_every x : preserves I (dragMove x).
Proof.
  unfold dragMove. preserve.
  destruct (negb _); preserve; try apply on_track_every; auto.
Qed.

Lemma dragEnd_every : preserves I dragEnd.
Proof.
  unfold dragEnd. preserve. destruct (negb _); [preserve |].
  preserve; try apply on_track_every; try apply startAutoplay_every; auto.
  destruct (_ && _); [apply next_every |].
  destruct (_ && _); [apply prev_every | apply goToSlide_every].
Qed.

Lemma autoplayTick_every : preserves I autoplayTick.
Proof.
  unfold autoplayTick. preserve. case_bool_decide; [| apply next_every].
  destruct (infinite _); [apply goToSlide_every | apply stopAutoplay_every].
Qed.

Lemma runTask_every t : preserves I (runTask t).
Proof.
  destruct t; cbn [runTask]; try apply on_track_every.
  unfold updateSlidesToShow at 1.
  preserve; try apply goToSlide_every; try apply updateButtons_every.
  by apply (I_slides s).
Qed.

Lemma dispatch_every e : preserves I (dispatch e).
Proof.
  unfold dispatch. preserve.
  destruct e; preserve; auto using prev_every, next_every, dragStart_every,
    dragMove_every, dragEnd_every, stopAutoplay_every, startAutoplay_every,
    autoplayTick_every.
  - repeat case_bool_decide; [apply prev_every | apply next_every | preserve].
  - destruct (pending _ !! k); preserve; auto using runTask_every.
Qed.

Lemma run_every es c : I c → I (run es c).
Proof.
  intros H. unfold run. apply preserves_foldl; [| done].
  intros c0 e H0. by apply dispatch_every.
Qed.

Lemma setupEventListeners_every : preserves I setupEventListeners.
Proof.
  unfold setupEventListeners, setupTouchEvents.
  apply preserves_bind; [preserve; auto | intros _].
  apply preserves_bind;
    [preserve; try apply on_track_every; auto | intros _].
  intros s Hs. erewrite bind_normal by reflexivity.
  destruct (autoplay (options s)) eqn:Ha; [| done].
  by apply I_hoverListening.
Qed.

Lemma init_every : preserves I init.
Proof.
  unfold init. unfold updateSlidesToShow at 1.
  preserve; try apply setupEventListeners_every;
    try apply updateCarousel_every;
    try apply updateButtons_every; try apply startAutoplay_every; auto.
  by apply (I_slides s).
Qed.

Lemma new_every element o width :
  (∀ c, carousel c = element → currentIndex c = 0 →
        totalSlides c = Z.of_nat (length (slides element)) →
        options c = merge_options o → env c =
          {| innerWidth := width; listening := false;
             dragListening := false; hoverListening := false;
             resizeListening := false; pending := [] |} →
        autoplayInterval c = false → isDragging c = false → I c) →
  I (new element o width).1.
Proof.
  intros H0. unfold new.
  destruct (_ && _); [apply init_every |]; by apply H0.
Qed.
End Everywhere.

End CarouselEverywhere.

(** * Carousel: the controls follow the index *)

Section Inversion.
Context {S : Type}.

Lemma bind_inv {A B} (m : js S A) (f : A → js S B) s s' b :
  (m ≫= f) s = (s', Normal b) →
  ∃ a s1, m s = (s1, Normal a) ∧ f a s1 = (s', Normal b).
Proof.
  unfold mbind, js_bind. destruct (m s) as [s1 [a | e]]; [| done].
  intros H. by exists a, s1.
Qed.

Lemma preserves_eq {A V} (view : S → V) (m : js S A) s :
  (∀ k, preserves (λ c, view c = k) m) → view (m s).1 = view s.
Proof. intros H. by apply (H (view s)). Qed.
End Inversion.

Module CarouselControls.
Import Carousel CarouselFacts CarouselReady CarouselMore.

Lemma on_track_controls k f : preserves (λ c, controls c = k) (on_track f).
Proof. intros c H. unfold on_track. by destruct (track (carousel c)). Qed.

Lemma setTimeout_controls k t : preserves (λ c, controls c = k) (setTimeout t).
Proof. unfold setTimeout. preserve. done. Qed.

Lemma stopAutoplay_controls k : preserves (λ c, controls c = k) stopAutoplay.
Proof. unfold stopAutoplay. preserve. done. Qed.

Lemma startAutoplay_controls k : preserves (λ c, controls c = k) startAutoplay.
Proof.
  unfold startAutoplay. preserve.
  destruct (negb _); preserve; [apply stopAutoplay_controls | done].
Qed.

Lemma updateCarousel_controls k animate :
  preserves (λ c, controls c = k) (updateCarousel animate).
Proof.
  unfold updateCarousel. preserve.
  destruct (track _); [| preserve].
  destruct (viewport _); [| preserve].
  preserve; try apply on_track_controls; try apply setTimeout_controls; done.
Qed.

Lemma dragStart_controls k x : preserves (λ c, controls c = k) (dragStart x).
Proof.
  unfold dragStart.
  preserve; try apply on_track_controls; try apply stopAutoplay_controls;
    done.
Qed.

Lemma dragMove_controls k x : preserves (λ c, controls c = k) (dragMove x).
Proof.
  unfold dragMove. preserve.
  destruct (negb _); preserve; try apply on_track_controls; done.
Qed.

Lemma synced_controls c c' :
  controls c' = controls c → buttons_synced c → buttons_synced c'.
Proof.
  unfold controls, core, buttons_synced, atStart, atEnd, getMaxIndex.
  intros [= -> -> _ -> -> ->]. done.
Qed.

Lemma live_controls element c c' :
  controls c' = controls c → live_current element c → live_current element c'.
Proof.
  unfold controls, core, live_current, announcement.
  intros [= _ _ -> -> -> _]. done.
Qed.

Lemma updateButtons_synced c : buttons_synced (updateButtons c).1.
Proof.
  unfold updateButtons, buttons_synced, button_shows. simpl. split.
  - intros x. destruct (prevButton (carousel c)); simpl; [| done].
    by intros [= <-].
  - intros x. destruct (nextButton (carousel c)); simpl; [| done].
    by intros [= <-].
Qed.

Lemma updateButtons_live element c :
  live_current element c → live_current element (updateButtons c).1.
Proof. done. Qed.

Lemma announceSlide_synced c :
  buttons_synced c → buttons_synced (announceSlide c).1.
Proof. done. Qed.

(** A call of [goToSlide] that returns leaves the buttons and the live
    region in step with the index it set. *)
Lemma goToSlide_controls element index animate c c' :
  goToSlide index animate c = (c', Normal ()) →
  buttons_synced c' ∧ live_current element c'.
Proof.
  unfold goToSlide. intros H.
  apply bind_inv in H as ([] & c1 & _ & H).
  apply bind_inv in H as ([] & c2 & _ & H).
  apply bind_inv in H as ([] & c3 & _ & H).
  apply bind_inv in H as ([] & c4 & H4 & H).
  apply bind_inv in H as ([] & c5 & H5 & H).
  assert (Hs4 : buttons_synced c4).
  { replace c4 with (updateButtons c3).1 by (by rewrite H4).
    apply updateButtons_synced. }
  assert (Hs5 : buttons_synced c5).
  { apply (synced_controls c4); [| done].
    replace c5 with (when animate (setTimeout RemoveAnimating) c4).1
      by (by rewrite H5).
    apply preserves_eq. intros k. preserve. apply setTimeout_controls. }
  injection H as <-. split; [by apply announceSlide_synced |].
  by left.
Qed.

Lemma next_controls element c c' :
  next c = (c', Normal ()) →
  buttons_synced c ∧ live_current element c →
  buttons_synced c' ∧ live_current element c'.
Proof.
  unfold next. intros H Hc. apply bind_inv in H as (? & ? & [= <- <-] & H).
  case_bool_decide; [by apply (goToSlide_controls element) in H |].
  destruct (infinite _); [by apply (goToSlide_controls element) in H |].
  by injection H as <-.
Qed.

Lemma prev_controls element c c' :
  prev c = (c', Normal ()) →
  buttons_synced c ∧ live_current element c →
  buttons_synced c' ∧ live_current element c'.
Proof.
  unfold prev. intros H Hc. apply bind_inv in H as (? & ? & [= <- <-] & H).
  case_bool_decide; [by apply (goToSlide_controls element) in H |].
  destruct (infinite _); [by apply (goToSlide_controls element) in H |].
  by injection H as <-.
Qed.

Lemma frame_controls {A} element (m : js Carousel A) c :
  (∀ k, preserves (λ c, controls c = k) m) →
  buttons_synced c ∧ live_current element c →
  buttons_synced (m c).1 ∧ live_current element (m c).1.
Proof.
  intros Hm [Hs Hl]. pose proof (preserves_eq controls m c Hm) as E.
  split; [by apply (synced_controls c) | by apply (live_controls _ c)].
Qed.

Lemma frame_controls_to {A} element (m : js Carousel A) c c' a :
  (∀ k, preserves (λ c, controls c = k) m) →
  m c = (c', Normal a) →
  buttons_synced c ∧ live_current element c →
  buttons_synced c' ∧ live_current element c'.
Proof.
  intros Hm E Hc. replace c' with (m c).1 by (by rewrite E).
  by apply frame_controls.
Qed.

Lemma dragEnd_controls element c c' :
  dragEnd c = (c', Normal ()) →
  buttons_synced c ∧ live_current element c →
  buttons_synced c' ∧ live_current element c'.
Proof.
  unfold dragEnd. intros H Hc.
  apply bind_inv in H as (? & ? & [= <- <-] & H).
  destruct (negb (isDragging c)); [by injection H as <- |].
  apply bind_inv in H as ([] & c1 & H1 & H).
  apply bind_inv in H as ([] & c2 & H2 & H).
  apply bind_inv in H as ([] & c3 & H3 & H).
  apply bind_inv in H as (? & ? & [= <- <-] & H).
  apply bind_inv in H as ([] & c4 & H4 & H).
  apply bind_inv in H as (? & ? & [= <- <-] & H).
  assert (Hc3 : buttons_synced c3 ∧ live_current element c3).
  { injection H1 as <-. injection H3 as <-.
    assert (Hc2 : buttons_synced c2 ∧ live_current element c2).
    { eapply frame_controls_to; [| exact H2 | exact Hc].
      intros k. apply on_track_controls. }
    exact Hc2. }
  assert (Hc4 : buttons_synced c4 ∧ live_current element c4).
  { destruct (_ && _); [by apply (next_controls _ c3) |].
    destruct (_ && _); [by apply (prev_controls _ c3) |].
    by apply (goToSlide_controls element) in H4. }
  eapply (frame_controls_to _ (when (autoplay (options c4)) startAutoplay));
    [| exact H | exact Hc4].
  intros k. preserve. apply startAutoplay_controls.
Qed.

Lemma runTask_controls element t c c' :
  runTask t c = (c', Normal ()) →
  buttons_synced c ∧ live_current element c →
  buttons_synced c' ∧ live_current element c'.
Proof.
  intros H Hc. destruct t; cbn [runTask] in H.
  - eapply frame_controls_to; [| exact H | exact Hc].
    intros k. apply on_track_controls.
  - eapply frame_controls_to; [| exact H | exact Hc].
    intros k. apply on_track_controls.
  - apply bind_inv in H as ([] & c1 & _ & H).
    apply bind_inv in H as (? & ? & [= <- <-] & H).
    apply bind_inv in H as ([] & c2 & H2 & H).
    apply (goToSlide_controls element) in H2 as [_ Hl].
    replace c' with (updateButtons c2).1 by (by rewrite H).
    split; [apply updateButtons_synced | by apply updateButtons_live].
Qed.

Lemma autoplayTick_controls element c c' :
  autoplayTick c = (c', Normal ()) →
  buttons_synced c ∧ live_current element c →
  buttons_synced c' ∧ live_current element c'.
Proof.
  unfold autoplayTick. intros H Hc.
  apply bind_inv in H as (? & ? & [= <- <-] & H).
  case_bool_decide; [| by apply (next_controls _ c)].
  destruct (infinite _); [by apply (goToSlide_controls element) in H |].
  eapply frame_controls_to; [| exact H | exact Hc].
  intros k. apply stopAutoplay_controls.
Qed.

Lemma dispatch_controls element e c c' :
  dispatch e c = (c', Normal ()) →
  buttons_synced c ∧ live_current element c →
  buttons_synced c' ∧ live_current element c'.
Proof.
  unfold dispatch. intros H Hc.
  apply bind_inv in H as (? & ? & [= <- <-] & H).
  destruct e.
  - destruct (_ && _); [by apply (prev_controls _ c) | by injection H as <-].
  - destruct (_ && _); [by apply (next_controls _ c) | by injection H as <-].
  - destruct (listening _); [| by injection H as <-]. cbn [when] in H.
    repeat case_bool_decide;
      [by apply (prev_controls _ c) | by apply (next_controls _ c)
      | by injection H as <-].
  - eapply frame_controls_to; [| exact H | exact Hc].
    intros k. preserve. apply dragStart_controls.
  - eapply frame_controls_to; [| exact H | exact Hc].
    intros k. preserve. apply dragMove_controls.
  - destruct (dragListening _); [by apply (dragEnd_controls _ c) |].
    by injection H as <-.
  - eapply frame_controls_to; [| exact H | exact Hc].
    intros k. preserve. apply stopAutoplay_controls.
  - eapply frame_controls_to; [| exact H | exact Hc].
    intros k. preserve. apply startAutoplay_controls.
  - eapply frame_controls_to; [| exact H | exact Hc].
    intros k. preserve; done.
  - destruct (pending (env c) !! k) as [t|]; [| by injection H as <-].
    apply bind_inv in H as ([] & c1 & [= <-] & H).
    by apply (runTask_controls element) in H.
  - destruct (autoplayInterval c); [| by injection H as <-].
    by apply (autoplayTick_controls _ c).
Qed.

Lemma new_controls element o width c :
  is_Some (track element) → slides element ≠ [] →
  new element o width = (c, Normal ()) →
  buttons_synced c ∧ live_current element c.
Proof.
  intros Ht Hs. unfold new.
  rewrite (bool_decide_eq_true_2 _ Ht).
  rewrite bool_decide_eq_true_2
    by (destruct (slides element); simpl; [done | lia]).
  cbn [andb]. set (this := {| carousel := element |}).
  unfold init. intros H.
  apply bind_inv in H as ([] & c1 & H1 & H).
  apply bind_inv in H as ([] & c2 & H2 & H).
  apply bind_inv in H as ([] & c3 & H3 & H).
  apply bind_inv in H as ([] & c4 & H4 & H).
  assert (E1 : controls c1 = (prevButton element, nextButton element,
                              liveRegion element, core c1)
               ∧ currentIndex c1 = 0).
  { by injection H1 as <-. }
  assert (E3 : liveRegion (carousel c3) = liveRegion element
               ∧ currentIndex c3 = 0).
  { assert (E : controls c3 = controls c1).
    { replace c3 with ((setupEventListeners;; updateCarousel true) c1).1.
      - apply preserves_eq. intros k. unfold setupEventListeners,
          setupTouchEvents.
        preserve; try apply on_track_controls;
          try apply updateCarousel_controls; done.
      - erewrite bind_normal by exact H2. by rewrite H3. }
    destruct E1 as [E1 E0]. rewrite E1 in E. unfold controls, core in E.
    injection E as _ _ El Ei _ _. by rewrite El, Ei, E0. }
  assert (Hc4 : buttons_synced c4 ∧ live_current element c4).
  { replace c4 with (updateButtons c3).1 by (by rewrite H4).
    split; [apply updateButtons_synced |]. by right. }
  eapply frame_controls_to; [| exact H | exact Hc4].
  intros k. preserve; [done |]. apply startAutoplay_controls.
Qed.

(** The number of slides is fixed at construction. *)
Lemma totalSlides_fixed element o width es :
  totalSlides (run es (new element o width).1)
  = Z.of_nat (length (slides element)).
Proof.
  apply (CarouselEverywhere.run_every
           (λ c, totalSlides c = Z.of_nat (length (slides element))));
    try done.
  apply (CarouselEverywhere.new_every
           (λ c, totalSlides c = Z.of_nat (length (slides element))));
    try done.
Qed.

(** What holds of an anchored carousel after any events. *)
Lemma run_controls element o width es :
  is_Some (track element) → is_Some (viewport element) →
  slides element ≠ [] →
  usable (run es (new element o width).1)
  ∧ buttons_synced (run es (new element o width).1)
  ∧ live_current element (run es (new element o width).1).
Proof.
  intros Ht Hv Hs.
  destruct (new_ready element o width Ht Hv Hs) as (c & Hnew & Hr).
  pose proof (new_controls element o width c Ht Hs Hnew) as Hc.
  rewrite Hnew. cbn [fst]. apply ready_usable in Hr. clear Hnew.
  revert c Hr Hc. induction es as [|e es IH]; intros c Hu Hc; [done |].
  destruct (dispatch_usable e c Hu) as (c' & E & Hu').
  unfold run in *. cbn [foldl]. rewrite E. cbn [fst].
  apply IH; [done |]. by apply (dispatch_controls element e c).
Qed.

(** X2. After any sequence of events the buttons of an anchored carousel
    show where it stands: the previous button is disabled (and
    [aria-disabled] is [true]) exactly when the carousel does not loop and
    is at its first position, the next button exactly when it does not
    loop and is at its last position. *)
Theorem buttons_follow_index
    (element : Element) (o : UserOptions) (width : Z) (es : list Event)
    (b : Button) :
  is_Some (track element) → is_Some (viewport element) →
  slides element ≠ [] →
  let c := run es (new element o width).1 in
  (prevButton (carousel c) = Some b →
     disabled b = bool_decide (currentIndex c = 0)
                  && negb (infinite (options c))
     ∧ ariaDisabled b = Some (if disabled b then "true" else "false"))
  ∧ (nextButton (carousel c) = Some b →
     disabled b = bool_decide (getMaxIndex c ≤ currentIndex c)
                  && negb (infinite (options c))
     ∧ ariaDisabled b = Some (if disabled b then "true" else "false")).
Proof.
  intros Ht Hv Hs c.
  destruct (run_controls element o width es Ht Hv Hs) as (_ & [Hp Hn] & _).
  fold c in Hp, Hn. split; intros Hb.
  - by rewrite (Hp b Hb).
  - by rewrite (Hn b Hb).
Qed.

Lemma buttons_follow_index_witness :
  let c := run [ClickNext; ClickNext; ClickNext; ClickPrev]
               (new (more_pioneers 5) main_options 1440).1 in
  currentIndex c = 1
  ∧ prevButton (carousel c) = Some (mark_disabled false)
  ∧ (nextButton (carousel c) = Some (mark_disabled false) →
     disabled (mark_disabled false)
     = bool_decide (getMaxIndex c ≤ currentIndex c)
       && negb (infinite (options c))
     ∧ ariaDisabled (mark_disabled false) = Some "false").
Proof.
  split; [by vm_compute | split; [by vm_compute |]].
  apply (buttons_follow_index (more_pioneers 5) main_options 1440
           [ClickNext; ClickNext; ClickNext; ClickPrev]
           (mark_disabled false));
    [by eexists | by eexists | done].
Defined.

(** X3. The live region of an anchored carousel is never stale: after any
    sequence of events it reads [Slide i+1 of n] for the current index
    [i], unless nothing was announced yet, and then the carousel still
    stands at its first slide. *)
Theorem live_region_names_current_slide
    (element : Element) (o : UserOptions) (width : Z) (es : list Event) :
  is_Some (track element) → is_Some (viewport element) →
  slides element ≠ [] →
  let c := run es (new element o width).1 in
  liveRegion (carousel c)
  = Some ("Slide " +:+ pretty (currentIndex c + 1) +:+ " of "
          +:+ pretty (Z.of_nat (length (slides element))))
  ∨ (liveRegion (carousel c) = liveRegion element ∧ currentIndex c = 0).
Proof.
  intros Ht Hv Hs c.
  destruct (run_controls element o width es Ht Hv Hs) as (_ & _ & Hl).
  fold c in Hl. destruct Hl as [Hl | Hl]; [left | by right].
  rewrite Hl. unfold announcement. do 4 f_equal.
  unfold c. by rewrite totalSlides_fixed.
Qed.

Lemma live_region_names_current_slide_witness :
  liveRegion (carousel (run [ClickNext; ClickNext]
                            (new (more_pioneers 6) main_options 1440).1))
  = Some "Slide 3 of 6".
Proof.
  destruct (live_region_names_current_slide (more_pioneers 6) main_options
              1440 [ClickNext; ClickNext]) as [H | [_ H]];
    [by eexists | by eexists | done | exact H | vm_compute in H; discriminate H].
Defined.

End CarouselControls.

(** * Carousel: construction, resizing, autoplay *)

Module CarouselLife.
Import Carousel CarouselFacts CarouselReady CarouselMore.

Lemma run_inert es c :
  inert c →
  inert (run es c) ∧ carousel (run es c) = carousel c
  ∧ core (run es c) = core c.
Proof.
  revert c. induction es as [|e es IH]; intros c Hi; [done |].
  destruct (CarouselClaims.inert_ignores_events c e Hi) as (c' & E & Hi' & Hc & Hk & _).
  unfold run in *. cbn [foldl]. rewrite E. cbn [fst].
  destruct (IH c' Hi') as (H1 & H2 & H3).
  split; [done | split; congruence].
Qed.

(** X4. A carousel whose container has no track, or no slide, is never
    initialised: the constructor returns, no event changes the page or
    the index or the options, and every handler returns. *)
Theorem carousel_without_track_or_slides_is_inert
    (element : Element) (o : UserOptions) (width : Z)
    (es : list Event) (e : Event) :
  track element = None ∨ slides element = [] →
  (new element o width).2 = Normal ()
  ∧ carousel (run es (new element o width).1) = element
  ∧ currentIndex (run es (new element o width).1) = 0
  ∧ options (run es (new element o width).1) = merge_options o
  ∧ (dispatch e (run es (new element o width).1)).2 = Normal ().
Proof.
  intros H. destruct (CarouselClaims.new_inert element o width H) as (c & Hnew & Hi).
  assert (Hc : carousel c = element ∧ core c
               = (0, Z.of_nat (length (slides element)), merge_options o)).
  { unfold new in Hnew.
    assert (Hg : bool_decide (is_Some (track element))
                 && bool_decide (0 < length (slides element))%nat = false).
    { destruct H as [-> | ->].
      - rewrite bool_decide_eq_false_2; [done | by intros [? ?]].
      - by rewrite andb_false_r. }
    rewrite Hg in Hnew. by injection Hnew as <-. }
  rewrite Hnew. cbn [fst snd].
  destruct (run_inert es c Hi) as (Hi' & He & Hk).
  destruct Hc as [Hc1 Hc2]. rewrite Hc2 in Hk. unfold core in Hk.
  injection Hk as Hk1 _ Hk3.
  destruct (CarouselClaims.inert_ignores_events _ e Hi') as (c' & E & _).
  rewrite E. by rewrite He, Hc1.
Qed.

Lemma carousel_without_track_or_slides_is_inert_witness :
  carousel (run [ClickNext; PointerDown 0%Qc; Resize 500; Elapse 0]
                (new (more_pioneers 0) main_options 1440).1)
  = more_pioneers 0.
Proof.
  apply (carousel_without_track_or_slides_is_inert (more_pioneers 0)
           main_options 1440
           [ClickNext; PointerDown 0%Qc; Resize 500; Elapse 0] ClickNext).
  by right.
Defined.

Lemma init_core c : core (init c).1 = core (updateSlidesToShow c).1.
Proof.
  unfold init. apply bind_core. intros _ k.
  preserve; try apply setupEventListeners_core;
    try apply updateCarousel_core; try apply updateButtons_core;
    try apply startAutoplay_core; done.
Qed.

Lemma new_slides_options element o width :
  is_Some (track element) → slides element ≠ [] →
  slidesToShow (options (new element o width).1)
  = slidesToShow (options (updateSlidesToShow
      (upd_env (set_innerWidth width)
         (upd_carousel (λ _, element) (new element o width).1))).1)
  ∧ slidesToScroll (options (new element o width).1) = 1.
Proof.
  intros Ht Hs. unfold new.
  rewrite (bool_decide_eq_true_2 _ Ht).
  rewrite bool_decide_eq_true_2
    by (destruct (slides element); simpl; [done | lia]).
  cbn [andb].
  match goal with |- slidesToShow (options (init ?a).1) = _ ∧ _ =>
    pose proof (init_core a) as Ea end.
  unfold core in Ea. injection Ea as _ _ ->. done.
Qed.

(** X5. The constructor ignores the [slidesToShow] and [slidesToScroll]
    it is given: once it initialises, the number of slides shown depends
    on the window and the container only, and the step is one slide. *)
Theorem constructor_ignores_slides_options
    (element : Element) (o o' : UserOptions) (width : Z) :
  is_Some (track element) → slides element ≠ [] →
  slidesToShow (options (new element o width).1)
  = slidesToShow (options (new element o' width).1)
  ∧ slidesToScroll (options (new element o width).1) = 1.
Proof.
  intros Ht Hs.
  destruct (new_slides_options element o width Ht Hs) as [-> ->].
  destruct (new_slides_options element o' width Ht Hs) as [-> _].
  done.
Qed.

Lemma constructor_ignores_slides_options_witness :
  slidesToShow (options (new (more_pioneers 6)
    {| u_slidesToShow := Some 5; u_slidesToScroll := Some 2;
       u_infinite := None; u_autoplay := None; u_autoplaySpeed := None;
       u_speed := None |} 1440).1)
  = slidesToShow (options (new (more_pioneers 6) main_options 1440).1)
  ∧ slidesToScroll (options (new (more_pioneers 6)
    {| u_slidesToShow := Some 5; u_slidesToScroll := Some 2;
       u_infinite := None; u_autoplay := None; u_autoplaySpeed := None;
       u_speed := None |} 1440).1) = 1.
Proof.
  apply (constructor_ignores_slides_options (more_pioneers 6));
    [by eexists | done].
Defined.

(** X6. The number of slides shown grows with the width of the window:
    it is between 1 and 4, it is 1 below 768 pixels, and a wider window
    never shows fewer slides of the same carousel. *)
Theorem slides_shown_grow_with_width (c1 c2 : Carousel) :
  featured (carousel c1) = featured (carousel c2) →
  innerWidth (env c1) ≤ innerWidth (env c2) →
  1 ≤ slidesToShow (options (updateSlidesToShow c1).1)
    ≤ slidesToShow (options (updateSlidesToShow c2).1)
  ∧ slidesToShow (options (updateSlidesToShow c2).1) ≤ 4
  ∧ (innerWidth (env c1) < 768 →
     slidesToShow (options (updateSlidesToShow c1).1) = 1).
Proof.
  intros Hf Hw. unfold updateSlidesToShow, breakpoint_desktop,
    breakpoint_tablet, breakpoint_mobile. simpl. rewrite Hf.
  repeat case_bool_decide; destruct (featured (carousel c2)); lia.
Qed.

Lemma slides_shown_grow_with_width_witness :
  1 ≤ slidesToShow (options (updateSlidesToShow
        (upd_env (set_innerWidth 800)
           (new (more_pioneers 6) main_options 1440).1)).1)
    ≤ slidesToShow (options (updateSlidesToShow
        (new (more_pioneers 6) main_options 1440).1).1).
Proof.
  apply (slides_shown_grow_with_width
           (upd_env (set_innerWidth 800)
              (new (more_pioneers 6) main_options 1440).1)
           (new (more_pioneers 6) main_options 1440).1);
    [reflexivity | vm_compute; discriminate].
Defined.

Lemma slidesToScroll_one element o width es :
  is_Some (track element) → slides element ≠ [] →
  slidesToScroll (options (run es (new element o width).1)) = 1.
Proof.
  intros Ht Hs.
  apply (CarouselEverywhere.run_every
           (λ c, slidesToScroll (options c) = 1)); try done.
  by apply (new_slides_options element o width).
Qed.

(** X7. Stepping forward and then back returns to the slide one started
    from, whenever the forward step is possible (the carousel is not at
    its last position, or it loops); this holds in every state an
    initialised carousel reaches. *)
Theorem next_then_prev_returns
    (element : Element) (o : UserOptions) (width : Z) (es : list Event) :
  is_Some (track element) → slides element ≠ [] →
  let c := run es (new element o width).1 in
  currentIndex c < getMaxIndex c ∨ infinite (options c) = true →
  currentIndex (prev (next c).1).1 = currentIndex c.
Proof.
  intros Ht Hs c Hmove.
  pose proof (slidesToScroll_one element o width es Ht Hs) as Hstep.
  pose proof (run_in_range element o width es) as Hr. fold c in Hstep, Hr.
  pose proof (next_core c) as En. pose proof (prev_core (next c).1) as Ep.
  unfold in_range in Hr.
  unfold core in En, Ep.
  assert (Ho : totalSlides (next c).1 = totalSlides c
               ∧ options (next c).1 = options c).
  { destruct (bool_decide (currentIndex c < getMaxIndex c)).
    - by injection En as _ -> ->.
    - destruct (infinite (options c)); by injection En as _ -> ->. }
  assert (Hm : getMaxIndex (next c).1 = getMaxIndex c).
  { unfold getMaxIndex. destruct Ho as [-> ->]. done. }
  destruct Ho as [_ Ho].
  rewrite Hm, Ho, Hstep in Ep. rewrite Hstep in En.
  destruct (decide (currentIndex c < getMaxIndex c)) as [Hlt | Hlt].
  - rewrite bool_decide_eq_true_2 in En by done.
    injection En as Ei _ _. rewrite Ei in Ep.
    rewrite bool_decide_eq_true_2 in Ep by lia.
    injection Ep as -> _ _. lia.
  - rewrite bool_decide_eq_false_2 in En by done.
    destruct Hmove as [? | Hinf]; [lia |]. rewrite Hinf in En, Ep.
    injection En as Ei _ _. rewrite Ei in Ep.
    rewrite bool_decide_eq_false_2 in Ep by lia.
    injection Ep as -> _ _. lia.
Qed.

Lemma next_then_prev_returns_witness :
  let c := run [ClickNext; ClickNext]
               (new (more_pioneers 6) main_options 1440).1 in
  currentIndex (prev (next c).1).1 = currentIndex c.
Proof.
  apply (next_then_prev_returns (more_pioneers 6) main_options 1440
           [ClickNext; ClickNext]);
    [by eexists | done | left; vm_compute; reflexivity].
Defined.

Lemma filter_delete_length {A} (P : A → Prop) `{!∀ x, Decision (P x)}
    (k : nat) (l : list A) :
  (length (filter P (delete k l)) ≤ length (filter P l))%nat.
Proof.
  revert k. induction l as [|x l IH]; intros k; [done |].
  destruct k as [|k]; simpl.
  - rewrite filter_cons. destruct (decide (P x)); simpl; lia.
  - rewrite !filter_cons. specialize (IH k).
    destruct (decide (P x)); simpl; lia.
Qed.

(** X8. Resizing is debounced: whatever happens, at most one resize
    callback is waiting, however many resize events were delivered. *)
Theorem at_most_one_resize_callback
    (element : Element) (o : UserOptions) (width : Z) (es : list Event) :
  (resize_pending (run es (new element o width).1) ≤ 1)%nat.
Proof.
  apply (CarouselEverywhere.run_every (λ c, (resize_pending c ≤ 1)%nat));
    try done.
  - intros t c Ht H. unfold resize_pending in *. simpl.
    rewrite filter_app, length_app, filter_cons, decide_False by done.
    simpl. lia.
  - intros c _. unfold resize_pending, debounce. simpl.
    rewrite filter_app, length_app.
    assert (E : filter (λ t, t = ResizeSettled)
                  (filter (λ t', t' ≠ ResizeSettled) (pending (env c))) = []).
    { induction (pending (env c)) as [|t l IH]; [done |].
      rewrite filter_cons. destruct (decide (t ≠ ResizeSettled)); [| done].
      rewrite filter_cons, decide_False by done. done. }
    rewrite E. simpl. lia.
  - intros k c H. unfold resize_pending in *. simpl.
    etrans; [apply filter_delete_length | done].
  - apply (CarouselEverywhere.new_every
             (λ c, (resize_pending c ≤ 1)%nat)); try done.
    + intros t c Ht H. unfold resize_pending in *. simpl.
      rewrite filter_app, length_app, filter_cons, decide_False by done.
      simpl. lia.
    + intros c _ _ _ _ He _ _. unfold resize_pending. rewrite He. simpl. lia.
Qed.

(** X9. When the resize callback runs, the number of slides shown is
    recomputed from the window and the carousel moves back just as far
    as the new last position requires; it never moves forward. *)
Theorem resize_reclamps_index (c : Carousel) :
  in_range c →
  let c' := (runTask ResizeSettled c).1 in
  options c' = options (updateSlidesToShow c).1
  ∧ currentIndex c' = Z.min (currentIndex c) (getMaxIndex c')
  ∧ in_range c'.
Proof.
  intros Hr c'.
  assert (E : core c' = core (goToSlide
                (currentIndex c) false (updateSlidesToShow c).1).1).
  { unfold c'. cbn [runTask]. erewrite bind_normal by reflexivity.
    erewrite bind_normal by reflexivity.
    apply bind_core. intros _ k. apply updateButtons_core. }
  rewrite goToSlide_core in E. unfold core in E.
  injection E as Ei Et Eo.
  assert (Hm : getMaxIndex c' = getMaxIndex (updateSlidesToShow c).1).
  { unfold getMaxIndex. by rewrite Et, Eo. }
  unfold in_range in *. rewrite Hm, Ei.
  pose proof (getMaxIndex_nonneg (updateSlidesToShow c).1).
  split; [done |]. simpl in *. lia.
Qed.

Lemma resize_reclamps_index_witness :
  let c := upd_env (set_innerWidth 500)
             (run [ClickNext; ClickNext; ClickNext]
                  (new (more_pioneers 4) main_options 800).1) in
  currentIndex c = 2
  ∧ currentIndex (runTask ResizeSettled c).1
    = Z.min (currentIndex c) (getMaxIndex (runTask ResizeSettled c).1).
Proof.
  split; [by vm_compute |].
  apply (resize_reclamps_index
    (upd_env (set_innerWidth 500)
       (run [ClickNext; ClickNext; ClickNext]
            (new (more_pioneers 4) main_options 800).1))).
  vm_compute. split; discriminate.
Defined.

(** X10. The autoplay interval exists only under the [autoplay] option:
    for a carousel built without it (as both carousels of the page are)
    no interval is ever started and the hover listeners are never
    installed, whatever events arrive. *)
Theorem no_autoplay_without_option
    (element : Element) (o : UserOptions) (width : Z) (es : list Event) :
  u_autoplay o ≠ Some true →
  autoplayInterval (run es (new element o width).1) = false
  ∧ hoverListening (env (run es (new element o width).1)) = false.
Proof.
  intros Ho.
  set (I := λ c : Carousel,
    autoplay (options c) = false ∧ autoplayInterval c = false
    ∧ hoverListening (env c) = false).
  assert (H : I (run es (new element o width).1));
    [| by destruct H as (_ & ? & ?)].
  apply (CarouselEverywhere.run_every I);
    try (intros; unfold I in *; simpl in *; intuition congruence).
  apply (CarouselEverywhere.new_every I);
    try (intros; unfold I in *; simpl in *; intuition congruence).
  intros c _ _ _ Hopt He Hi _. unfold I. rewrite Hopt, He, Hi. simpl.
  split; [| done].
  destruct (u_autoplay o) as [[|]|]; done.
Qed.

Lemma no_autoplay_without_option_witness :
  autoplayInterval
    (run [MouseLeave; IntervalTick; PointerDown 0%Qc; PointerUp]
         (new (more_pioneers 6) main_options 1440).1) = false
  ∧ hoverListening (env
      (run [MouseLeave; IntervalTick; PointerDown 0%Qc; PointerUp]
           (new (more_pioneers 6) main_options 1440).1)) = false.
Proof.
  apply (no_autoplay_without_option (more_pioneers 6) main_options 1440).
  discriminate.
Defined.

(** X11. [destroy] stops the interval and resets the inline styles,
    yet removes no listener: a destroyed carousel built with autoplay
    starts its interval again when the pointer leaves it. *)
Theorem destroy_keeps_listeners (c : Carousel) :
  hoverListening (env c) = true → autoplay (options c) = true →
  listeners (destroy c).1 = listeners c
  ∧ autoplayInterval (destroy c).1 = false
  ∧ autoplayInterval (dispatch MouseLeave (destroy c).1).1 = true.
Proof.
  intros Hh Ha.
  assert (E : ∃ c', (destroy c).1 = c' ∧ listeners c' = listeners c
                    ∧ options c' = options c ∧ autoplayInterval c' = false).
  { unfold destroy, stopAutoplay, on_track, mbind, js_bind, get, when,
      modify. simpl.
    destruct (autoplayInterval c) eqn:Hi; simpl;
      destruct (track (carousel c)); simpl; eexists; (split; [reflexivity |]);
      by rewrite ?Hi. }
  destruct E as (c' & -> & Hl & Ho & Hi).
  split; [done | split; [done |]].
  unfold listeners in Hl. injection Hl as _ _ Hh' _.
  unfold dispatch, startAutoplay, stopAutoplay, mbind, js_bind, get, when,
    modify. simpl.
  repeat (rewrite ?Hh', ?Hh, ?Ho, ?Ha, ?Hi; simpl). done.
Qed.

Lemma destroy_keeps_listeners_witness :
  autoplayInterval
    (dispatch MouseLeave
       (destroy (new (more_pioneers 6)
          {| u_slidesToShow := None; u_slidesToScroll := None;
             u_infinite := None; u_autoplay := Some true;
             u_autoplaySpeed := None; u_speed := None |} 1440).1).1).1
  = true.
Proof.
  apply (destroy_keeps_listeners
    (new (more_pioneers 6)
       {| u_slidesToShow := None; u_slidesToScroll := None;
          u_infinite := None; u_autoplay := Some true;
          u_autoplaySpeed := None; u_speed := None |} 1440).1);
    reflexivity.
Defined.

End CarouselLife.

(** * Theme switcher: further properties *)

Module ThemeMore.
Import ThemeSwitcher ThemeFacts.

Lemma labelled_look t t' : look t' = look t → labelled t → labelled t'.
Proof.
  unfold look, labelled. intros [= Hb Hd] (b & Eb & El).
  rewrite Eb in Hb. simpl in Hb.
  destruct (themeButton t') as [b'|]; [| done]. injection Hb as Hb.
  exists b'. split; [done |]. by rewrite Hb, Hd.
Qed.

Lemma look_frame {A} (m : js ThemeSwitcher A) :
  (∀ k, preserves (λ t, look t = k) m) → preserves labelled m.
Proof.
  intros H t Hl. apply (labelled_look t); [| done]. by apply (H (look t)).
Qed.

Lemma savePreference_look k theme :
  preserves (λ t, look t = k) (savePreference theme).
Proof.
  unfold savePreference, console_warn. preserve; [| done].
  intros t H. unfold setItem. by destruct (writable _).
Qed.

Lemma loadPreference_look k : preserves (λ t, look t = k) loadPreference.
Proof.
  unfold loadPreference, console_warn. preserve; [| done].
  intros t H. unfold getItem. by destruct (readable _).
Qed.

Lemma watchSystemPreference_look k :
  preserves (λ t, look t = k) watchSystemPreference.
Proof.
  unfold watchSystemPreference. preserve.
  match goal with a : ThemeSwitcher |- _ => destruct (matchMedia a) end;
    preserve. done.
Qed.

Lemma on_button_icons_look k f :
  (∀ b, ariaLabel (f b) = ariaLabel b) →
  preserves (λ t, look t = k) (on_button f).
Proof.
  intros Hf t H. unfold on_button.
  destruct (themeButton t) eqn:Hb; [| done].
  unfold look in *. simpl. rewrite Hb in H. simpl in H. by rewrite Hf.
Qed.

Lemma animateIcon_look k : preserves (λ t, look t = k) animateIcon.
Proof.
  unfold animateIcon. preserve.
  match goal with a : ThemeSwitcher |- _ =>
    destruct (themeButton a), (matchMedia a) as [m|] end; preserve.
  destruct (prefersReducedMotion m); preserve;
    [by apply on_button_icons_look | done].
Qed.

(** [setTheme] on a page with the button returns, with the theme and
    the label set together. *)
Lemma setTheme_labelled theme t :
  is_Some (themeButton t) →
  ∃ t', setTheme theme t = (t', Normal ()) ∧ labelled t'
        ∧ dataTheme t' = Some (checked theme).
Proof.
  intros [b Hb]. unfold setTheme. fold (checked theme).
  erewrite bind_normal by reflexivity.
  erewrite bind_normal
    by (unfold on_button, modify; simpl; rewrite Hb; reflexivity).
  set (t1 := set_themeButton _ _).
  assert (H1 : labelled t1 ∧ dataTheme t1 = Some (checked theme)).
  { split; [| done]. eexists. split; [reflexivity |]. simpl.
    unfold label_for. f_equal.
    destruct (checked_valid theme) as [-> | ->]; done. }
  assert (Hs : ∃ t', savePreference (checked theme) t1 = (t', Normal ())
                     ∧ look t' = look t1).
  { unfold savePreference, try_catch, setItem, console_warn, modify.
    destruct (writable (localStorage t1)); by eexists. }
  destruct Hs as (t' & -> & Hl). exists t'. split; [done |].
  destruct H1 as [H1 H2]. split; [by apply (labelled_look t1) |].
  unfold look in Hl. injection Hl as _ ->. done.
Qed.

Lemma setTheme_keeps_label theme : preserves labelled (setTheme theme).
Proof.
  intros t (b & Hb & _).
  destruct (setTheme_labelled theme t) as (t' & -> & Hl & _); [by eexists |].
  done.
Qed.

Lemma toggle_labelled : preserves labelled toggle.
Proof.
  unfold toggle. preserve; [apply setTheme_keeps_label |].
  apply look_frame. intros k. apply animateIcon_look.
Qed.

Lemma onSystemChange_labelled matches :
  preserves labelled (onSystemChange matches).
Proof.
  unfold onSystemChange. preserve.
  - apply look_frame. intros k. apply loadPreference_look.
  - destruct (negb _); [apply setTheme_keeps_label | preserve].
Qed.

Lemma dispatch_labelled e : preserves labelled (dispatch e).
Proof.
  unfold dispatch. preserve. destruct e; preserve.
  - apply toggle_labelled.
  - done.
  - apply onSystemChange_labelled.
  - destruct (iconTimers _); preserve; [done |].
    apply look_frame. intros k. by apply on_button_icons_look.
Qed.

Lemma init_labelled t : is_Some (themeButton t) → labelled (init t).1.
Proof.
  intros Hb.
  destruct (ThemeClaims.loadPreference_cases t)
    as (t1 & saved & Hl & Hb1 & _).
  unfold init. erewrite bind_normal by exact Hl.
  erewrite bind_normal by reflexivity.
  destruct (setTheme_labelled
              (or_else saved (getSystemPreference t1)) t1)
    as (t2 & E2 & Hl2 & _); [by rewrite Hb1 |].
  erewrite bind_normal by exact E2.
  match goal with |- labelled (?m t2).1 =>
    assert (Hp : preserves labelled m) end.
  { preserve; [| done |].
    - apply look_frame. intros k. by apply on_button_icons_look.
    - apply look_frame. intros k. apply watchSystemPreference_look. }
  by apply Hp.
Qed.

Lemma run_labelled button markup st mm es :
  labelled (run es (new (Some button) markup st mm).1).
Proof.
  unfold run. apply preserves_foldl; [apply dispatch_labelled |].
  unfold new. rewrite bool_decide_eq_true_2 by (by eexists).
  apply init_labelled. by eexists.
Qed.

Lemma label_follows_theme_button button markup st mm es :
  ∃ b, themeButton (run es (new (Some button) markup st mm).1) = Some b.
Proof.
  destruct (run_labelled button markup st mm es) as (b & Hb & _). by exists b.
Qed.

(** X12. The label of the theme button always offers the other theme:
    after construction on a page with the button and after any sequence
    of events, the button reads [Switch to light theme] when the applied
    theme is dark and [Switch to dark theme] otherwise, whatever the
    storage does. *)
Theorem label_follows_theme
    (button : Button) (markup : option string) (st : Storage)
    (mm : option Media) (es : list Event) :
  let t := run es (new (Some button) markup st mm).1 in
  ∃ b, themeButton t = Some b
       ∧ ariaLabel b
         = Some (if bool_decide (dataTheme t = Some "dark")
                 then "Switch to light theme" else "Switch to dark theme").
Proof.
  intros t. change (labelled t). apply run_labelled.
Qed.

End ThemeMore.

Module ThemeInit.
Import ThemeSwitcher ThemeFacts ThemeMore.

Lemma init_spec t b :
  themeButton t = Some b →
  let theme := initial_theme (localStorage t) (matchMedia t) in
  init t =
    ({| themeButton :=
          Some {| ariaLabel :=
                    Some (if bool_decide (theme = DARK)
                          then "Switch to light theme"
                          else "Switch to dark theme");
                  icons := icons b |};
        dataTheme := Some theme;
        localStorage := stored theme (localStorage t);
        matchMedia := matchMedia t;
        clickListeners := S (clickListeners t);
        changeListeners :=
          if watches (matchMedia t) then S (changeListeners t)
          else changeListeners t;
        iconTimers := iconTimers t;
        console := console t ++ storage_warnings (localStorage t) |},
     Normal ()).
Proof.
  intros Hb theme. destruct t as [tb dt [r w it] mm cl chl tim con].
  simpl in *. subst tb.
  unfold init, loadPreference, setTheme, savePreference,
    watchSystemPreference, try_catch, getItem, setItem, on_button,
    console_warn, mbind, js_bind, get, modify, when, mret, js_ret.
  simpl.
  unfold theme, initial_theme, saved_in, storage_warnings, stored, watches,
    getSystemPreference, system_theme. simpl.
  destruct r, w, mm as [[pd prm [|]]|]; simpl; rewrite ?app_nil_r; rewrite <- ?app_assoc; reflexivity.
Qed.

Lemma new_spec button markup st mm :
  let theme := initial_theme st mm in
  new (Some button) markup st mm =
    ({| themeButton :=
          Some {| ariaLabel :=
                    Some (if bool_decide (theme = DARK)
                          then "Switch to light theme"
                          else "Switch to dark theme");
                  icons := icons button |};
        dataTheme := Some theme;
        localStorage := stored theme st;
        matchMedia := mm;
        clickListeners := 1;
        changeListeners := if watches mm then 1 else 0;
        iconTimers := 0;
        console := storage_warnings st |},
     Normal ())%nat.
Proof.
  intros theme. unfold new. rewrite bool_decide_eq_true_2 by (by eexists).
  by rewrite (init_spec _ button).
Qed.

(** X13. Failures of the storage are contained: on a page with the
    button the constructor returns whatever the storage and the media
    queries do, and it logs exactly one warning for a storage that cannot
    be read and one for a storage that cannot be written. *)
Theorem storage_failures_are_contained
    (button : Button) (markup : option string) (st : Storage)
    (mm : option Media) :
  (new (Some button) markup st mm).2 = Normal ()
  ∧ console (new (Some button) markup st mm).1
    = (if readable st then [] else ["Failed to load theme preference:"])
      ++ (if writable st then [] else ["Failed to save theme preference:"])
  ∧ items (localStorage (new (Some button) markup st mm).1)
    = if writable st
      then <[storageKey := default "" (dataTheme
              (new (Some button) markup st mm).1)]> (items st)
      else items st.
Proof.
  rewrite new_spec. cbn [fst snd console localStorage dataTheme].
  split; [done | split; [done |]].
  unfold stored. by destruct (writable st).
Qed.

(** X14. A stored value wins over the operating system and over the
    markup: when the storage can be read and holds a non-empty value,
    the constructor applies that value if it is a theme and [light] if it
    is not, and a writable storage then holds the applied theme. *)
Theorem stored_theme_wins
    (button : Button) (markup : option string) (st : Storage)
    (mm : option Media) (v : string) :
  readable st = true → items st !! storageKey = Some v → v ≠ "" →
  let t := (new (Some button) markup st mm).1 in
  dataTheme t
  = Some (if bool_decide (v = "light" ∨ v = "dark") then v else "light")
  ∧ (writable st = true → persisted t = dataTheme t).
Proof.
  intros Hr Hv Hne t. unfold t. rewrite new_spec.
  cbn [fst dataTheme]. unfold persisted. cbn [localStorage].
  rewrite persisted_stored.
  unfold initial_theme, saved_in. rewrite Hr, Hv.
  unfold or_else, truthy. rewrite bool_decide_eq_false_2 by done.
  cbn [negb default]. unfold checked, themes.
  split; [| by intros ->].
  f_equal. apply (f_equal (λ b : bool, if b then v else LIGHT)).
  apply bool_decide_ext. rewrite elem_of_cons, list_elem_of_singleton.
  done.
Qed.

Lemma stored_theme_wins_witness :
  dataTheme (new (Some plain_button) (Some "dark") corrupted_storage
               (Some dark_system)).1 = Some "light"
  ∧ persisted (new (Some plain_button) (Some "dark") corrupted_storage
               (Some dark_system)).1 = Some "light".
Proof.
  destruct (stored_theme_wins plain_button (Some "dark") corrupted_storage
              (Some dark_system) "blue") as [H1 H2];
    [reflexivity | reflexivity | discriminate |].
  split; [exact H1 |].
  rewrite (H2 eq_refl). exact H1.
Defined.

(** X15. Without a usable stored value the operating system decides:
    when the storage cannot be read, or holds nothing or the empty string
    under the key, the constructor applies [dark] if the system prefers
    dark and [light] otherwise, also when [matchMedia] is missing. *)
Theorem system_theme_is_the_fallback
    (button : Button) (markup : option string) (st : Storage)
    (mm : option Media) :
  readable st = false ∨ items st !! storageKey = None
  ∨ items st !! storageKey = Some "" →
  dataTheme (new (Some button) markup st mm).1
  = Some (match mm with
          | Some m => if prefersDark m then "dark" else "light"
          | None => "light"
          end).
Proof.
  intros H. rewrite new_spec. cbn [fst dataTheme]. f_equal.
  unfold initial_theme.
  assert (E : truthy (saved_in st) = false).
  { unfold saved_in. destruct H as [-> | [-> | ->]]; [done | |];
      by destruct (readable st). }
  unfold or_else. rewrite E. unfold system_theme.
  destruct mm as [m|]; [destruct (prefersDark m) |]; done.
Qed.

Lemma system_theme_is_the_fallback_witness :
  dataTheme (new (Some plain_button) (Some "light") blocked_storage
               (Some dark_system)).1 = Some "dark".
Proof.
  apply (system_theme_is_the_fallback plain_button (Some "light")
           blocked_storage (Some dark_system)).
  by left.
Defined.

(** *** The page script *)

Lemma main_new_spec button markup st mm :
  ∃ t, main_new (Some button) markup st mm = (t, Normal ())
       ∧ clickListeners t = 2%nat ∧ valid t
       ∧ changeListeners t = (if watches mm then 2 else 0)%nat.
Proof.
  unfold main_new. rewrite new_spec.
  erewrite init_spec by reflexivity.
  eexists. split; [reflexivity |]. cbn.
  split; [done |]. split; [| by destruct (watches mm)].
  unfold valid. cbn. unfold initial_theme.
  match goal with |- context [checked ?x] =>
    destruct (checked_valid x) as [-> | ->] end; auto.
Qed.

Lemma on_button_listeners k f :
  preserves (λ t, clickListeners t = k) (on_button f).
Proof. intros t H. unfold on_button. by destruct (themeButton t). Qed.

Lemma setTheme_listeners k theme :
  preserves (λ t, clickListeners t = k) (setTheme theme).
Proof.
  unfold setTheme, savePreference, console_warn.
  preserve; try apply on_button_listeners; try done.
  intros t H. unfold setItem. by destruct (writable _).
Qed.

Lemma loadPreference_listeners k :
  preserves (λ t, clickListeners t = k) loadPreference.
Proof.
  unfold loadPreference, console_warn. preserve; [| done].
  intros t H. unfold getItem. by destruct (readable _).
Qed.

Lemma toggle_listeners k : preserves (λ t, clickListeners t = k) toggle.
Proof.
  unfold toggle, animateIcon. preserve; [apply setTheme_listeners |].
  match goal with a : ThemeSwitcher |- _ =>
    destruct (themeButton a), (matchMedia a) as [m|] end; preserve.
  destruct (prefersReducedMotion m); preserve;
    [apply on_button_listeners | done].
Qed.

Lemma dispatch_listeners k e :
  preserves (λ t, clickListeners t = k) (dispatch e).
Proof.
  unfold dispatch. preserve. destruct e; preserve.
  - apply toggle_listeners.
  - done.
  - unfold onSystemChange. preserve; [apply loadPreference_listeners |].
    destruct (negb _); [apply setTheme_listeners | preserve].
  - destruct (iconTimers _); preserve; [done | apply on_button_listeners].
Qed.

Lemma toggle_twice_theme t :
  valid t → dataTheme (toggle (toggle t).1).1 = dataTheme t.
Proof.
  intros Hv. rewrite toggle_theme. fold (flip (toggle t).1).
  apply (flip_flip t); [done |]. rewrite toggle_theme. done.
Qed.

(** X16. The page script initialises the switcher twice, so the button
    carries two click listeners and a click runs [toggle] twice: on the
    page as [main.js] sets it up, a click on the theme button leaves the
    applied theme as it was, after any sequence of events. *)
Theorem click_on_the_page_keeps_the_theme
    (button : Button) (markup : option string) (st : Storage)
    (mm : option Media) (es : list Event) :
  let t := run es (main_new (Some button) markup st mm).1 in
  clickListeners t = 2%nat
  ∧ dataTheme (dispatch Click t).1 = dataTheme t.
Proof.
  intros t.
  destruct (main_new_spec button markup st mm) as (t0 & E & Hc & Hv & _).
  assert (H : clickListeners t = 2%nat ∧ valid t).
  { unfold t. rewrite E. cbn [fst]. split.
    - unfold run. apply preserves_foldl; [| done].
      intros e. apply dispatch_listeners.
    - by apply run_valid. }
  destruct H as [H2 Hvt]. split; [done |].
  unfold dispatch. erewrite bind_normal by reflexivity. rewrite H2.
  cbn [times fst]. by apply toggle_twice_theme.
Qed.

(** X17. On a page without the theme button the constructor does
    nothing, and the second [init] of the page script raises a
    [TypeError] after it has applied the initial theme: nothing is
    stored and no listener is installed. *)
Theorem page_without_button_raises
    (markup : option string) (st : Storage) (mm : option Media) :
  (new None markup st mm).2 = Normal ()
  ∧ dataTheme (new None markup st mm).1 = markup
  ∧ (main_new None markup st mm).2 = Thrown TypeError
  ∧ (dataTheme (main_new None markup st mm).1 = Some "light"
     ∨ dataTheme (main_new None markup st mm).1 = Some "dark")
  ∧ localStorage (main_new None markup st mm).1 = st
  ∧ clickListeners (main_new None markup st mm).1 = 0%nat
  ∧ changeListeners (main_new None markup st mm).1 = 0%nat.
Proof.
  unfold main_new, new. rewrite bool_decide_eq_false_2 by (by intros [? ?]).
  split; [done | split; [done |]].
  set (this := {| themeButton := None |}).
  destruct (ThemeClaims.loadPreference_cases this)
    as (t1 & saved & Hl & Hb & Hst & _).
  unfold init. erewrite bind_normal by exact Hl.
  erewrite bind_normal by reflexivity.
  erewrite bind_thrown by (by apply setTheme_no_button).
  cbn [fst snd dataTheme set_dataTheme localStorage clickListeners
       changeListeners].
  split; [done |]. split.
  { match goal with |- context [checked ?x] =>
      destruct (checked_valid x) as [-> | ->] end; auto. }
  split; [by rewrite Hst |].
  assert (Hk : clickListeners t1 = 0%nat ∧ changeListeners t1 = 0%nat).
  { rewrite loadPreference_spec in Hl. destruct (readable _);
      by injection Hl as <- _. }
  done.
Qed.

End ThemeInit.
Module ThemeIcons.
Import ThemeSwitcher ThemeFacts ThemeMore.

Lemma motion_ends t t' : motion t' = motion t → animation_ends t → animation_ends t'.
Proof.
  unfold motion, animation_ends, icons_at_rest. intros [= Hi Ht] H H0 b Hb.
  rewrite Hb in Hi. simpl in Hi.
  destruct (themeButton t) as [b0|]; [| done]. injection Hi as ->.
  apply (H ltac:(congruence) b0 eq_refl).
Qed.

Lemma motion_frame {A} (m : js ThemeSwitcher A) :
  (∀ k, preserves (λ t, motion t = k) m) → preserves animation_ends m.
Proof.
  intros H t Hl. apply (motion_ends t); [| done]. by apply (H (motion t)).
Qed.

Lemma on_button_motion k f :
  (∀ b, icons (f b) = icons b) →
  preserves (λ t, motion t = k) (on_button f).
Proof.
  intros Hf t H. unfold on_button.
  destruct (themeButton t) eqn:Hb; [| done].
  unfold motion in *. simpl. rewrite Hb in H. simpl in H. by rewrite Hf.
Qed.

Lemma loadPreference_motion k : preserves (λ t, motion t = k) loadPreference.
Proof.
  unfold loadPreference, console_warn. preserve; [| done].
  intros t H. unfold getItem. by destruct (readable _).
Qed.

Lemma setTheme_motion k theme : preserves (λ t, motion t = k) (setTheme theme).
Proof.
  unfold setTheme, savePreference, console_warn.
  preserve; try (by apply on_button_motion); try done.
  intros t H. unfold setItem. by destruct (writable _).
Qed.

Lemma animateIcon_ends : preserves animation_ends animateIcon.
Proof.
  intros t H. unfold animateIcon. erewrite bind_normal by reflexivity.
  destruct (themeButton t) as [b|] eqn:Hb; [| done].
  destruct (matchMedia t) as [m|]; [| done].
  destruct (prefersReducedMotion m); [done |].
  erewrite bind_normal by (unfold on_button; rewrite Hb; reflexivity).
  intros H0. done.
Qed.

Lemma toggle_ends : preserves animation_ends toggle.
Proof.
  unfold toggle. preserve; [| apply animateIcon_ends].
  apply motion_frame. intros k. apply setTheme_motion.
Qed.

Lemma dispatch_ends e : preserves animation_ends (dispatch e).
Proof.
  unfold dispatch. preserve. destruct e; preserve.
  - apply toggle_ends.
  - done.
  - unfold onSystemChange. apply motion_frame. intros k.
    preserve; [apply loadPreference_motion |].
    destruct (negb _); [apply setTheme_motion | preserve].
  - match goal with a : ThemeSwitcher |- _ => destruct (iconTimers a) end;
      [preserve |].
    intros t _. erewrite bind_normal by reflexivity.
    unfold on_button. simpl.
    destruct (themeButton t) as [b|] eqn:Hb; simpl.
    + intros _ b' [= <-]. simpl. apply Forall_fmap.
      by apply Forall_true.
    + intros _ b'. simpl. by rewrite Hb.
Qed.

(** X18. The icon animation always ends: on a page whose icons start
    without the animation class, after any sequence of clicks, system
    changes and timer callbacks, no icon carries the class unless a timer
    that will remove it is still waiting. *)
Theorem icon_animation_ends
    (button : Button) (markup : option string) (st : Storage)
    (mm : option Media) (es : list Event) :
  Forall (λ i, i = false) (icons button) →
  let t := run es (new (Some button) markup st mm).1 in
  iconTimers t = 0%nat →
  ∃ b, themeButton t = Some b ∧ Forall (λ i, i = false) (icons b).
Proof.
  intros Hi t H0.
  assert (He : animation_ends t).
  { unfold t, run. apply preserves_foldl; [apply dispatch_ends |].
    rewrite ThemeInit.new_spec. intros _ b [= <-]. done. }
  destruct (label_follows_theme_button button markup st mm es) as [b Hb].
  exists b. split; [done |]. by apply He.
Qed.

Lemma icon_animation_ends_witness :
  let t := run [Click; Click; IconTimer; SystemChange true; IconTimer]
               (new (Some plain_button) None empty_storage
                    (Some light_system)).1 in
  ∃ b, themeButton t = Some b ∧ Forall (λ i, i = false) (icons b).
Proof.
  apply (icon_animation_ends plain_button None empty_storage
           (Some light_system)
           [Click; Click; IconTimer; SystemChange true; IconTimer]).
  - repeat constructor.
  - reflexivity.
Defined.
End ThemeIcons.

(** * Modal: further properties *)

Module ModalMore.
Import Modal.

Lemma open_own pioneerId p m b l :
  pioneersData !! pioneerId = Some p →
  modalBackdrop m = Some b → modal m = Some l →
  open pioneerId m =
    ({| modalBackdrop := Some {| active := true; ariaHidden := Some "false" |};
        modal := Some l; closeButton := closeButton m;
        modalAvatar :=
          (λ _, {| src := image p; alt := name p |}) <$> modalAvatar m;
        modalTitle := (λ _, name p) <$> modalTitle m;
        modalSubtitle :=
          (λ _, role p +:+ " (" +:+ years p +:+ ")") <$> modalSubtitle m;
        modalContent :=
          (λ _, content_html (bio p) (achievements p)) <$> modalContent m;
        isOpen := true; focusableElements := l;
        firstFocusableElement :=
          match l with [] => firstFocusableElement m | _ => head l end;
        lastFocusableElement :=
          match l with [] => lastFocusableElement m | _ => last l end;
        previousActiveElement := activeElement m;
        activeElement := activeElement m; bodyModalOpen := true;
        listeners := listeners m;
        trapListeners :=
          match l with [] => trapListeners m | _ => S (trapListeners m) end;
        focusTimers := S (focusTimers m); console := console m |},
     Normal ()).
Proof.
  intros Hp Hb Hl. unfold open, get_property.
  erewrite bind_normal by reflexivity. rewrite Hp.
  destruct m as [mb md cb av ti su co io fe ff lf pa ae bo li tr ft cs].
  simpl in *. subst mb md.
  unfold updateContent, setFocusTrap, on_backdrop, mbind, js_bind, get,
    modify, when, mret, js_ret, throw. simpl.
  destruct co, l; reflexivity.
Qed.

Lemma close_spec m b :
  modalBackdrop m = Some b →
  close m =
    ({| modalBackdrop := Some {| active := false; ariaHidden := Some "true" |};
        modal := modal m; closeButton := closeButton m;
        modalAvatar := modalAvatar m; modalTitle := modalTitle m;
        modalSubtitle := modalSubtitle m; modalContent := modalContent m;
        isOpen := false; focusableElements := focusableElements m;
        firstFocusableElement := firstFocusableElement m;
        lastFocusableElement := lastFocusableElement m;
        previousActiveElement := previousActiveElement m;
        activeElement :=
          match previousActiveElement m with
          | Some n => Some n
          | None => activeElement m
          end;
        bodyModalOpen := false;
        listeners := listeners m; trapListeners := trapListeners m;
        focusTimers := focusTimers m; console := console m |},
     Normal ()).
Proof.
  intros Hb.
  destruct m as [mb md cb av ti su co io fe ff lf pa ae bo li tr ft cs].
  simpl in *. subst mb.
  unfold close, on_backdrop, focus, mbind, js_bind, get, modify, mret,
    js_ret. simpl.
  destruct pa; reflexivity.
Qed.

(** X19. Opening a pioneer the table owns, on a page that has the
    backdrop and the dialog, returns and shows that pioneer: the dialog
    is open, the backdrop is active and no longer hidden from assistive
    technology, the body is locked, the title, the subtitle, the avatar
    and the biography are those of the record, and the element that had
    the focus is remembered. *)
Theorem open_shows_pioneer (pioneerId : string) (p : Pioneer) (m : Modal) :
  pioneersData !! pioneerId = Some p → complete m →
  let m' := (open pioneerId m).1 in
  (open pioneerId m).2 = Normal ()
  ∧ isOpen m' = true ∧ bodyModalOpen m' = true
  ∧ modalBackdrop m' = Some {| active := true; ariaHidden := Some "false" |}
  ∧ modalTitle m' = (λ _, name p) <$> modalTitle m
  ∧ modalSubtitle m'
    = (λ _, role p +:+ " (" +:+ years p +:+ ")") <$> modalSubtitle m
  ∧ modalAvatar m'
    = (λ _, {| src := image p; alt := name p |}) <$> modalAvatar m
  ∧ modalContent m'
    = (λ _, content_html (bio p) (achievements p)) <$> modalContent m
  ∧ previousActiveElement m' = activeElement m
  ∧ console m' = console m.
Proof.
  intros Hp [[b Hb] [l Hl]] m'. unfold m'.
  rewrite (open_own pioneerId p m b l Hp Hb Hl). done.
Qed.

Lemma open_shows_pioneer_witness :
  modalTitle (open "vint-cerf" page).1 = Some "Vint Cerf"
  ∧ modalSubtitle (open "vint-cerf" page).1
    = Some "Computer Scientist & Internet Pioneer (1943 - Present)"
  ∧ isOpen (open "vint-cerf" page).1 = true.
Proof.
  pose proof (open_shows_pioneer "vint-cerf" vint_cerf page) as H.
  destruct H as (_ & Ho & _ & _ & Ht & Hs & _);
    [reflexivity | split; by eexists |].
  split; [exact Ht | split; [exact Hs | exact Ho]].
Defined.

(** *** The dialog and the instance stay in step *)

Lemma open_in_step pioneerId :
  preserves (λ m, complete m ∧ in_step m) (open pioneerId).
Proof.
  intros m [[[b Hb] [l Hl]] (b' & Hb' & Ha & Hh & Hbo)].
  unfold open, get_property. erewrite bind_normal by reflexivity.
  destruct (pioneersData !! pioneerId) as [p|] eqn:Hp.
  - pose proof (open_own pioneerId p m b l Hp Hb Hl) as E.
    unfold open, get_property in E.
    erewrite bind_normal in E by reflexivity. rewrite Hp in E.
    rewrite E. cbn. split; [split; by eexists |].
    eexists. done.
  - generalize (object_prototype !! pioneerId). intros [d|].
    + destruct m as [mb md cb av ti su co io fe ff lf pa ae bo li tr ft cs].
      unfold complete, in_step. simpl in *. subst mb md.
      injection Hb' as <-.
      unfold updateContent, setFocusTrap, on_backdrop, mbind, js_bind, get,
        modify, when, mret, js_ret, throw. simpl.
      destruct d, co, l; simpl;
        (split; [split; by eexists |]); eexists; try done.
    + cbn. split; [split; by eexists |]. by exists b'.
Qed.

Lemma close_in_step : preserves (λ m, complete m ∧ in_step m) close.
Proof.
  intros m [[[b Hb] [l Hl]] _]. rewrite (close_spec m b Hb). cbn.
  split; [split; by eexists |]. eexists. done.
Qed.

Lemma focus_in_step n : preserves (λ m, complete m ∧ in_step m) (focus n).
Proof. unfold focus. preserve. done. Qed.

Lemma trapTab_in_step shiftKey :
  preserves (λ m, complete m ∧ in_step m) (trapTab shiftKey).
Proof.
  unfold trapTab. preserve.
  match goal with a : Modal |- _ =>
    destruct shiftKey, (firstFocusableElement a), (lastFocusableElement a)
  end; preserve; apply focus_in_step.
Qed.

Lemma dispatch_in_step e : preserves (λ m, complete m ∧ in_step m) (dispatch e).
Proof.
  unfold dispatch. preserve. destruct e.
  - preserve. apply close_in_step.
  - preserve. apply close_in_step.
  - destruct pioneerId; preserve. apply open_in_step.
  - preserve; [apply close_in_step | apply trapTab_in_step].
  - match goal with a : Modal |- _ =>
      destruct (focusTimers a); preserve; [done |];
      destruct (closeButton a) end; preserve. apply focus_in_step.
Qed.

(** X20. The dialog and the instance stay in step: on a page that has
    the backdrop and the dialog and starts closed and hidden, after any
    sequence of events the backdrop is active exactly when [isOpen] is
    true, [aria-hidden] says the opposite, and the body is locked exactly
    then; this includes openings that raise. *)
Theorem dialog_state_in_step (m : Modal) (es : list Event) :
  complete m → in_step m →
  ∃ b, modalBackdrop (run es m) = Some b
       ∧ active b = isOpen (run es m)
       ∧ ariaHidden b = Some (if isOpen (run es m) then "false" else "true")
       ∧ bodyModalOpen (run es m) = isOpen (run es m).
Proof.
  intros Hc Hs.
  assert (H : complete (run es m) ∧ in_step (run es m)).
  { unfold run. apply preserves_foldl; [apply dispatch_in_step | done]. }
  apply H.
Qed.

Lemma dialog_state_in_step_witness :
  ∃ b, modalBackdrop
         (run [ClickCard (Some "vint-cerf"); ClickCard (Some "constructor");
               KeyDown "Escape" false; ClickCard (Some "donald-knuth")] page)
       = Some b
       ∧ active b = true.
Proof.
  destruct (dialog_state_in_step page
    [ClickCard (Some "vint-cerf"); ClickCard (Some "constructor");
     KeyDown "Escape" false; ClickCard (Some "donald-knuth")])
    as (b & Hb & Ha & _).
  - split; by eexists.
  - eexists. split; [reflexivity | done].
  - exists b. split; [exact Hb |]. rewrite Ha. reflexivity.
Defined.

(** *** Focus *)

Lemma focus_previous k n :
  preserves (λ m, (previousActiveElement m, modalBackdrop m) = k) (focus n).
Proof. unfold focus. preserve. done. Qed.

Lemma inner_previous k e :
  inner e = true →
  preserves (λ m, (previousActiveElement m, modalBackdrop m) = k)
            (dispatch e).
Proof.
  intros He. unfold dispatch. preserve. destruct e; try done.
  - simpl in He. apply bool_decide_eq_true_1 in He. subst key.
    change (bool_decide ("Tab" = "Escape")) with false.
    change (bool_decide ("Tab" = "Tab")) with true. cbn [when]. preserve.
    unfold trapTab. preserve.
    match goal with a : Modal |- _ =>
      destruct shiftKey, (firstFocusableElement a), (lastFocusableElement a)
    end; preserve; apply focus_previous.
  - match goal with a : Modal |- _ =>
      destruct (focusTimers a); preserve; [done |];
      destruct (closeButton a) end; preserve. apply focus_previous.
Qed.

Lemma run_inner_previous es m :
  Forall (λ e, inner e = true) es →
  previousActiveElement (run es m) = previousActiveElement m
  ∧ modalBackdrop (run es m) = modalBackdrop m.
Proof.
  intros H. revert m. induction H as [|e es He _ IH]; intros m; [done |].
  unfold run in *. cbn [foldl].
  pose proof (inner_previous (previousActiveElement m, modalBackdrop m)
                e He m eq_refl) as [= E1 E2].
  destruct (IH (dispatch e m).1) as [-> ->]. done.
Qed.

(** X21. Closing gives the focus back: when a pioneer of the table is
    opened while an element has the focus, then whatever the focus timer
    and the Tab key do in the open dialog, closing it returns the focus
    to that element, hides the backdrop and unlocks the body. *)
Theorem close_restores_focus
    (pioneerId : string) (p : Pioneer) (m : Modal) (n : Node)
    (es : list Event) :
  pioneersData !! pioneerId = Some p → complete m →
  activeElement m = Some n →
  Forall (λ e, inner e = true) es →
  let m' := (close (run es (open pioneerId m).1)).1 in
  activeElement m' = Some n
  ∧ isOpen m' = false ∧ bodyModalOpen m' = false
  ∧ modalBackdrop m' = Some {| active := false; ariaHidden := Some "true" |}.
Proof.
  intros Hp [[b Hb] [l Hl]] Hn Hes m'.
  destruct (run_inner_previous es (open pioneerId m).1 Hes) as [E1 E2].
  assert (Ho : previousActiveElement (open pioneerId m).1 = Some n
               ∧ is_Some (modalBackdrop (open pioneerId m).1)).
  { rewrite (open_own pioneerId p m b l Hp Hb Hl). cbn.
    split; [done | by eexists]. }
  destruct Ho as [Ho1 [b1 Ho2]]. rewrite Ho1 in E1. rewrite Ho2 in E2.
  unfold m'. erewrite close_spec by exact E2. cbn.
  by rewrite E1.
Qed.

Lemma close_restores_focus_witness :
  activeElement
    (close (run [FocusTimer; KeyDown "Tab" false; KeyDown "Tab" true]
                (open "radia-perlman" page_with_links).1)).1 = Some 7%nat.
Proof.
  apply (close_restores_focus "radia-perlman" radia_perlman page_with_links
           7%nat [FocusTimer; KeyDown "Tab" false; KeyDown "Tab" true]).
  - reflexivity.
  - split; by eexists.
  - reflexivity.
  - repeat constructor.
Defined.

Lemma trapTab_wrapped (shiftKey : bool) (f l : Node) :
  preserves (λ m, firstFocusableElement m = Some f
                  ∧ lastFocusableElement m = Some l
                  ∧ activeElement m = Some (if shiftKey then l else f))
            (trapTab shiftKey).
Proof.
  intros m (Hf & Hl & Ha). unfold trapTab.
  erewrite bind_normal by reflexivity. rewrite Hf, Hl, Ha.
  destruct shiftKey; case_bool_decide as E; simpl; done.
Qed.

(** X22. The focus trap wraps, however many trap listeners have piled
    up: in a dialog whose first and last focusable elements are known
    and which has at least one trap listener, Tab on the last element
    moves the focus to the first, and Shift+Tab on the first moves it to
    the last. *)
Theorem focus_trap_wraps (m : Modal) (f l : Node) (shiftKey : bool) :
  firstFocusableElement m = Some f → lastFocusableElement m = Some l →
  (0 < trapListeners m)%nat →
  activeElement m = Some (if shiftKey then f else l) →
  activeElement (dispatch (KeyDown "Tab" shiftKey) m).1
  = Some (if shiftKey then l else f).
Proof.
  intros Hf Hl Hn Ha. unfold dispatch.
  erewrite bind_normal by reflexivity.
  change (bool_decide ("Tab" = "Escape")) with false.
  change (bool_decide ("Tab" = "Tab")) with true. cbn [when].
  erewrite bind_normal by reflexivity.
  destruct (trapListeners m) as [|k]; [lia |]. cbn [times fst].
  assert (H1 : firstFocusableElement (trapTab shiftKey m).1 = Some f
               ∧ lastFocusableElement (trapTab shiftKey m).1 = Some l
               ∧ activeElement (trapTab shiftKey m).1
                 = Some (if shiftKey then l else f)).
  { unfold trapTab. erewrite bind_normal by reflexivity.
    rewrite Hf, Hl, Ha.
    destruct shiftKey; rewrite bool_decide_eq_true_2 by done; done. }
  by apply (preserves_times _ k _ (trapTab_wrapped shiftKey f l)) in H1
    as (_ & _ & ?).
Qed.

Lemma focus_trap_wraps_witness :
  activeElement
    (dispatch (KeyDown "Tab" false)
       (set_activeElement (Some 3%nat)
          (open "vint-cerf" (visit "donald-knuth" page_with_links)).1)).1
  = Some 1%nat.
Proof.
  apply (focus_trap_wraps
    (set_activeElement (Some 3%nat)
       (open "vint-cerf" (visit "donald-knuth" page_with_links)).1)
    1%nat 3%nat false); [reflexivity | reflexivity | | reflexivity].
  vm_compute. lia.
Defined.

Lemma visit_spec pioneerId p m l :
  pioneersData !! pioneerId = Some p → is_Some (modalBackdrop m) →
  modal m = Some l →
  is_Some (modalBackdrop (visit pioneerId m))
  ∧ modal (visit pioneerId m) = Some l
  ∧ trapListeners (visit pioneerId m)
    = match l with [] => trapListeners m | _ => S (trapListeners m) end.
Proof.
  intros Hp [b Hb] Hl. unfold visit.
  rewrite (open_own pioneerId p m b l Hp Hb Hl). cbn [fst].
  erewrite close_spec by reflexivity. cbn. split; [by eexists | done].
Qed.

(** X23. The trap listeners pile up: every opening of a dialog that has
    a focusable element installs one more keydown listener and closing
    removes none, so after [k] visits of a pioneer the dialog carries [k]
    listeners more than before. *)
Theorem trap_listeners_pile_up
    (pioneerId : string) (p : Pioneer) (m : Modal) (x : Node)
    (l : list Node) (k : nat) :
  pioneersData !! pioneerId = Some p → is_Some (modalBackdrop m) →
  modal m = Some (x :: l) →
  trapListeners (Nat.iter k (visit pioneerId) m) = (k + trapListeners m)%nat.
Proof.
  intros Hp Hb Hl.
  assert (H : is_Some (modalBackdrop (Nat.iter k (visit pioneerId) m))
              ∧ modal (Nat.iter k (visit pioneerId) m) = Some (x :: l)
              ∧ trapListeners (Nat.iter k (visit pioneerId) m)
                = (k + trapListeners m)%nat); [| by destruct H as (_ & _ & ?)].
  induction k as [|k (Hb' & Hl' & Ht)]; [done |].
  rewrite !Nat.iter_succ.
  destruct (visit_spec pioneerId p _ (x :: l) Hp Hb' Hl') as (H1 & H2 & H3).
  split; [done | split; [done |]]. rewrite H3, Ht. lia.
Qed.

Lemma trap_listeners_pile_up_witness :
  trapListeners (Nat.iter 3 (visit "claude-shannon") page) = 3%nat.
Proof.
  apply (trap_listeners_pile_up "claude-shannon" claude_shannon page
           1%nat [] 3); [reflexivity | by eexists | reflexivity].
Defined.

Lemma updateContent_own p m :
  ∃ disp, updateContent (Own p) m = (set_display disp m, Normal ()).
Proof.
  unfold updateContent.
  erewrite bind_normal by reflexivity.
  erewrite bind_normal by reflexivity.
  erewrite bind_normal by reflexivity.
  erewrite bind_normal by reflexivity.
  cbn [modalContent set_display d_content data_achievements].
  destruct (modalContent m); eexists; reflexivity.
Qed.

Lemma open_no_dialog pioneerId p m b :
  pioneersData !! pioneerId = Some p →
  modalBackdrop m = Some b → modal m = None →
  ∃ m1, open pioneerId m = (m1, Thrown TypeError)
        ∧ modalBackdrop m1
          = Some {| active := true; ariaHidden := Some "false" |}
        ∧ bodyModalOpen m1 = true ∧ isOpen m1 = isOpen m.
Proof.
  intros Hp Hb Hl. unfold open, get_property.
  erewrite bind_normal by reflexivity. rewrite Hp.
  destruct (updateContent_own p m) as (disp & Hu).
  erewrite bind_normal by exact Hu.
  erewrite bind_normal by reflexivity.
  erewrite bind_normal
    by (unfold on_backdrop; cbn [modalBackdrop set_display
          set_previousActiveElement]; rewrite Hb; reflexivity).
  erewrite bind_normal by reflexivity.
  erewrite bind_normal by reflexivity.
  erewrite bind_thrown.
  2:{ unfold setFocusTrap. erewrite bind_normal by reflexivity.
      cbn [modal set_bodyModalOpen set_modalBackdrop
           set_previousActiveElement set_display]. rewrite Hl.
      reflexivity. }
  eexists. split; [reflexivity | done].
Qed.

Lemma escape_when_closed m shiftKey :
  isOpen m = false → dispatch (KeyDown "Escape" shiftKey) m = (m, Normal ()).
Proof.
  intros Ho.
  assert (Ht : ∀ n, times n (m ← get; when (isOpen m) close) m
                    = (m, Normal ())).
  { induction n as [|n IH]; [done |]. cbn [times].
    erewrite bind_normal by reflexivity. rewrite Ho. cbn [when].
    unfold mret, js_ret. cbn [fst snd]. by rewrite IH. }
  unfold dispatch. erewrite bind_normal by reflexivity.
  change (bool_decide ("Escape" = "Escape")) with true.
  change (bool_decide ("Escape" = "Tab")) with false. cbn [when].
  erewrite bind_normal by apply Ht. done.
Qed.

(** X24. A backdrop without the dialog element gets stuck: opening a
    pioneer of the table then raises a [TypeError] after the backdrop was
    shown and the body locked, [isOpen] stays false, and so the Escape
    key does not close what is on the screen. *)
Theorem open_without_dialog_sticks
    (pioneerId : string) (p : Pioneer) (m : Modal) (shiftKey : bool) :
  pioneersData !! pioneerId = Some p →
  is_Some (modalBackdrop m) → modal m = None → isOpen m = false →
  let m' := (open pioneerId m).1 in
  (open pioneerId m).2 = Thrown TypeError
  ∧ modalBackdrop m' = Some {| active := true; ariaHidden := Some "false" |}
  ∧ bodyModalOpen m' = true
  ∧ isOpen m' = false
  ∧ dispatch (KeyDown "Escape" shiftKey) m' = (m', Normal ()).
Proof.
  intros Hp [b Hb] Hl Ho m'.
  destruct (open_no_dialog pioneerId p m b Hp Hb Hl)
    as (m1 & E & H1 & H2 & H3).
  unfold m'. rewrite E. cbn [fst snd]. rewrite Ho in H3.
  split; [done | split; [done | split; [done | split; [done |]]]].
  by apply escape_when_closed.
Qed.

Lemma open_without_dialog_sticks_witness :
  (open "vint-cerf" page_without_dialog).2 = Thrown TypeError
  ∧ bodyModalOpen (open "vint-cerf" page_without_dialog).1 = true.
Proof.
  destruct (open_without_dialog_sticks "vint-cerf" vint_cerf
              page_without_dialog false) as (H1 & _ & H2 & _);
    [reflexivity | by eexists | reflexivity | reflexivity |].
  split; [exact H1 | exact H2].
Defined.

(** X25. Without the backdrop the modal is never wired: [init] logs one
    warning and installs no listener, and no event changes anything
    afterwards; in particular a click on a pioneer card opens nothing. *)
Theorem modal_without_backdrop_is_inert
    (dialog : option (list Node)) (closeBtn : option Node)
    (avatar : option Avatar) (title subtitle content : option string)
    (focused : option Node) (es : list Event) :
  let m := (init (new None dialog closeBtn avatar title subtitle content
                      focused)).1 in
  console m = ["Modal element not found"]
  ∧ listeners m = 0%nat
  ∧ run es m = m.
Proof.
  intros m. split; [done | split; [done |]].
  assert (H : ∀ e, dispatch e m = (m, Normal ())).
  { intros e. unfold dispatch. erewrite bind_normal by reflexivity.
    destruct e; cbn; try done.
    - by destruct closeBtn.
    - destruct pioneerId; [| done]. by destruct (negb _).
    - erewrite bind_normal by (by destruct (bool_decide (key = "Escape"))).
      by destruct (bool_decide (key = "Tab")). }
  induction es as [|e es IH]; [done |].
  unfold run in *. cbn [foldl]. by rewrite H.
Qed.

End ModalMore.

(** * Navigation menu *)

Module MenuFacts.
Import NavigationMenu.

Lemma menu_open_spec m a n h :
  menuToggle m = Some a → mobileNav m = Some n → header m = Some h →
  open m =
    ({| menuToggle := Some (Some "true");
        mobileNav := Some {| openClass := true; display := "block" |};
        header := Some "none"; overflow := "hidden"; isOpen := true;
        listening := listening m; timers := timers m |}, Normal ()).
Proof.
  intros Ha Hn Hh. destruct m as [mt mn hd ov io li ti]. simpl in *.
  subst mt mn hd. reflexivity.
Qed.

Lemma menu_close_spec m a n h :
  menuToggle m = Some a → mobileNav m = Some n → header m = Some h →
  close m =
    ({| menuToggle := Some (Some "false");
        mobileNav := Some {| openClass := false; display := display n |};
        header := Some "1px solid var(--color-border)"; overflow := "";
        isOpen := false; listening := listening m;
        timers := S (timers m) |}, Normal ()).
Proof.
  intros Ha Hn Hh. destruct m as [mt mn hd ov io li ti]. simpl in *.
  subst mt mn hd. reflexivity.
Qed.

Lemma open_sound : preserves sound open.
Proof.
  intros m (([a Ha] & [n Hn] & [h Hh]) & _).
  rewrite (menu_open_spec m a n h Ha Hn Hh). cbn.
  split; [repeat split; by eexists |].
  split; [done |]. split; [by intros ? |]. by intros ?.
Qed.

Lemma close_sound : preserves sound close.
Proof.
  intros m (([a Ha] & [n Hn] & [h Hh]) & _).
  rewrite (menu_close_spec m a n h Ha Hn Hh). cbn.
  split; [repeat split; by eexists |].
  split; [by intros ? |]. split.
  - intros _ n' _ _. cbn. lia.
  - by intros _ n' [= <-].
Qed.

Lemma closeIfOpen_sound : preserves sound closeIfOpen.
Proof. unfold closeIfOpen. preserve. apply close_sound. Qed.

Lemma toggle_sound : preserves sound toggle.
Proof.
  unfold toggle. preserve.
  match goal with a : Menu |- _ => destruct (isOpen a) end;
    [apply close_sound | apply open_sound].
Qed.

Lemma listeners_run_preserves I l :
  Forall (preserves I) l → preserves I (listeners_run l).
Proof.
  induction 1 as [|h t Hh _ IH]; intros m Hm; [done |].
  cbn [listeners_run fst]. apply IH. by apply Hh.
Qed.

(** A callback runs: one timer less, and the menu is hidden if it is
    closed. *)
Lemma timer_sound m k :
  sound m → timers m = S k →
  sound ((modify (set_timers k);; hideAfterTransition) m).1.
Proof.
  intros ((Ha & [n Hn] & Hh) & Hs & Hc & Hk) Ht.
  erewrite bind_normal by reflexivity. unfold hideAfterTransition.
  erewrite bind_normal by reflexivity. cbn [isOpen set_timers].
  destruct (isOpen m) eqn:Ho; cbn [negb when].
  - split; [done |].
    split; [intros _; by apply Hs |]. split; intros ?; cbn in *; congruence.
  - unfold on_mobileNav. cbn [mobileNav set_timers]. rewrite Hn. cbn.
    split; [repeat split; (done || by eexists) |].
    split; [intros ?; cbn in *; congruence |]. split.
    + by intros _ n' [= <-] ?.
    + intros _ n' [= <-]. cbn. by apply Hk.
Qed.

Lemma dispatch_sound e : preserves sound (dispatch e).
Proof.
  intros m Hs. unfold dispatch. erewrite bind_normal by reflexivity.
  assert (Ht : sound (match timers m with
                      | O => mret ()
                      | S n => modify (set_timers n);; hideAfterTransition
                      end m).1).
  { destruct (timers m) as [|k] eqn:Ht; [done | by apply timer_sound]. }
  destruct (listening m); cbn [negb]; [| by destruct e].
  destruct e; try done.
  - by apply toggle_sound.
  - apply listeners_run_preserves; [| done].
    destruct hashTarget; simpl;
      repeat (apply Forall_cons_2 || apply Forall_nil_2);
      auto using close_sound, closeIfOpen_sound.
  - apply listeners_run_preserves; [| done].
    destruct hashTarget; simpl;
      repeat (apply Forall_cons_2 || apply Forall_nil_2);
      auto using close_sound, closeIfOpen_sound.
  - by apply closeIfOpen_sound.
  - clear Ht. revert m Hs. change (preserves sound
      (when (bool_decide (key = "Escape")) closeIfOpen)).
    preserve. apply closeIfOpen_sound.
Qed.

Lemma new_sound a nav h ov :
  display nav ≠ "block" → openClass nav = false →
  sound (new (Some a) (Some nav) (Some h) ov).1.
Proof.
  intros Hd Hc. unfold new.
  rewrite !bool_decide_eq_true_2 by (by eexists). cbn.
  split; [repeat split; by eexists |].
  split; [by intros ? |]. split.
  - by intros _ n [= <-] ?.
  - by intros _ n [= <-].
Qed.

Lemma run_sound es m : sound m → sound (run es m).
Proof. apply preserves_foldl, dispatch_sound. Qed.

(** X26. An open menu is always shown in full: on a page that has the
    toggle, the menu and the header, after any sequence of clicks, keys
    and timer callbacks, whenever the menu is open it carries the open
    class and is displayed, the toggle says [aria-expanded="true"] and the
    body does not scroll; a callback left over from an earlier closing
    never hides a menu that was opened again. *)
Theorem open_menu_is_shown
    (a : option string) (nav : MobileNav) (h ov : string)
    (es : list Event) :
  display nav ≠ "block" → openClass nav = false →
  let m := run es (new (Some a) (Some nav) (Some h) ov).1 in
  isOpen m = true →
  mobileNav m = Some {| openClass := true; display := "block" |}
  ∧ menuToggle m = Some (Some "true")
  ∧ overflow m = "hidden".
Proof.
  intros Hd Hc m Ho.
  destruct (run_sound es _ (new_sound a nav h ov Hd Hc)) as (_ & Hs & _).
  destruct (Hs Ho) as (H1 & H2 & _ & H4). done.
Qed.

Lemma open_menu_is_shown_witness :
  mobileNav
    (run [ClickToggle; KeyDown "Escape"; ClickToggle; Timer]
         (new (Some None) (Some closed_nav) (Some "") "").1)
  = Some {| openClass := true; display := "block" |}.
Proof.
  apply (open_menu_is_shown None closed_nav "" ""
           [ClickToggle; KeyDown "Escape"; ClickToggle; Timer]);
    [discriminate | reflexivity | reflexivity].
Defined.

(** X27. A closed menu does not stay on the screen: on such a page,
    after any sequence of events, a menu that is closed has lost the open
    class, and once no hide callback is waiting it is not displayed. *)
Theorem closed_menu_gets_hidden
    (a : option string) (nav : MobileNav) (h ov : string)
    (es : list Event) :
  display nav ≠ "block" → openClass nav = false →
  let m := run es (new (Some a) (Some nav) (Some h) ov).1 in
  isOpen m = false →
  ∃ n, mobileNav m = Some n ∧ openClass n = false
       ∧ (timers m = 0%nat → display n ≠ "block").
Proof.
  intros Hd Hc m Ho.
  destruct (run_sound es _ (new_sound a nav h ov Hd Hc))
    as ((_ & [n Hn] & _) & _ & Hh & Hk).
  fold m in Hn, Hh, Hk. exists n. split; [done |].
  split; [by apply Hk |].
  intros Ht Hb. pose proof (Hh Ho n Hn Hb). lia.
Qed.

Lemma closed_menu_gets_hidden_witness :
  ∃ n, mobileNav
         (run [ClickToggle; ClickMobileLink true; Timer]
              (new (Some None) (Some closed_nav) (Some "") "").1) = Some n
       ∧ openClass n = false.
Proof.
  destruct (closed_menu_gets_hidden None closed_nav "" ""
              [ClickToggle; ClickMobileLink true; Timer])
    as (n & Hn & Hc & _); [discriminate | reflexivity | reflexivity |].
  exists n. split; [exact Hn | exact Hc].
Defined.

Lemma no_header_close m a n :
  menuToggle m = Some a → mobileNav m = Some n → header m = None →
  close m =
    ({| menuToggle := Some (Some "false");
        mobileNav := Some {| openClass := false; display := display n |};
        header := None; overflow := overflow m; isOpen := false;
        listening := listening m; timers := timers m |}, Thrown TypeError).
Proof.
  intros Ha Hn Hh. destruct m as [mt mn hd ov io li ti]. simpl in *.
  subst mt mn hd. reflexivity.
Qed.

Lemma no_header_open m a n :
  menuToggle m = Some a → mobileNav m = Some n → header m = None →
  open m =
    ({| menuToggle := Some (Some "true");
        mobileNav := Some {| openClass := true; display := "block" |};
        header := None; overflow := overflow m; isOpen := true;
        listening := listening m; timers := timers m |}, Thrown TypeError).
Proof.
  intros Ha Hn Hh. destruct m as [mt mn hd ov io li ti]. simpl in *.
  subst mt mn hd. reflexivity.
Qed.

Lemma open_stuck ov : preserves (stuck ov) open.
Proof.
  intros m ([a Ha] & Hh & Ho & Ht & Hn).
  rewrite (no_header_open m a _ Ha Hn Hh). cbn.
  split; [by eexists | done].
Qed.

Lemma close_stuck ov : preserves (stuck ov) close.
Proof.
  intros m ([a Ha] & Hh & Ho & Ht & Hn).
  rewrite (no_header_close m a _ Ha Hn Hh). cbn.
  split; [by eexists | done].
Qed.

Lemma dispatch_stuck ov e : preserves (stuck ov) (dispatch e).
Proof.
  intros m Hs. unfold dispatch. erewrite bind_normal by reflexivity.
  assert (Ht : stuck ov (match timers m with
                         | O => mret ()
                         | S n => modify (set_timers n);; hideAfterTransition
                         end m).1).
  { pose proof Hs as (_ & _ & _ & E & _). rewrite E. exact Hs. }
  assert (Hc : preserves (stuck ov) closeIfOpen).
  { unfold closeIfOpen. preserve. apply close_stuck. }
  destruct (listening m); cbn [negb]; [| by destruct e].
  destruct e; try done.
  - clear Ht. revert m Hs. change (preserves (stuck ov) toggle).
    unfold toggle. preserve.
    match goal with a : Menu |- _ => destruct (isOpen a) end;
      [apply close_stuck | apply open_stuck].
  - apply listeners_run_preserves; [| done].
    destruct hashTarget; simpl;
      repeat (apply Forall_cons_2 || apply Forall_nil_2);
      auto using close_stuck.
  - apply listeners_run_preserves; [| done].
    destruct hashTarget; simpl;
      repeat (apply Forall_cons_2 || apply Forall_nil_2);
      auto using close_stuck.
  - by apply Hc.
  - clear Ht. revert m Hs. change (preserves (stuck ov)
      (when (bool_decide (key = "Escape")) closeIfOpen)).
    preserve. apply Hc.
Qed.

(** X28. The guard of the constructor does not ask for [.header], and
    [open] and [close] write to it: on a page that has the toggle and the
    menu but no such element, the first click on the toggle raises a
    [TypeError] with the menu displayed and the body still scrolling, and
    from then on, whatever happens, no hide callback is ever scheduled:
    the menu stays displayed, open or closed, and the body is never
    locked. *)
Theorem menu_without_header_stays_displayed
    (a : option string) (nav : MobileNav) (ov : string) (es : list Event) :
  let m0 := (new (Some a) (Some nav) None ov).1 in
  (dispatch ClickToggle m0).2 = Thrown TypeError
  ∧ let m := run (ClickToggle :: es) m0 in
    mobileNav m = Some {| openClass := isOpen m; display := "block" |}
    ∧ timers m = 0%nat
    ∧ overflow m = ov.
Proof.
  intros m0.
  assert (E : dispatch ClickToggle m0
              = ({| menuToggle := Some (Some "true");
                    mobileNav :=
                      Some {| openClass := true; display := "block" |};
                    header := None; overflow := ov; isOpen := true;
                    listening := true; timers := 0 |}, Thrown TypeError)).
  { unfold m0, new. rewrite !bool_decide_eq_true_2 by (by eexists).
    reflexivity. }
  split; [by rewrite E |].
  intros m.
  assert (Hs : stuck ov m).
  { unfold m, run. cbn [foldl]. fold (run es (dispatch ClickToggle m0).1).
    unfold run. apply preserves_foldl; [apply dispatch_stuck |].
    rewrite E. cbn. split; [by eexists | done]. }
  by destruct Hs as (_ & _ & ? & ? & ?).
Qed.

End MenuFacts.

(** * Animations: further properties *)

Module AnimationMore.
Import Dom DomFacts AnimationController AnimationClaims.

Lemma shown_all_shown d : all_shown (shown d).
Proof.
  intros i e He. rewrite shown_fmap, list_lookup_fmap in He.
  apply fmap_Some in He as (e0 & _ & ->).
  split; [apply show_element_hidden |].
  rewrite show_element_animatable. apply show_element_visible.
Qed.

Lemma handleChange_reduced a :
  ∃ a', handleChange true a = (a', Normal ()) ∧ reduced a'.
Proof.
  eexists. split; [reflexivity |].
  split; [done | split; [done | split; [done |]]].
  apply shown_all_shown.
Qed.

Lemma times_handleChange n a :
  (0 < n)%nat →
  ∃ a', times n (handleChange true) a = (a', Normal ()) ∧ reduced a'.
Proof.
  revert a. induction n as [|n IH]; intros a Hn; [lia |].
  destruct (handleChange_reduced a) as (a1 & E1 & H1).
  cbn [times]. rewrite E1. cbn [fst snd].
  destruct n as [|n].
  - exists a1. done.
  - destruct (IH a1 ltac:(lia)) as (a2 & E2 & H2).
    rewrite E2. by exists a2.
Qed.

(** X29. When the preference turns to reduced motion while the page is
    open, everything is shown at once: the handler returns, the observer
    is gone, no element carries [animate-hidden] any more, and every
    element the controller animates carries [animate-visible]. *)
Theorem switching_to_reduced_motion_shows_everything
    (a : AnimationController) :
  (0 < motionListeners a)%nat →
  let r := dispatch (MotionChange true) a in
  r.2 = Normal ()
  ∧ prefersReducedMotion r.1 = true
  ∧ observer r.1 = None
  ∧ ∀ i e, document r.1 !! i = Some e →
      ("animate-hidden" ∉ classList e)
      ∧ (animatable e = true → "animate-visible" ∈ classList e).
Proof.
  intros Hn r. unfold r, dispatch.
  erewrite bind_normal by reflexivity.
  erewrite bind_normal by reflexivity.
  destruct (times_handleChange (motionListeners a)
    (set_matchMedia
       ((λ m, {| reduce := true; canListen := canListen m |})
          <$> matchMedia a) a) Hn) as (a' & E & Hp & Ho & _ & Hs).
  rewrite E. cbn [fst snd].
  split; [done | split; [done | split; [done |]]].
  intros i e He. destruct (Hs i e He) as [H1 H2].
  split; [by apply hidden_not_elem |].
  intros Ha. by apply visible_elem, H2.
Qed.

Lemma switching_to_reduced_motion_shows_everything_witness :
  (dispatch (MotionChange true) sample_running).2 = Normal ()
  ∧ observer (dispatch (MotionChange true) sample_running).1 = None
  ∧ ∃ e, document (dispatch (MotionChange true) sample_running).1 !! 1%nat
         = Some e
         ∧ "animate-hidden" ∉ classList e.
Proof.
  destruct (switching_to_reduced_motion_shows_everything sample_running)
    as (H1 & _ & H3 & H); [vm_compute; lia |].
  split; [exact H1 | split; [exact H3 |]].
  destruct (document (dispatch (MotionChange true) sample_running).1
              !! 1%nat) as [e|] eqn:He; [| by vm_compute in He].
  exists e. split; [reflexivity |]. by destruct (H 1%nat e He).
Defined.

End AnimationMore.

Module AnimationReveal.
Import Dom DomFacts AnimationController AnimationClaims.

Lemma resolve_class_values ty c :
  resolve_class ty = Some c →
  c ∈ ["animate-fade-in"; "animate-slide-up"; "animate-slide-down";
       "animate-slide-left"; "animate-slide-right"; "animate-stagger"].
Proof.
  unfold resolve_class. destruct ty as [t|]; [| intros [= <-]; set_solver].
  destruct (animationClasses !! t) as [c'|] eqn:E.
  - intros [= <-]. apply elem_of_list_to_map_2 in E.
    repeat (apply elem_of_cons in E as [[= _ <-] | E]; [set_solver |]).
    by apply elem_of_nil in E.
  - case_bool_decide; [done |]. intros [= <-]. set_solver.
Qed.

Lemma intersect_spec a targets i e c :
  observer a = Some targets → i ∈ targets → i ∉ animatedElements a →
  document a !! i = Some e →
  getAttribute "data-animation-type" e ≠ Some "stagger-container" →
  resolve_class (getAttribute "data-animation-type" e) = Some c →
  dispatch (Intersect [(i, true)]) a =
    (set_observer (Some (targets ∖ {[i]}))
       (set_animatedElements ({[i]} ∪ animatedElements a)
          (set_timers (timers a ++ [Cleanup i c])
             (set_document
                (alter (add c) i (alter (remove hidden) i (document a)))
                a))),
     Normal ()).
Proof.
  intros Ho Hi Hn He Hty Hc. unfold dispatch.
  erewrite bind_normal by reflexivity. rewrite Ho.
  rewrite filter_cons_True by done. rewrite filter_nil.
  unfold handleIntersection. cbn [for_each foldr].
  erewrite bind_normal; [reflexivity |].
  erewrite bind_normal by reflexivity.
  rewrite bool_decide_eq_false_2 by done. cbn [andb negb when].
  unfold animateElement.
  erewrite bind_normal.
  2:{ erewrite bind_normal by reflexivity. rewrite He. cbn [mbind option_bind].
      rewrite bool_decide_eq_false_2 by done.
      unfold animateSingleElement. erewrite bind_normal by reflexivity.
      rewrite Hc. erewrite bind_normal by reflexivity. reflexivity. }
  erewrite bind_normal by reflexivity.
  unfold unobserve. cbn. rewrite Ho. reflexivity.
Qed.

Lemma resolve_class_marker ty c :
  resolve_class ty = Some c → c ≠ hidden ∧ c ≠ visible.
Proof.
  intros H%resolve_class_values.
  repeat (apply elem_of_cons in H as [-> | H]; [by split |]).
  by apply elem_of_nil in H.
Qed.

(** X30. An element that enters the viewport is revealed once and ends
    up visible: when the observer reports an observed element that was
    not animated yet, the element loses [animate-hidden] and gets its
    animation class; when the clean-up timer has run, the animation class
    is gone and the element carries [animate-visible]; and a later report
    for the same element changes nothing. *)
Theorem revealed_element_ends_visible
    (a : AnimationController) (targets : gset nat) (i : nat) (e : Element)
    (c : string) :
  observer a = Some targets → i ∈ targets → i ∉ animatedElements a →
  document a !! i = Some e →
  getAttribute "data-animation-type" e ≠ Some "stagger-container" →
  resolve_class (getAttribute "data-animation-type" e) = Some c →
  let a1 := (dispatch (Intersect [(i, true)]) a).1 in
  let a2 := (dispatch (Timer (length (timers a))) a1).1 in
  (∃ e1, document a1 !! i = Some e1
         ∧ ("animate-hidden" ∉ classList e1) ∧ c ∈ classList e1)
  ∧ (∃ e2, document a2 !! i = Some e2
           ∧ ("animate-hidden" ∉ classList e2) ∧ (c ∉ classList e2)
           ∧ "animate-visible" ∈ classList e2)
  ∧ timers a2 = timers a
  ∧ dispatch (Intersect [(i, true)]) a2 = (a2, Normal ()).
Proof.
  intros Ho Hi Hn He Hty Hc a1 a2.
  destruct (resolve_class_marker _ _ Hc) as [Hh Hv].
  unfold hidden, visible in Hh, Hv.
  pose proof (intersect_spec a targets i e c Ho Hi Hn He Hty Hc) as E1.
  assert (Ea1 : a1 = (set_observer (Some (targets ∖ {[i]}))
       (set_animatedElements ({[i]} ∪ animatedElements a)
          (set_timers (timers a ++ [Cleanup i c])
             (set_document
                (alter (add c) i (alter (remove hidden) i (document a)))
                a))))).
  { unfold a1. by rewrite E1. }
  assert (Hd : delete (length (timers a)) (timers a1) = timers a).
  { rewrite Ea1. cbn [timers set_observer set_animatedElements set_timers].
    by rewrite delete_middle, app_nil_r. }
  assert (E2 : dispatch (Timer (length (timers a))) a1 =
    (set_document
       (alter (add visible) i (alter (remove c) i (document a1)))
       (set_timers (delete (length (timers a)) (timers a1)) a1),
     Normal ())).
  { unfold dispatch. erewrite bind_normal by reflexivity.
    assert (Hk : timers a1 !! length (timers a) = Some (Cleanup i c)).
    { rewrite Ea1. cbn [timers set_observer set_animatedElements set_timers].
      by rewrite list_lookup_middle. }
    rewrite Hk. reflexivity. }
  assert (Ea2 : a2 = set_document
       (alter (add visible) i (alter (remove c) i (document a1)))
       (set_timers (delete (length (timers a)) (timers a1)) a1)).
  { unfold a2. by rewrite E2. }
  split; [| split; [| split]].
  - exists (add c (remove hidden e)). rewrite Ea1. cbn [document set_observer
      set_animatedElements set_timers set_document].
    rewrite !list_lookup_alter_eq, He. split; [done |].
    unfold add, remove, hidden. cbn. set_solver.
  - exists (add visible (remove c (add c (remove hidden e)))).
    rewrite Ea2. cbn [document set_document]. rewrite Ea1.
    cbn [document set_observer set_animatedElements set_timers set_document].
    rewrite !list_lookup_alter_eq, He. split; [done |].
    unfold add, remove, hidden, visible. cbn. set_solver.
  - rewrite Ea2. exact Hd.
  - unfold dispatch. erewrite bind_normal by reflexivity.
    assert (Ho2 : observer a2 = Some (targets ∖ {[i]})).
    { by rewrite Ea2, Ea1. }
    rewrite Ho2. rewrite filter_cons_False by (cbn; set_solver).
    by rewrite filter_nil.
Qed.

Lemma revealed_element_ends_visible_witness :
  let a1 := (dispatch (Intersect [(0%nat, true)]) sample_running).1 in
  let a2 := (dispatch (Timer (length (timers sample_running))) a1).1 in
  ∃ e2, document a2 !! 0%nat = Some e2
        ∧ "animate-visible" ∈ classList e2.
Proof.
  destruct (revealed_element_ends_visible sample_running
              (default ∅ (observer sample_running)) 0%nat
              (default blank (document sample_running !! 0%nat))
              "animate-fade-in")
    as (_ & (e2 & He2 & _ & _ & Hv) & _).
  - reflexivity.
  - by vm_compute.
  - by vm_compute.
  - reflexivity.
  - by vm_compute.
  - by vm_compute.
  - exists e2. split; [exact He2 | exact Hv].
Defined.

End AnimationReveal.
